(** * Win32 thread back-end of LibVLC (src/win32/thread.c)

    A shallow embedding of the synchronisation, thread-local storage,
    cancellation, clock and timer code of [thread.c], and the properties of
    it that the specification states.

    Conventions.  Pointers, handles and C integers are [Z]; the null pointer
    and [FALSE] are [0].  Operating-system objects the code only calls into
    (critical sections, condition variables, the thread-local storage table,
    the timer queue) are modelled by the calls made on them, recorded in
    traces, or by a small state of their own.  Code reached through function
    pointers (cleanup handlers, slot destructors) is a parameter of the
    development.  Arithmetic on [mtime_t] and on the 64-bit performance
    counter is written with the conversion of every result to 64 bits. *)

From Stdlib Require Import ZArith List Lia Bool.
From stdpp Require Import base option list gmap strings.

Local Open Scope Z_scope.

(** ** Outcomes of a call

    A call of the runtime either returns, terminates the calling thread
    ([_endthreadex]), stops the process ([abort], a failed [assert], or a
    use of freed or null memory), or is still running when the model's
    budget of steps is used up. *)

Inductive outcome (A : Type) : Type :=
| Returned (a : A)
| Exited (a : A)
| Aborted
| AssertFailed
| Pending.

Arguments Returned {A} a.
Arguments Exited {A} a.
Arguments Aborted {A}.
Arguments AssertFailed {A}.
Arguments Pending {A}.

(** ** Address waits (the futex emulation) *)

Module Futex.

(** [wait_addr_buckets[32]]: a bucket is named by its index. *)
Definition ARRAY_SIZE_wait_addr_buckets : Z := 32.

Definition wait_addr_get_bucket (addr : Z) : Z :=
  (Z.shiftr addr 3) mod ARRAY_SIZE_wait_addr_buckets.

(** The calls [WaitOnAddressFallback] makes on its bucket. *)
Inductive event : Type :=
| EnterCriticalSection (bucket : Z)
| LeaveCriticalSection (bucket : Z)
| SleepConditionVariableCS (bucket : Z) (ms : Z).

(** Byte-addressed memory, little-endian as on every Win32 target. *)
Definition byte_at (m : gmap Z Z) (a : Z) : Z := default 0 (m !! a) mod 256.

Fixpoint load_le (m : gmap Z Z) (a : Z) (n : nat) : Z :=
  match n with
  | O => 0
  | S k => byte_at m a + 256 * load_le m (a + 1) k
  end.

(** Reading a [char], [short], [int] or [long long] and converting it to
    [uint64_t]: sign extension, then reduction modulo 2^64. *)
Definition sign_extend (bits u : Z) : Z :=
  if u <? 2 ^ (bits - 1) then u else u - 2 ^ bits.

Definition to_uint64 (z : Z) : Z := z mod 2 ^ 64.

Definition load_as_uint64 (m : gmap Z Z) (a : Z) (n : nat) : Z :=
  to_uint64 (sign_extend (8 * Z.of_nat n) (load_le m a n)).

(** [WaitOnAddressFallback(addr, value, size, ms)].  [m] is the memory as it
    is read once the bucket lock is held; [sleep_ret] is what
    [SleepConditionVariableCS] returns if it is called.  A [size] outside
    1, 2, 4, 8 reaches [vlc_assert_unreachable]. *)
Definition WaitOnAddressFallback (sleep_ret : Z) (m : gmap Z Z)
    (addr value size ms : Z) : outcome (Z * list event) :=
  let bucket := wait_addr_get_bucket addr in
  let operands :=
    match size with
    | 1 => Some (load_as_uint64 m addr 1, load_as_uint64 m value 1)
    | 2 => Some (load_as_uint64 m addr 2, load_as_uint64 m value 2)
    | 4 => Some (load_as_uint64 m addr 4, load_as_uint64 m value 4)
    | 8 => Some (load_as_uint64 m addr 8, load_as_uint64 m value 8)
    | _ => None
    end in
  match operands with
  | None => AssertFailed
  | Some (futex, val) =>
      if futex =? val
      then Returned (sleep_ret,
                     [EnterCriticalSection bucket;
                      SleepConditionVariableCS bucket ms;
                      LeaveCriticalSection bucket])
      else Returned (0,
                     [EnterCriticalSection bucket;
                      LeaveCriticalSection bucket])
  end.

End Futex.

(** ** Threads and cancellation *)

Module Cancel.

(** A cleanup handler node: [proc] and [data]; the [next] link is the tail
    of the list the node heads. *)
Record vlc_cleanup_t : Type := { proc : Z; cleanup_data : Z }.

(** [struct vlc_thread].  [id] is the thread handle, null for a detached
    thread; [wait_addr] is [wait.addr], guarded by the critical section
    [wait.lock]. *)
Record vlc_thread : Type := {
  id : Z;
  killable : bool;
  killed : bool;
  cleaners : list vlc_cleanup_t;
  entry : Z;
  data : Z;
  wait_addr : Z
}.

Definition set_killable (b : bool) (th : vlc_thread) : vlc_thread :=
  {| id := id th; killable := b; killed := killed th; cleaners := cleaners th;
     entry := entry th; data := data th; wait_addr := wait_addr th |}.

Definition set_killed (b : bool) (th : vlc_thread) : vlc_thread :=
  {| id := id th; killable := killable th; killed := b; cleaners := cleaners th;
     entry := entry th; data := data th; wait_addr := wait_addr th |}.

Definition set_cleaners (l : list vlc_cleanup_t) (th : vlc_thread) : vlc_thread :=
  {| id := id th; killable := killable th; killed := killed th; cleaners := l;
     entry := entry th; data := data th; wait_addr := wait_addr th |}.

Definition set_data (d : Z) (th : vlc_thread) : vlc_thread :=
  {| id := id th; killable := killable th; killed := killed th;
     cleaners := cleaners th; entry := entry th; data := d;
     wait_addr := wait_addr th |}.

Definition set_wait_addr (a : Z) (th : vlc_thread) : vlc_thread :=
  {| id := id th; killable := killable th; killed := killed th;
     cleaners := cleaners th; entry := entry th; data := data th;
     wait_addr := a |}.

(** What the calling thread sees: its own record, as [vlc_thread_self]
    returns it ([None] on a thread the runtime did not create), and the
    memory handlers work on. *)
Record world : Type := {
  self : option vlc_thread;
  memory : gmap Z Z
}.

Definition set_self (o : option vlc_thread) (w : world) : world :=
  {| self := o; memory := memory w |}.

Definition vlc_thread_self (w : world) : option vlc_thread := self w.

(** [vlc_thread_destroy]: the record is released and no longer exists. *)
Definition vlc_thread_destroy (w : world) : world := set_self None w.

(** A world in which [vlc_testcancel] cannot take effect: no record, or
    [killable] false. *)
Definition masked (w : world) : Prop :=
  match self w with
  | Some th => killable th = false
  | None => True
  end.

(** *** Cancelling another thread *)

Inductive cancel_event : Type :=
| StoreKilled
| EnterWaitLock
| FetchAnd (addr mask : Z)
| AddrBroadcast (addr : Z)
| LeaveWaitLock
| QueueUserAPC (handle : Z).

(** [vlc_cancel(th)], on the record of the target thread and the memory
    holding the watched word.  [IS_INTERRUPTIBLE] is the build-time macro. *)
Definition vlc_cancel (IS_INTERRUPTIBLE : bool) (th : vlc_thread)
    (m : gmap Z Z) : vlc_thread * gmap Z Z * list cancel_event :=
  let th1 := set_killed true th in
  let '(m1, woken) :=
    if wait_addr th1 =? 0 then (m, [])
    else (alter (fun v => Z.land v (-2)) (wait_addr th1) m,
          [FetchAnd (wait_addr th1) (-2); AddrBroadcast (wait_addr th1)]) in
  (th1, m1,
   [StoreKilled; EnterWaitLock] ++ woken ++ [LeaveWaitLock]
   ++ (if IS_INTERRUPTIBLE then [QueueUserAPC (id th1)] else [])).

(** *** The calling thread's own cancellation state *)

Definition vlc_savecancel (w : world) : Z * world :=
  match vlc_thread_self w with
  | None => (0, w)
  | Some th =>
      let state := if killable th then 1 else 0 in
      (state, set_self (Some (set_killable false th)) w)
  end.

Definition vlc_restorecancel (state : Z) (w : world) : outcome world :=
  if negb ((state =? 0) || (state =? 1)) then AssertFailed
  else
    match vlc_thread_self w with
    | None => Returned w
    | Some th =>
        if killable th then AssertFailed
        else Returned (set_self (Some (set_killable (negb (state =? 0)) th)) w)
    end.

Inductive cancel_cmd : Type :=
| VLC_CLEANUP_PUSH (cleaner : vlc_cleanup_t)
| VLC_CLEANUP_POP
| VLC_CANCEL_ADDR_SET (addr : Z)
| VLC_CANCEL_ADDR_CLEAR (addr : Z)
| VLC_CANCEL_OTHER (cmd : Z).

Definition vlc_control_cancel (cmd : cancel_cmd) (w : world) : outcome world :=
  match vlc_thread_self w with
  | None => Returned w
  | Some th =>
      match cmd with
      | VLC_CLEANUP_PUSH cleaner =>
          Returned (set_self (Some (set_cleaners (cleaner :: cleaners th) th)) w)
      | VLC_CLEANUP_POP =>
          match cleaners th with
          | [] => Aborted
          | _ :: next => Returned (set_self (Some (set_cleaners next th)) w)
          end
      | VLC_CANCEL_ADDR_SET addr =>
          Returned (set_self (Some (set_wait_addr addr th)) w)
      | VLC_CANCEL_ADDR_CLEAR addr =>
          if wait_addr th =? addr
          then Returned (set_self (Some (set_wait_addr 0 th)) w)
          else AssertFailed
      | VLC_CANCEL_OTHER _ => Returned w
      end
  end.

Section Handlers.

(** The code behind a handler's function pointer.  A handler receives the
    runtime's [vlc_testcancel] (handlers may reach cancellation points), its
    [data] argument and the world. *)
Variable cleanup_proc :
  Z -> (world -> outcome world) -> Z -> world -> outcome world.

(** [for (p = th->cleaners; p != NULL; p = p->next) p->proc (p->data);] *)
Fixpoint run_cleaners (testcancel : world -> outcome world)
    (p : list vlc_cleanup_t) (w : world) : outcome world :=
  match p with
  | [] => Returned w
  | c :: next =>
      match cleanup_proc (proc c) testcancel (cleanup_data c) w with
      | Returned w' => run_cleaners testcancel next w'
      | o => o
      end
  end.

(** The body of [vlc_testcancel]; [nested] is [vlc_testcancel] as the
    handlers can call it. *)
Definition testcancel_body (nested : world -> outcome world) (w : world)
    : outcome world :=
  match vlc_thread_self w with
  | None => Returned w
  | Some th =>
      if negb (killable th) then Returned w
      else if negb (killed th) then Returned w
      else
        let w1 := set_self (Some (set_killable true th)) w in
        match run_cleaners nested (cleaners th) w1 with
        | Returned w2 =>
            match self w2 with
            | None => Aborted
            | Some th2 =>
                let w3 := set_self (Some (set_data 0 th2)) w2 in
                if id th2 =? 0 then Exited (vlc_thread_destroy w3)
                else Exited w3
            end
        | o => o
        end
  end.

(** [vlc_testcancel], following re-entrant calls from handlers down to
    [depth] levels. *)
Fixpoint vlc_testcancel (depth : nat) (w : world) : outcome world :=
  testcancel_body
    (match depth with
     | O => fun _ => Pending
     | S d => vlc_testcancel d
     end) w.

(** *** Static mutexes *)

Record vlc_mutex_t : Type := {
  dynamic : bool;
  locked : bool;
  contention : Z
}.

Definition set_locked (b : bool) (mtx : vlc_mutex_t) : vlc_mutex_t :=
  {| dynamic := dynamic mtx; locked := b; contention := contention mtx |}.

Definition add_contention (d : Z) (mtx : vlc_mutex_t) : vlc_mutex_t :=
  {| dynamic := dynamic mtx; locked := locked mtx;
     contention := contention mtx + d |}.

(** What the other threads do while this one sleeps in one
    [vlc_cond_wait]: whether a [vlc_cancel] reaches it, and whether the
    mutex is still held when it wakes. *)
Record wakeup : Type := { cancel_arrives : bool; still_locked : bool }.

Definition deliver_cancel (e : wakeup) (w : world) : world :=
  match self w with
  | Some th =>
      if cancel_arrives e then set_self (Some (set_killed true th)) w else w
  | None => w
  end.

(** Modelled from the spec: [vlc_cond_wait] belongs to the portable part of
    the thread API and is not in this file.  The specification makes the
    address-based wait a cancellation point that checks and acts on
    cancellation before sleeping and again after waking, and [vlc_testcancel]
    the only place where cancellation takes effect. *)
Definition vlc_cond_wait (depth : nat) (e : wakeup) (w : world)
    : outcome world :=
  match vlc_testcancel depth w with
  | Returned w1 => vlc_testcancel depth (deliver_cancel e w1)
  | o => o
  end.

(** The loop [while (p_mutex->locked) { contention++; vlc_cond_wait;
    contention--; }], one element of [sched] per sleep. *)
Fixpoint static_wait_loop (depth : nat) (sched : list wakeup)
    (mtx : vlc_mutex_t) (w : world) : outcome (vlc_mutex_t * world) :=
  match locked mtx, sched with
  | false, _ => Returned (mtx, w)
  | true, [] => Pending
  | true, e :: sched' =>
      let mtx1 := add_contention 1 mtx in
      match vlc_cond_wait depth e w with
      | Returned w' =>
          static_wait_loop depth sched'
            (set_locked (still_locked e) (add_contention (-1) mtx1)) w'
      | Exited w' => Exited (mtx1, w')
      | Aborted => Aborted
      | AssertFailed => AssertFailed
      | Pending => Pending
      end
  end.

(** [vlc_mutex_lock].  The dynamic case is the native critical section,
    which is also what taking and releasing [super_mutex] around the loop
    amounts to. *)
Definition vlc_mutex_lock (depth : nat) (sched : list wakeup)
    (mtx : vlc_mutex_t) (w : world) : outcome (vlc_mutex_t * world) :=
  if dynamic mtx then Returned (mtx, w)
  else
    let '(canc, w1) := vlc_savecancel w in
    match static_wait_loop depth sched mtx w1 with
    | Returned (mtx', w2) =>
        match vlc_restorecancel canc w2 with
        | Returned w3 => Returned (set_locked true mtx', w3)
        | Exited w3 => Exited (set_locked true mtx', w3)
        | Aborted => Aborted
        | AssertFailed => AssertFailed
        | Pending => Pending
        end
    | o => o
    end.

End Handlers.

End Cancel.

(** ** Thread-specific variables *)

Module Tls.

(** The calling thread's view of the operating system: its thread-local
    storage table (an index is allocated when it is in the map) and its
    last-error status. *)
Record os_state : Type := { tls : gmap Z Z; last_error : Z }.

Definition GetLastError (s : os_state) : Z := last_error s.

Definition SetLastError (e : Z) (s : os_state) : os_state :=
  {| tls := tls s; last_error := e |}.

Definition ENOMEM : Z := 12.

(** [struct vlc_threadvar]: the storage index and the destructor (a function
    pointer, null when there is none).  The [prev] link is the tail of the
    list that starts at [vlc_threadvar_last]. *)
Record vlc_threadvar : Type := { id : Z; destroy : Z }.

(** A thread at exit: the operating-system state, the slot list from
    [vlc_threadvar_last] backwards, and the memory destructors release. *)
Record tls_world : Type := {
  os : os_state;
  vlc_threadvar_last : list vlc_threadvar;
  heap : gmap Z Z
}.

Definition set_os (s : os_state) (w : tls_world) : tls_world :=
  {| os := s; vlc_threadvar_last := vlc_threadvar_last w; heap := heap w |}.

(** One destructor invocation made by the exit scan: the slot, the argument,
    and the world the destructor starts in. *)
Record call : Type := {
  call_key : vlc_threadvar;
  call_value : Z;
  call_world : tls_world
}.

Section Platform.

(** What an access to the storage table does to the last-error status, as a
    function of the index, of whether the access succeeded, and of the
    status before. *)
Variables TlsGetValue_error TlsSetValue_error : Z -> bool -> Z -> Z.

Definition TlsGetValue (idx : Z) (s : os_state) : Z * os_state :=
  match tls s !! idx with
  | Some v => (v, SetLastError (TlsGetValue_error idx true (last_error s)) s)
  | None => (0, SetLastError (TlsGetValue_error idx false (last_error s)) s)
  end.

Definition TlsSetValue (idx value : Z) (s : os_state) : Z * os_state :=
  match tls s !! idx with
  | Some _ =>
      (1, {| tls := <[idx := value]> (tls s);
             last_error := TlsSetValue_error idx true (last_error s) |})
  | None => (0, SetLastError (TlsSetValue_error idx false (last_error s)) s)
  end.

Definition vlc_threadvar_set (key : vlc_threadvar) (value : Z) (s : os_state)
    : Z * os_state :=
  let saved := GetLastError s in
  let '(r, s1) := TlsSetValue (id key) value s in
  let val := if negb (r =? 0) then ENOMEM else 0 in
  if val =? 0 then (val, SetLastError saved s1) else (val, s1).

Definition vlc_threadvar_get (key : vlc_threadvar) (s : os_state)
    : Z * os_state :=
  let saved := GetLastError s in
  let '(value, s1) := TlsGetValue (id key) s in
  (value, SetLastError saved s1).

(** The code behind a destructor's function pointer. *)
Variable destroy_proc : Z -> Z -> tls_world -> tls_world.

(** The [for] loop of [vlc_threadvars_cleanup]: the first slot, from
    [vlc_threadvar_last] along [prev], with a non-null value and a non-null
    destructor. *)
Fixpoint scan (keys : list vlc_threadvar) (s : os_state)
    : option (vlc_threadvar * Z) * os_state :=
  match keys with
  | [] => (None, s)
  | key :: prev =>
      let '(value, s1) := vlc_threadvar_get key s in
      if negb (value =? 0) && negb (destroy key =? 0)
      then (Some (key, value), s1)
      else scan prev s1
  end.

(** [vlc_threadvars_cleanup]: each round is one pass from [retry:].  The
    result says whether the scan ended within [rounds] passes, and lists the
    destructor invocations in order. *)
Fixpoint vlc_threadvars_cleanup (rounds : nat) (w : tls_world)
    : bool * tls_world * list call :=
  match rounds with
  | O => (false, w, [])
  | S n =>
      match scan (vlc_threadvar_last w) (os w) with
      | (None, s1) => (true, set_os s1 w, [])
      | (Some (key, value), s1) =>
          let '(_, s2) := vlc_threadvar_set key 0 s1 in
          let w2 := set_os s2 w in
          let '(finished, w', calls) :=
            vlc_threadvars_cleanup n (destroy_proc (destroy key) value w2) in
          (finished, w',
           {| call_key := key; call_value := value; call_world := w2 |}
           :: calls)
      end
  end.

End Platform.

(** What [TlsGetValue] would return for an index, without the call. *)
Definition slot_value (w : tls_world) (idx : Z) : Z :=
  default 0 (tls (os w) !! idx).

(** A slot the exit scan stops at: non-null value, non-null destructor. *)
Definition dirty (w : tls_world) (key : vlc_threadvar) : bool :=
  negb (slot_value w (id key) =? 0) && negb (destroy key =? 0).

(** Destructors that leave the slot list alone and store no non-null value
    into a slot. *)
Definition destructors_keep_null
    (destroy_proc : Z -> Z -> tls_world -> tls_world) : Prop :=
  forall f v w,
    vlc_threadvar_last (destroy_proc f v w) = vlc_threadvar_last w
    /\ forall idx, slot_value w idx = 0 ->
         slot_value (destroy_proc f v w) idx = 0.

End Tls.

(** ** Clock *)

Module Clock.

(** The functions [mdate_selected] can point to. *)
Inductive clock_source : Type :=
| mdate_default
| mdate_interrupt
| mdate_tick
| mdate_multimedia
| mdate_perf
| mdate_wall.

Definition clock_source_eqb (a b : clock_source) : bool :=
  match a, b with
  | mdate_default, mdate_default
  | mdate_interrupt, mdate_interrupt
  | mdate_tick, mdate_tick
  | mdate_multimedia, mdate_multimedia
  | mdate_perf, mdate_perf
  | mdate_wall, mdate_wall => true
  | _, _ => false
  end.

(** The clock's globals: [mdate_selected], [clock_used_early] and
    [clk.perf.freq]. *)
Record clock_state : Type := {
  mdate_selected : clock_source;
  clock_used_early : bool;
  clk_perf_freq : Z
}.

Definition initial_clock : clock_state :=
  {| mdate_selected := mdate_default; clock_used_early := false;
     clk_perf_freq := 0 |}.

(** The build and the system: the [VLC_WINSTORE_APP] macro, whether the
    run-time lookups of [QueryUnbiasedInterruptTime] and [GetTickCount64]
    succeed (always, where the build calls them directly), whether
    [timeGetDevCaps] succeeds, and the performance-counter frequency
    ([None] when [QueryPerformanceFrequency] fails). *)
Record platform : Type := {
  VLC_WINSTORE_APP : bool;
  has_QueryUnbiasedInterruptTime : bool;
  has_GetTickCount64 : bool;
  timeGetDevCaps_ok : bool;
  QueryPerformanceFrequency : option Z
}.

(** The raw readings one call of [mdate] can take. *)
Record readings : Type := {
  interrupt_time : option Z;
  tick_count : Z;
  multimedia_time : Z;
  performance_counter : option Z;
  system_time : Z
}.

Definition CLOCK_FREQ : Z := 1000000.

(** Conversion to the 64-bit signed [mtime_t]; the result of a 64-bit signed
    operation is its exact result converted this way. *)
Definition to_mtime (z : Z) : Z := (z + 2 ^ 63) mod 2 ^ 64 - 2 ^ 63.

Definition read_interrupt (r : readings) : outcome Z :=
  match interrupt_time r with
  | None => Aborted
  | Some ts => Returned (to_mtime (ts / (10000000 / CLOCK_FREQ)))
  end.

Definition read_tick (r : readings) : outcome Z :=
  Returned (to_mtime ((tick_count r * (CLOCK_FREQ / 1000)) mod 2 ^ 64)).

Definition read_multimedia (r : readings) : outcome Z :=
  Returned (to_mtime (multimedia_time r * (CLOCK_FREQ / 1000))).

Definition read_perf (freq : Z) (r : readings) : outcome Z :=
  match performance_counter r with
  | None => Aborted
  | Some counter =>
      Returned (to_mtime (to_mtime (Z.quot counter freq * 1000000)
                          + Z.quot (to_mtime (Z.rem counter freq * 1000000))
                                   freq))
  end.

Definition read_wall (r : readings) : outcome Z :=
  Returned (to_mtime (system_time r / (10000000 / CLOCK_FREQ))).

Definition with_state {A} (st : clock_state) (o : outcome A)
    : outcome (A * clock_state) :=
  match o with
  | Returned a => Returned (a, st)
  | Exited a => Exited (a, st)
  | Aborted => Aborted
  | AssertFailed => AssertFailed
  | Pending => Pending
  end.

(** [mdate]: a call through [mdate_selected].  Only [mdate_default] writes
    the globals. *)
Definition mdate (p : platform) (r : readings) (st : clock_state)
    : outcome (Z * clock_state) :=
  match mdate_selected st with
  | mdate_default =>
      if clock_used_early st then with_state st (read_perf (clk_perf_freq st) r)
      else
        match QueryPerformanceFrequency p with
        | None => Aborted
        | Some freq =>
            let st1 := {| mdate_selected := mdate_selected st;
                          clock_used_early := true;
                          clk_perf_freq := freq |} in
            with_state st1 (read_perf freq r)
        end
  | mdate_interrupt => with_state st (read_interrupt r)
  | mdate_tick => with_state st (read_tick r)
  | mdate_multimedia => with_state st (read_multimedia r)
  | mdate_perf => with_state st (read_perf (clk_perf_freq st) r)
  | mdate_wall => with_state st (read_wall r)
  end.

Definition select (src : clock_source) (st : clock_state) : clock_state :=
  {| mdate_selected := src; clock_used_early := clock_used_early st;
     clk_perf_freq := clk_perf_freq st |}.

(** [SelectClockSource]; [var] is what [var_InheritString (obj,
    "clock-source")] returns. *)
Definition SelectClockSource (p : platform) (var : option string)
    (st : clock_state) : outcome clock_state :=
  if negb (clock_source_eqb (mdate_selected st) mdate_default)
  then Returned st
  else if clock_used_early st then AssertFailed
  else
    let name :=
      match var with
      | Some str => str
      | None => if VLC_WINSTORE_APP p then "perf" else "multimedia"
      end%string in
    if String.eqb name "interrupt" then
      if has_QueryUnbiasedInterruptTime p
      then Returned (select mdate_interrupt st) else Aborted
    else if String.eqb name "tick" then
      if has_GetTickCount64 p
      then Returned (select mdate_tick st) else Aborted
    else if negb (VLC_WINSTORE_APP p) && String.eqb name "multimedia" then
      if timeGetDevCaps_ok p
      then Returned (select mdate_multimedia st) else Aborted
    else if String.eqb name "perf" then
      match QueryPerformanceFrequency p with
      | Some freq =>
          Returned {| mdate_selected := mdate_perf;
                      clock_used_early := clock_used_early st;
                      clk_perf_freq := freq |}
      | None => Aborted
      end
    else if String.eqb name "wall" then Returned (select mdate_wall st)
    else Aborted.

(** The clock calls a process makes after start-up, in order. *)
Inductive clock_call : Type :=
| CallSelectClockSource (var : option string)
| CallMdate (r : readings).

Definition run_call (p : platform) (c : clock_call) (st : clock_state)
    : outcome clock_state :=
  match c with
  | CallSelectClockSource var => SelectClockSource p var st
  | CallMdate r =>
      match mdate p r st with
      | Returned (_, st') => Returned st'
      | Exited (_, st') => Exited st'
      | Aborted => Aborted
      | AssertFailed => AssertFailed
      | Pending => Pending
      end
  end.

Fixpoint run_calls (p : platform) (cs : list clock_call) (st : clock_state)
    : outcome clock_state :=
  match cs with
  | [] => Returned st
  | c :: cs' =>
      match run_call p c st with
      | Returned st' => run_calls p cs' st'
      | o => o
      end
  end.

End Clock.

(** ** Timers *)

Module Timer.

Definition INVALID_HANDLE_VALUE : Z := -1.

Definition ENOMEM : Z := 12.

(** [struct vlc_timer]. *)
Record vlc_timer : Type := { handle : Z; func : Z; data : Z }.

Definition set_handle (h : Z) (t : vlc_timer) : vlc_timer :=
  {| handle := h; func := func t; data := data t |}.

(** A timer of the process's default timer queue: the argument its callback
    [vlc_timer_do] gets (the address of the [vlc_timer]), and the due time
    and period in milliseconds. *)
Record native_timer : Type := {
  callback_arg : Z;
  due_time : Z;
  period : Z
}.

(** The timer records by address, and the live native timers by handle. *)
Record timer_state : Type := {
  timers : gmap Z vlc_timer;
  queue : gmap Z native_timer
}.

Definition initial_timers : timer_state := {| timers := ∅; queue := ∅ |}.

Inductive timer_event : Type :=
| DeleteTimerQueueTimer (h : Z)
| ReadMdate
| CreateTimerQueueTimer (arg due per : Z).

(** Conversion of an [mtime_t] argument to a [DWORD] parameter. *)
Definition to_DWORD (z : Z) : Z := z mod 2 ^ 32.

(** [vlc_timer_create]; [p] is what [malloc] returns. *)
Definition vlc_timer_create (p : Z) (func data : Z) (st : timer_state)
    : Z * timer_state :=
  if p =? 0 then (ENOMEM, st)
  else
    (0, {| timers := <[p := {| handle := INVALID_HANDLE_VALUE;
                               func := func; data := data |}]> (timers st);
           queue := queue st |}).

(** The first statement of [vlc_timer_schedule]: delete the native timer the
    record refers to, if any, and mark the record unarmed.  In a
    [VLC_WINSTORE_APP] build the deletion is compiled out. *)
Definition disarm (WINSTORE_APP : bool) (timer : Z) (t : vlc_timer)
    (st : timer_state) : timer_state * list timer_event :=
  if handle t =? INVALID_HANDLE_VALUE then (st, [])
  else
    ({| timers := <[timer := set_handle INVALID_HANDLE_VALUE t]> (timers st);
        queue := if WINSTORE_APP then queue st
                 else delete (handle t) (queue st) |},
     if WINSTORE_APP then [] else [DeleteTimerQueueTimer (handle t)]).

(** [vlc_timer_schedule].  [now] is what [mdate] returns if it is called;
    [created] is the handle [CreateTimerQueueTimer] stores, [None] when it
    fails.  A pointer that is not a live timer record is a use of freed
    memory.  [value] and [interval] are [mtime_t], and so is every
    intermediate result. *)
Definition vlc_timer_schedule (WINSTORE_APP : bool) (now : Z)
    (created : option Z) (timer : Z) (absolute : bool) (value interval : Z)
    (st : timer_state) : outcome (timer_state * list timer_event) :=
  match timers st !! timer with
  | None => Aborted
  | Some t =>
      let '(st1, ev1) := disarm WINSTORE_APP timer t st in
      if value =? 0 then Returned (st1, ev1)
      else
        let '(value1, ev2) :=
          if absolute
          then (if Clock.to_mtime (value - now) <? 0 then 0
                else Clock.to_mtime (value - now), [ReadMdate])
          else (value, []) in
        let value2 := Z.quot (Clock.to_mtime (value1 + 999)) 1000 in
        let interval2 := Z.quot (Clock.to_mtime (interval + 999)) 1000 in
        if WINSTORE_APP then Aborted
        else
          match created with
          | None => Aborted
          | Some h =>
              let nt := {| callback_arg := timer;
                           due_time := to_DWORD value2;
                           period := to_DWORD interval2 |} in
              Returned
                ({| timers := <[timer := set_handle h
                                  (set_handle INVALID_HANDLE_VALUE t)]>
                                (timers st1);
                    queue := <[h := nt]> (queue st1) |},
                 ev1 ++ ev2
                 ++ [CreateTimerQueueTimer timer (due_time nt) (period nt)])
          end
  end.

(** [vlc_timer_destroy]. *)
Definition vlc_timer_destroy (WINSTORE_APP : bool) (timer : Z)
    (st : timer_state) : outcome timer_state :=
  match timers st !! timer with
  | None => Aborted
  | Some t =>
      Returned
        {| timers := delete timer (timers st);
           queue := if negb WINSTORE_APP
                       && negb (handle t =? INVALID_HANDLE_VALUE)
                    then delete (handle t) (queue st)
                    else queue st |}
  end.

(** Every live native timer is the one its timer record refers to, and no
    native timer has the handle [INVALID_HANDLE_VALUE]. *)
Definition owned (st : timer_state) : Prop :=
  queue st !! INVALID_HANDLE_VALUE = None
  /\ forall h nt, queue st !! h = Some nt ->
       exists t, timers st !! callback_arg nt = Some t /\ handle t = h.

(** One call of the timer interface.  The allocator returns the address of
    no live record, and [CreateTimerQueueTimer] the handle of no live native
    timer, never [INVALID_HANDLE_VALUE]. *)
Inductive step (WINSTORE_APP : bool) : timer_state -> timer_state -> Prop :=
| step_create p func data st :
    timers st !! p = None ->
    step WINSTORE_APP st (snd (vlc_timer_create p func data st))
| step_schedule now created timer absolute value interval st t st' ev :
    timers st !! timer = Some t ->
    (forall h, created = Some h ->
       h <> INVALID_HANDLE_VALUE /\
       queue (fst (disarm WINSTORE_APP timer t st)) !! h = None) ->
    vlc_timer_schedule WINSTORE_APP now created timer absolute value interval st
    = Returned (st', ev) ->
    step WINSTORE_APP st st'
| step_destroy timer st st' :
    vlc_timer_destroy WINSTORE_APP timer st = Returned st' ->
    step WINSTORE_APP st st'.

Inductive reachable (WINSTORE_APP : bool) : timer_state -> Prop :=
| reachable_initial : reachable WINSTORE_APP initial_timers
| reachable_step st st' :
    reachable WINSTORE_APP st -> step WINSTORE_APP st st' ->
    reachable WINSTORE_APP st'.

End Timer.

(** ** Inputs used in the examples below *)

Module Examples.

(** A four-byte word holding 1 at address 100, and an expected value 0 at
    address 200. *)
Definition flag_memory : gmap Z Z := {[ 100 := 1 ]}.

(** A joinable thread blocked on the word at address 64. *)
Definition waiting_thread : Cancel.vlc_thread :=
  {| Cancel.id := 7; Cancel.killable := true; Cancel.killed := false;
     Cancel.cleaners := []; Cancel.entry := 0; Cancel.data := 0;
     Cancel.wait_addr := 64 |}.

(** A thread the runtime did not create. *)
Definition main_thread_world : Cancel.world :=
  {| Cancel.self := None; Cancel.memory := ∅ |}.

(** A cancellable thread with a pending kill and one cleanup handler. *)
Definition killed_thread : Cancel.vlc_thread :=
  {| Cancel.id := 7; Cancel.killable := true; Cancel.killed := true;
     Cancel.cleaners := [ {| Cancel.proc := 1; Cancel.cleanup_data := 0 |} ];
     Cancel.entry := 0; Cancel.data := 5; Cancel.wait_addr := 0 |}.

Definition killed_world : Cancel.world :=
  {| Cancel.self := Some killed_thread; Cancel.memory := ∅ |}.

(** A handler that reaches a cancellation point: it calls [vlc_testcancel]. *)
Definition reentrant_proc (_ : Z)
    (testcancel : Cancel.world -> outcome Cancel.world) (_ : Z)
    (w : Cancel.world) : outcome Cancel.world :=
  testcancel w.

(** A handler that stores 1 at the address it is given. *)
Definition marking_proc (_ : Z)
    (_ : Cancel.world -> outcome Cancel.world) (data : Z)
    (w : Cancel.world) : outcome Cancel.world :=
  Returned {| Cancel.self := Cancel.self w;
              Cancel.memory := <[data := 1]> (Cancel.memory w) |}.

(** A static mutex held by another thread. *)
Definition held_static_mutex : Cancel.vlc_mutex_t :=
  {| Cancel.dynamic := false; Cancel.locked := true; Cancel.contention := 0 |}.

(** The holder releases the mutex during the first sleep. *)
Definition released_after_one_wait : list Cancel.wakeup :=
  [ {| Cancel.cancel_arrives := false; Cancel.still_locked := false |} ].

(** Two slots with destructors: index 3 holds the block at 300, index 4
    the block at 400; index 9 has no destructor. *)
Definition exiting_thread : Tls.tls_world :=
  {| Tls.os := {| Tls.tls := {[ 3 := 300; 4 := 400; 9 := 900 ]};
                  Tls.last_error := 0 |};
     Tls.vlc_threadvar_last :=
       [ {| Tls.id := 9; Tls.destroy := 0 |};
         {| Tls.id := 4; Tls.destroy := 1 |};
         {| Tls.id := 3; Tls.destroy := 1 |} ];
     Tls.heap := {[ 300 := 1; 400 := 2 ]} |}.

(** A destructor that releases the block it is given. *)
Definition free_proc (_ : Z) (value : Z) (w : Tls.tls_world) : Tls.tls_world :=
  {| Tls.os := Tls.os w;
     Tls.vlc_threadvar_last := Tls.vlc_threadvar_last w;
     Tls.heap := delete value (Tls.heap w) |}.

(** A thread about to end with two variables, of which the second holds a
    value. *)
Definition rewriting_thread : Tls.tls_world :=
  {| Tls.os := {| Tls.tls := {[ 1 := 0; 4 := 5 ]}; Tls.last_error := 0 |};
     Tls.vlc_threadvar_last :=
       [ {| Tls.id := 1; Tls.destroy := 11 |};
         {| Tls.id := 4; Tls.destroy := 44 |} ];
     Tls.heap := ∅ |}.

(** Destructors of which the one of the second variable, given 5, calls
    [vlc_threadvar_set] to store 7 into its own variable and 9 into the
    first; every other invocation does nothing. *)
Definition rewriting_proc (f value : Z) (w : Tls.tls_world) : Tls.tls_world :=
  if (f =? 44) && (value =? 5) then
    let s1 := (Tls.vlc_threadvar_set (fun _ _ _ => 0)
                 {| Tls.id := 4; Tls.destroy := 44 |} 7 (Tls.os w)).2 in
    let s2 := (Tls.vlc_threadvar_set (fun _ _ _ => 0)
                 {| Tls.id := 1; Tls.destroy := 11 |} 9 s1).2 in
    Tls.set_os s2 w
  else w.

(** A desktop build on a system where every clock is available and the
    performance counter runs at 10 MHz. *)
Definition desktop : Clock.platform :=
  {| Clock.VLC_WINSTORE_APP := false;
     Clock.has_QueryUnbiasedInterruptTime := true;
     Clock.has_GetTickCount64 := true;
     Clock.timeGetDevCaps_ok := true;
     Clock.QueryPerformanceFrequency := Some 10000000 |}.

(** Readings taken one second after the counters started. *)
Definition one_second : Clock.readings :=
  {| Clock.interrupt_time := Some 10000000;
     Clock.tick_count := 1000;
     Clock.multimedia_time := 1000;
     Clock.performance_counter := Some 10000000;
     Clock.system_time := 10000000 |}.

(** One timer record, at address 1000, created and never armed. *)
Definition one_timer : Timer.timer_state :=
  (Timer.vlc_timer_create 1000 7 8 Timer.initial_timers).2.

End Examples.

(** ** Address waits: the entry points *)

Module AddrWait.

Import Futex.

(** Writing an [n]-byte object, little-endian. *)
Fixpoint store_le (m : gmap Z Z) (a : Z) (n : nat) (v : Z) : gmap Z Z :=
  match n with
  | O => m
  | S k => store_le (<[a := v mod 256]> m) (a + 1) k (v / 256)
  end.

Definition INFINITE : Z := 4294967295.

(** [vlc_addr_wait(addr, val)] with the fallback installed as
    [WaitOnAddress].  The parameter [val], an [unsigned], lives at the stack
    address [sp]; the timeout [-1] is passed as a [DWORD]. *)
Definition vlc_addr_wait (sleep_ret : Z) (m : gmap Z Z) (sp addr val : Z)
    : outcome (list event) :=
  let m1 := store_le m sp 4 (val mod 2 ^ 32) in
  match WaitOnAddressFallback sleep_ret m1 addr sp 4 INFINITE with
  | Returned (_, tr) => Returned tr
  | Exited (_, tr) => Exited tr
  | Aborted => Aborted
  | AssertFailed => AssertFailed
  | Pending => Pending
  end.

(** [vlc_addr_timedwait(addr, val, delay)], likewise; [delay] is an
    [mtime_t] in microseconds, and [delay + 999] is computed in that
    type. *)
Definition vlc_addr_timedwait (sleep_ret : Z) (m : gmap Z Z)
    (sp addr val delay : Z) : outcome (bool * list event) :=
  let m1 := store_le m sp 4 (val mod 2 ^ 32) in
  let delay1 := Z.quot (Clock.to_mtime (delay + 999)) 1000 in
  if delay1 >? 2147483647 then
    match WaitOnAddressFallback sleep_ret m1 addr sp 4 2147483647 with
    | Returned (_, tr) => Returned (true, tr)
    | Exited (_, tr) => Exited (true, tr)
    | Aborted => Aborted
    | AssertFailed => AssertFailed
    | Pending => Pending
    end
  else
    match WaitOnAddressFallback sleep_ret m1 addr sp 4 (delay1 mod 2 ^ 32) with
    | Returned (r, tr) => Returned (negb (r =? 0), tr)
    | Exited (r, tr) => Exited (negb (r =? 0), tr)
    | Aborted => Aborted
    | AssertFailed => AssertFailed
    | Pending => Pending
    end.

End AddrWait.

(** ** A waiter and a waker on one bucket

    One thread runs [WaitOnAddressFallback] on an address whose word holds
    the expected value; another changes the word and then runs
    [WakeByAddressFallback] on the same address.  The state records where
    each thread is in its function, who holds the bucket's critical section,
    and whether the word still holds the expected value. *)

Module WakeRace.

Inductive agent : Type := Waiter | Waker.

(** Where the waiter is: before [EnterCriticalSection]; holding the lock,
    before the load; after the comparison, with its result; asleep inside
    [SleepConditionVariableCS], the lock released; woken, before the lock is
    taken back; holding the lock again, before [LeaveCriticalSection];
    returned. *)
Inductive waiter_pc : Type :=
| WStart
| WLocked
| WCompared (equal : bool)
| WAsleep
| WWoken
| WLeaving
| WDone.

(** Where the waker is: before the store of its call site; after it, before
    [EnterCriticalSection]; holding the lock; after
    [LeaveCriticalSection], before [WakeAllConditionVariable]; returned. *)
Inductive waker_pc : Type :=
| KStart
| KStored
| KLocked
| KUnlocked
| KDone.

Record state : Type := {
  unchanged : bool;
  lock : option agent;
  waiter : waiter_pc;
  waker : waker_pc
}.

Definition initial : state :=
  {| unchanged := true; lock := None; waiter := WStart; waker := KStart |}.

Inductive step : state -> state -> Prop :=
| waiter_enter u k :
    step {| unchanged := u; lock := None; waiter := WStart; waker := k |}
         {| unchanged := u; lock := Some Waiter; waiter := WLocked; waker := k |}
| waiter_load u l k :
    step {| unchanged := u; lock := l; waiter := WLocked; waker := k |}
         {| unchanged := u; lock := l; waiter := WCompared u; waker := k |}
| waiter_sleep u l k :
    step {| unchanged := u; lock := l; waiter := WCompared true; waker := k |}
         {| unchanged := u; lock := None; waiter := WAsleep; waker := k |}
| waiter_skip u l k :
    step {| unchanged := u; lock := l; waiter := WCompared false; waker := k |}
         {| unchanged := u; lock := None; waiter := WDone; waker := k |}
| waiter_timeout u l k :
    step {| unchanged := u; lock := l; waiter := WAsleep; waker := k |}
         {| unchanged := u; lock := l; waiter := WWoken; waker := k |}
| waiter_reacquire u k :
    step {| unchanged := u; lock := None; waiter := WWoken; waker := k |}
         {| unchanged := u; lock := Some Waiter; waiter := WLeaving; waker := k |}
| waiter_leave u l k :
    step {| unchanged := u; lock := l; waiter := WLeaving; waker := k |}
         {| unchanged := u; lock := None; waiter := WDone; waker := k |}
| waker_store u l w :
    step {| unchanged := u; lock := l; waiter := w; waker := KStart |}
         {| unchanged := false; lock := l; waiter := w; waker := KStored |}
| waker_enter u w :
    step {| unchanged := u; lock := None; waiter := w; waker := KStored |}
         {| unchanged := u; lock := Some Waker; waiter := w; waker := KLocked |}
| waker_leave u l w :
    step {| unchanged := u; lock := l; waiter := w; waker := KLocked |}
         {| unchanged := u; lock := None; waiter := w; waker := KUnlocked |}
| waker_wake_all u l w :
    step {| unchanged := u; lock := l; waiter := w; waker := KUnlocked |}
         {| unchanged := u; lock := l;
            waiter := match w with WAsleep => WWoken | _ => w end;
            waker := KDone |}.

Inductive reachable : state -> Prop :=
| reachable_initial : reachable initial
| reachable_step s s' : reachable s -> step s s' -> reachable s'.

(** What holds in every reachable state. *)
Definition consistent (s : state) : Prop :=
  (unchanged s = true <-> waker s = KStart)
  /\ (lock s = Some Waker <-> waker s = KLocked)
  /\ (lock s = Some Waiter <->
      waiter s = WLocked \/ (exists e, waiter s = WCompared e)
      \/ waiter s = WLeaving)
  /\ (waiter s = WCompared true -> waker s = KStart \/ waker s = KStored)
  /\ (waiter s = WAsleep -> waker s <> KDone).

End WakeRace.

(** ** Static mutexes: try-lock, unlock, and several threads *)

Module Mutex.

Import Cancel.

Definition EBUSY : Z := 16.

(** [vlc_mutex_trylock]; [try_enter] is what [TryEnterCriticalSection]
    returns for a dynamic mutex. *)
Definition vlc_mutex_trylock (try_enter : bool) (mtx : vlc_mutex_t)
    : Z * vlc_mutex_t :=
  if negb (dynamic mtx) then
    if negb (locked mtx) then (0, set_locked true mtx) else (EBUSY, mtx)
  else (if try_enter then 0 else EBUSY, mtx).

(** [vlc_mutex_unlock]; the boolean says whether [super_variable] was
    broadcast. *)
Definition vlc_mutex_unlock (mtx : vlc_mutex_t) : outcome (vlc_mutex_t * bool) :=
  if negb (dynamic mtx) then
    if locked mtx
    then Returned (set_locked false mtx, negb (contention mtx =? 0))
    else AssertFailed
  else Returned (mtx, false).

(** One pass through the loop condition of [vlc_mutex_lock] with
    [super_mutex] held: take the mutex if it is free, otherwise count one
    more waiter and go to sleep. *)
Definition lock_attempt (mtx : vlc_mutex_t) : vlc_mutex_t * bool :=
  if locked mtx then (add_contention 1 mtx, false)
  else (set_locked true mtx, true).

(** The statement after [vlc_cond_wait] in the loop. *)
Definition lock_wake (mtx : vlc_mutex_t) : vlc_mutex_t :=
  add_contention (-1) mtx.

(** Several threads on one static mutex: the mutex, the threads that have
    returned from a lock and not yet unlocked, and the threads asleep in the
    loop of [vlc_mutex_lock]. *)
Record shared : Type := {
  mutex : vlc_mutex_t;
  holders : list nat;
  sleepers : list nat
}.

Definition fresh_static : shared :=
  {| mutex := {| dynamic := false; locked := false; contention := 0 |};
     holders := []; sleepers := [] |}.

Definition after_attempt (i : nat) (sleeping : list nat) (hs : list nat)
    (r : vlc_mutex_t * bool) : shared :=
  if r.2 then {| mutex := r.1; holders := i :: hs; sleepers := sleeping |}
  else {| mutex := r.1; holders := hs; sleepers := i :: sleeping |}.

(** Each step is one section of code run with [super_mutex] held. *)
Inductive step : shared -> shared -> Prop :=
| step_lock i s :
    i ∉ sleepers s ->
    step s (after_attempt i (sleepers s) (holders s) (lock_attempt (mutex s)))
| step_wake i s before after :
    sleepers s = before ++ i :: after ->
    step s (after_attempt i (before ++ after) (holders s)
              (lock_attempt (lock_wake (mutex s))))
| step_trylock i s :
    i ∉ sleepers s ->
    step s {| mutex := (vlc_mutex_trylock false (mutex s)).2;
              holders := if (vlc_mutex_trylock false (mutex s)).1 =? 0
                         then i :: holders s else holders s;
              sleepers := sleepers s |}
| step_unlock i s mtx' woken before after :
    holders s = before ++ i :: after ->
    vlc_mutex_unlock (mutex s) = Returned (mtx', woken) ->
    step s {| mutex := mtx'; holders := before ++ after;
              sleepers := sleepers s |}.

Inductive reachable : shared -> Prop :=
| reachable_fresh : reachable fresh_static
| reachable_step s s' : reachable s -> step s s' -> reachable s'.

(** What several threads keep true of one static mutex. *)
Definition exclusive (s : shared) : Prop :=
  dynamic (mutex s) = false
  /\ (length (holders s) <= 1)%nat
  /\ (locked (mutex s) = true <-> holders s <> [])
  /\ contention (mutex s) = Z.of_nat (length (sleepers s)).

End Mutex.

(** ** Waiting on the operating system *)

Module Waits.

(** The result codes of the Win32 wait functions and the infinite timeout,
    which [thread.c] takes from the system headers. *)
Record wait_codes : Type := {
  WAIT_ABANDONED_0 : Z;
  WAIT_IO_COMPLETION : Z;
  WAIT_TIMEOUT : Z;
  WAIT_FAILED : Z;
  INFINITE : Z
}.

(** What the code relies on: the codes are distinct, none of them but the
    first object's is 0, an I/O completion lies past the abandoned range of
    a single handle, and the infinite timeout is longer than a slice. *)
Definition sound (c : wait_codes) : Prop :=
  0 < WAIT_ABANDONED_0 c
  /\ WAIT_ABANDONED_0 c < WAIT_IO_COMPLETION c
  /\ WAIT_IO_COMPLETION c < WAIT_TIMEOUT c
  /\ WAIT_TIMEOUT c < WAIT_FAILED c
  /\ 50 < INFINITE c.

(** The values of the Windows headers. *)
Definition win32 : wait_codes :=
  {| WAIT_ABANDONED_0 := 128; WAIT_IO_COMPLETION := 192; WAIT_TIMEOUT := 258;
     WAIT_FAILED := 4294967295; INFINITE := 4294967295 |}.

(** One call of [SleepEx] or [WaitForMultipleObjectsEx]: what it returns,
    and what [isCancelled] says after it. *)
Record slice : Type := { os_result : Z; cancelled : bool }.

Section Codes.

Variable c : wait_codes.

(** The loop of the build that cannot be interrupted:
    [do { new_delay = min (50, delay); ret = wait (new_delay); if (delay !=
    INFINITE) delay -= new_delay; if (isCancelled()) ret =
    WAIT_IO_COMPLETION; } while (delay && ret == again)], where [again] is 0
    for [SleepEx] and [WAIT_TIMEOUT] for [WaitForMultipleObjectsEx].  The
    result carries the timeouts passed to the system, in order. *)
Fixpoint poll (again : Z) (sl : list slice) (delay : Z)
    : outcome (Z * list Z) :=
  match sl with
  | [] => Pending
  | s :: sl' =>
      let new_delay := if 50 >? delay then delay else 50 in
      let delay' := if delay =? INFINITE c then delay else delay - new_delay in
      let ret := if cancelled s then WAIT_IO_COMPLETION c else os_result s in
      if negb (delay' =? 0) && (ret =? again) then
        match poll again sl' delay' with
        | Returned (r, lens) => Returned (r, new_delay :: lens)
        | Exited (r, lens) => Exited (r, new_delay :: lens)
        | Aborted => Aborted
        | AssertFailed => AssertFailed
        | Pending => Pending
        end
      else Returned (ret, [new_delay])
  end.

(** The single call of the interruptible build. *)
Definition wait_once (sl : list slice) (delay : Z) : outcome (Z * list Z) :=
  match sl with
  | [] => Pending
  | s :: _ => Returned (os_result s, [delay])
  end.

(** [vlc_WaitForMultipleObjects (count, handles, delay)]. *)
Definition vlc_WaitForMultipleObjects (IS_INTERRUPTIBLE : bool) (count : Z)
    (sl : list slice) (delay : Z) : outcome (Z * list Z) :=
  let waited :=
    if count =? 0 then
      match (if IS_INTERRUPTIBLE then wait_once sl delay
             else poll 0 sl delay) with
      | Returned (ret, lens) =>
          Returned (if ret =? 0 then WAIT_TIMEOUT c else ret, lens)
      | o => o
      end
    else
      if IS_INTERRUPTIBLE then wait_once sl delay
      else poll (WAIT_TIMEOUT c) sl delay in
  match waited with
  | Returned (ret, lens) =>
      if negb ((ret <? WAIT_ABANDONED_0 c)
               || (WAIT_ABANDONED_0 c + count - 1 <? ret))
      then AssertFailed
      else if ret =? WAIT_FAILED c then Aborted
      else Returned (ret, lens)
  | o => o
  end.

Definition vlc_WaitForSingleObject (IS_INTERRUPTIBLE : bool)
    (sl : list slice) (delay : Z) : outcome (Z * list Z) :=
  vlc_WaitForMultipleObjects IS_INTERRUPTIBLE 1 sl delay.

Definition vlc_Sleep (IS_INTERRUPTIBLE : bool) (sl : list slice) (delay : Z)
    : outcome (Z * list Z) :=
  match vlc_WaitForMultipleObjects IS_INTERRUPTIBLE 0 sl delay with
  | Returned (ret, lens) =>
      Returned (if negb (ret =? WAIT_TIMEOUT c) then ret else 0, lens)
  | o => o
  end.

End Codes.

(** A slice that runs to its end undisturbed. *)
Definition quiet (again : Z) (s : slice) : Prop :=
  os_result s = again /\ cancelled s = false.

End Waits.

(** ** Semaphore wait, thread start and join *)

Module Lifecycle.

Import Cancel.

Definition ENOMEM : Z := 12.

(** One blocking wait of the calling thread: what
    [vlc_WaitForSingleObject] returns, and whether a [vlc_cancel] reaches
    the thread while it waits. *)
Record attempt : Type := { wait_code : Z; cancel_during : bool }.

Definition receive_cancel (t : attempt) (w : world) : world :=
  match self w with
  | Some th =>
      if cancel_during t then set_self (Some (set_killed true th)) w else w
  | None => w
  end.

Section Handlers.

Variable cleanup_proc :
  Z -> (world -> outcome world) -> Z -> world -> outcome world.
Variable WAIT_IO_COMPLETION : Z.

(** The loop shared by [vlc_sem_wait] and [vlc_join]:
    [do vlc_testcancel (); while (wait (INFINITE) == WAIT_IO_COMPLETION)].
    The result carries the number of waits made. *)
Fixpoint cancellable_wait (depth : nat) (tries : list attempt) (w : world)
    : outcome (world * nat) :=
  match tries with
  | [] => Pending
  | t :: rest =>
      match vlc_testcancel cleanup_proc depth w with
      | Returned w1 =>
          let w2 := receive_cancel t w1 in
          if wait_code t =? WAIT_IO_COMPLETION then
            match cancellable_wait depth rest w2 with
            | Returned (w3, n) => Returned (w3, S n)
            | Exited (w3, n) => Exited (w3, S n)
            | Aborted => Aborted
            | AssertFailed => AssertFailed
            | Pending => Pending
            end
          else Returned (w2, 1%nat)
      | Exited w1 => Exited (w1, O)
      | Aborted => Aborted
      | AssertFailed => AssertFailed
      | Pending => Pending
      end
  end.

Definition vlc_sem_wait (depth : nat) (tries : list attempt) (w : world)
    : outcome (world * nat) :=
  cancellable_wait depth tries w.

(** [vlc_join (th, result)]: [w] is the world of the joining thread, [th]
    the record of the thread joined; the value stored through [result] is
    returned. *)
Definition vlc_join (depth : nat) (tries : list attempt) (th : vlc_thread)
    (w : world) : outcome (Z * world) :=
  match cancellable_wait depth tries w with
  | Returned (w1, _) => Returned (data th, w1)
  | Exited (w1, _) => Exited (data th, w1)
  | Aborted => Aborted
  | AssertFailed => AssertFailed
  | Pending => Pending
  end.

End Handlers.

Inductive clone_event : Type :=
| CloseHandle (h : Z)
| SetThreadPriority (h : Z) (priority : Z).

Definition set_id (h : Z) (th : vlc_thread) : vlc_thread :=
  {| id := h; killable := killable th; killed := killed th;
     cleaners := cleaners th; entry := entry th; data := data th;
     wait_addr := wait_addr th |}.

(** What [vlc_clone_attr] makes: the record as it is when [_beginthreadex]
    starts the thread on it, and as it is when [vlc_clone_attr] returns. *)
Record clone : Type := { at_start : vlc_thread; at_return : vlc_thread }.

(** [vlc_clone_attr]: [allocated] says whether [malloc] succeeded, [h] is
    what [_beginthreadex] returns and [errno] the error it leaves when it
    returns 0.  The field [id] is first written after the thread has been
    started; until then it holds [uninit], what the block [malloc] returned
    had there. *)
Definition vlc_clone_attr (allocated : bool) (uninit h errno : Z)
    (detached : bool) (entry data priority : Z)
    : Z * option clone * list clone_event :=
  if negb allocated then (ENOMEM, None, [])
  else
    let th := {| id := uninit;
                 killable := false; killed := false; cleaners := [];
                 entry := entry; data := data; wait_addr := 0 |} in
    if h =? 0 then (errno, None, [])
    else
      let th' := set_id (if detached then 0 else h) th in
      (0, Some {| at_start := th; at_return := th' |},
       (if detached then [CloseHandle h] else [])
       ++ (if priority =? 0 then []
           else [SetThreadPriority (id th') priority])).

(** [vlc_entry]: [body] is the thread's entry function applied to its
    argument.  The thread reads the field [id] of its record once, when it
    ends, here or in [vlc_testcancel], and nothing orders that read after
    the store in [vlc_clone_attr]: [th] is the record with the field as the
    thread then reads it.  The result is the record left for [vlc_join], if
    any, and the world of the thread once it has ended. *)
Definition vlc_entry (body : world -> outcome (Z * world)) (th : vlc_thread)
    (w : world) : outcome (option vlc_thread * world) :=
  let w1 := set_self (Some (set_killable true th)) w in
  match body w1 with
  | Returned (r, w2) =>
      match self w2 with
      | None => Aborted
      | Some th2 =>
          let th3 := set_data r th2 in
          Returned (if id th3 =? 0 then None else Some th3, set_self None w2)
      end
  | Exited (_, w2) => Exited (self w2, w2)
  | Aborted => Aborted
  | AssertFailed => AssertFailed
  | Pending => Pending
  end.

(** An entry function that reaches a cancellation point and then returns
    [r]. *)
Definition cancellation_point_then
    (cleanup_proc : Z -> (world -> outcome world) -> Z -> world -> outcome world)
    (depth : nat) (r : Z) (w : world) : outcome (Z * world) :=
  match vlc_testcancel cleanup_proc depth w with
  | Returned w' => Returned (r, w')
  | Exited w' => Exited (0, w')
  | Aborted => Aborted
  | AssertFailed => AssertFailed
  | Pending => Pending
  end.

End Lifecycle.

(** ** Clock: waiting for a date, and the list of sources *)

Module ClockMore.

Import Cancel.

Section Handlers.

Variable cleanup_proc :
  Z -> (world -> outcome world) -> Z -> world -> outcome world.

(** The loop of [mwait]: [while ((delay = deadline - mdate ()) > 0) { delay =
    (delay + 999) / 1000; if (delay > 0x7fffffff) delay = 0x7fffffff;
    vlc_Sleep (delay); vlc_testcancel (); }].  [nows] holds what the
    successive calls of [mdate] return; the result carries the arguments of
    [vlc_Sleep], in order.  [deadline] and [delay] are [mtime_t]. *)
Fixpoint mwait_loop (depth : nat) (nows : list Z) (deadline : Z) (w : world)
    : outcome (world * list Z) :=
  match nows with
  | [] => Pending
  | now :: later =>
      let delay := Clock.to_mtime (deadline - now) in
      if delay >? 0 then
        let delay1 := Z.quot (Clock.to_mtime (delay + 999)) 1000 in
        let delay2 := if delay1 >? 2147483647 then 2147483647 else delay1 in
        match vlc_testcancel cleanup_proc depth w with
        | Returned w1 =>
            match mwait_loop depth later deadline w1 with
            | Returned (w2, sleeps) => Returned (w2, delay2 :: sleeps)
            | Exited (w2, sleeps) => Exited (w2, delay2 :: sleeps)
            | Aborted => Aborted
            | AssertFailed => AssertFailed
            | Pending => Pending
            end
        | Exited w1 => Exited (w1, [delay2])
        | Aborted => Aborted
        | AssertFailed => AssertFailed
        | Pending => Pending
        end
      else Returned (w, [])
  end.

(** [mwait (deadline)]. *)
Definition mwait (depth : nat) (nows : list Z) (deadline : Z) (w : world)
    : outcome (world * list Z) :=
  match vlc_testcancel cleanup_proc depth w with
  | Returned w1 => mwait_loop depth nows deadline w1
  | Exited w1 => Exited (w1, [])
  | Aborted => Aborted
  | AssertFailed => AssertFailed
  | Pending => Pending
  end.

End Handlers.

(** The time [mwait] asks [vlc_Sleep] for when the clock reads [now]. *)
Definition sleep_for (deadline now : Z) : Z :=
  Z.min 2147483647 ((deadline - now + 999) / 1000).

(** A thread on which [vlc_testcancel] does nothing. *)
Definition undisturbed (w : Cancel.world) : Prop :=
  Cancel.masked w
  \/ exists th, Cancel.self w = Some th /\ Cancel.killed th = false.

(** [EnumClockSource].  [winnt_lt_0601] and [winnt_lt_0600] say whether the
    build targets a system older than Windows 7, older than Vista; [version]
    is what [GetVersion] returns; the result lists the values with their
    names.  The name of the first entry goes through the translation
    macro. *)
Definition EnumClockSource (winnt_lt_0601 winnt_lt_0600 WINSTORE_APP : bool)
    (version : Z) : list (string * string) :=
  let loword := Z.land version 65535 in
  let v := Z.lor (Z.shiftl (Z.land loword 255) 8)
                 (Z.land (Z.shiftr loword 8) 255) in
  [(EmptyString, "Auto"%string)]
  ++ (if negb winnt_lt_0601 || (v >=? 1537)
      then [("interrupt", "Interrupt time")]%string else [])
  ++ (if negb winnt_lt_0600 || (v >=? 1536)
      then [("tick", "Windows time")]%string else [])
  ++ (if negb WINSTORE_APP
      then [("multimedia", "Multimedia timers")]%string else [])
  ++ [("perf", "Performance counters");
      ("wall", "System time (DANGEROUS!)")]%string.

(** The size of the arrays [EnumClockSource] allocates. *)
Definition EnumClockSource_max : nat := 6.

End ClockMore.

(** ** The list of thread-specific variables *)

Module TlsList.

Definition EAGAIN : Z := 11.

(** [struct vlc_threadvar], with its links. *)
Record node : Type := { id : Z; destroy : Z; prev : Z; next : Z }.

Definition set_prev (p : Z) (v : node) : node :=
  {| id := id v; destroy := destroy v; prev := p; next := next v |}.

Definition set_next (n : Z) (v : node) : node :=
  {| id := id v; destroy := destroy v; prev := prev v; next := n |}.

(** The variables by address, and the global [vlc_threadvar_last]. *)
Record registry : Type := {
  nodes : gmap Z node;
  vlc_threadvar_last : Z
}.

(** A store through a link, made only when the link is not null. *)
Definition link (k : Z) (f : node -> node) (m : gmap Z node) : gmap Z node :=
  if k =? 0 then m else alter f k m.

(** [vlc_threadvar_create]: [p] is what [malloc] returns, [errno] the error
    it leaves when it returns null, [index] what [TlsAlloc] returns, [None]
    for [TLS_OUT_OF_INDEXES].  On success [*p_tls] is [p]. *)
Definition vlc_threadvar_create (p errno : Z) (index : option Z) (destr : Z)
    (r : registry) : Z * registry :=
  if p =? 0 then (errno, r)
  else
    match index with
    | None => (EAGAIN, r)
    | Some i =>
        let var := {| id := i; destroy := destr;
                      prev := vlc_threadvar_last r; next := 0 |} in
        (0, {| nodes := link (prev var) (set_next p) (<[p := var]> (nodes r));
               vlc_threadvar_last := p |})
    end.

(** [vlc_threadvar_delete]; the fields of [var] are read from memory at each
    use, as the code reads them. *)
Definition vlc_threadvar_delete (var : Z) (r : registry) : outcome registry :=
  match nodes r !! var with
  | None => Aborted
  | Some v =>
      let m1 := link (prev v) (set_next (next v)) (nodes r) in
      match m1 !! var with
      | None => Aborted
      | Some v1 =>
          Returned
            {| nodes := delete var (link (next v1) (set_prev (prev v1)) m1);
               vlc_threadvar_last :=
                 if next v1 =? 0 then prev v1 else vlc_threadvar_last r |}
      end
  end.

(** The memory after [vlc_threadvar_delete] of the variable at [a], whose
    fields are [v]: the two stores through its links, and its release. *)
Definition unlinked (m : gmap Z node) (a : Z) (v : node) : gmap Z node :=
  delete a (link (next v) (set_prev (prev v))
              (link (prev v) (set_next (next v)) m)).

(** The addresses [l] are the variables met from [p] along [prev], and each
    has as [next] the one met before it, [nxt] for the first. *)
Fixpoint chain (m : gmap Z node) (p nxt : Z) (l : list Z) : Prop :=
  match l with
  | [] => p = 0
  | a :: l' =>
      p = a /\ a <> 0
      /\ exists v, m !! a = Some v /\ next v = nxt /\ chain m (prev v) a l'
  end.

Definition well_formed (r : registry) (l : list Z) : Prop :=
  chain (nodes r) (vlc_threadvar_last r) 0 l /\ NoDup l.

(** What the exit scan sees of a variable. *)
Definition slot_of (m : gmap Z node) (a : Z) : option Tls.vlc_threadvar :=
  (fun v => {| Tls.id := id v; Tls.destroy := destroy v |}) <$> m !! a.

Definition slots (r : registry) (l : list Z) : list (option Tls.vlc_threadvar) :=
  map (slot_of (nodes r)) l.

Definition empty_registry : registry :=
  {| nodes := ∅; vlc_threadvar_last := 0 |}.

End TlsList.

(** ** The renderer's clock (modules/audio_output/wasapi.c) *)

Module Wasapi.

(** [GetQPC]: the performance counter in units of 100 ns.  [freq] is the
    global frequency, [counter] what [QueryPerformanceCounter] stores,
    [None] when it fails; [msftime_t] is a 64-bit signed integer like
    [mtime_t]. *)
Definition GetQPC (freq : Z) (counter : option Z) : outcome Z :=
  match counter with
  | None => Aborted
  | Some c =>
      Returned (Clock.to_mtime
                  (Clock.to_mtime (Z.quot c freq * 10000000)
                   + Z.quot (Clock.to_mtime (Z.rem c freq * 10000000)) freq))
  end.

End Wasapi.

(** * Properties *)

(** ** Address waits *)

Section FutexFacts.

Import Futex.

Lemma byte_at_range m a : 0 <= byte_at m a < 256.
Proof. unfold byte_at. apply Z.mod_pos_bound. lia. Qed.

Lemma load_le_range m n : forall a, 0 <= load_le m a n < 2 ^ (8 * Z.of_nat n).
Proof.
  induction n as [|k IH]; intros a.
  - simpl. lia.
  - cbn [load_le].
    replace (8 * Z.of_nat (S k)) with (8 + 8 * Z.of_nat k) by lia.
    rewrite Z.pow_add_r by lia.
    pose proof (byte_at_range m a) as Hb.
    pose proof (IH (a + 1)) as Hr.
    change (2 ^ 8) with 256. nia.
Qed.

Ltac split_ltb :=
  repeat match goal with
         | |- context [?a <? ?b] => destruct (Z.ltb_spec a b)
         end.

(** Sign extension followed by the conversion to [uint64_t] loses nothing
    on objects of at most eight bytes. *)
Lemma widen_injective bits u v :
  In bits [8; 16; 32; 64] ->
  0 <= u < 2 ^ bits -> 0 <= v < 2 ^ bits ->
  to_uint64 (sign_extend bits u) = to_uint64 (sign_extend bits v) -> u = v.
Proof.
  intros Hb Hu Hv.
  assert (Hw : forall x, 0 <= x < 2 ^ bits ->
             to_uint64 (sign_extend bits x) =
             if x <? 2 ^ (bits - 1) then x else x + (2 ^ 64 - 2 ^ bits)).
  { intros x Hx. unfold to_uint64, sign_extend.
    simpl in Hb.
    destruct Hb as [<-|[<-|[<-|[<-|[]]]]]; split_ltb;
      try (apply Z.mod_small; lia);
      symmetry; apply Z.mod_unique_pos with (q := -1); lia. }
  rewrite (Hw u Hu), (Hw v Hv).
  simpl in Hb.
  destruct Hb as [<-|[<-|[<-|[<-|[]]]]]; split_ltb; lia.
Qed.

Lemma load_as_uint64_eqb m a b n :
  In (8 * Z.of_nat n) [8; 16; 32; 64] ->
  (load_as_uint64 m a n =? load_as_uint64 m b n)
  = bool_decide (load_le m a n = load_le m b n).
Proof.
  intros Hn. case_bool_decide as Heq.
  - apply Z.eqb_eq. unfold load_as_uint64. now rewrite Heq.
  - apply Z.eqb_neq. intros H. apply Heq.
    eapply widen_injective; eauto using load_le_range.
Qed.

(** C1.  [WaitOnAddressFallback] called with a [size] of 1, 2, 4 or 8 bytes
    takes the bucket lock, reads the watched object and the expected one, and
    calls [SleepConditionVariableCS] exactly when the two are equal: when
    they differ it returns [FALSE] at once, its only calls being the
    acquisition and release of the bucket lock, whatever the timeout. *)
Theorem WaitOnAddressFallback_sleeps_only_if_equal
    (sleep_ret : Z) (m : gmap Z Z) (addr value size ms : Z) :
  In size [1; 2; 4; 8] ->
  let n := Z.to_nat size in
  let bucket := wait_addr_get_bucket addr in
  (load_le m addr n <> load_le m value n ->
   WaitOnAddressFallback sleep_ret m addr value size ms
   = Returned (0, [EnterCriticalSection bucket;
                   LeaveCriticalSection bucket]))
  /\ (load_le m addr n = load_le m value n ->
      WaitOnAddressFallback sleep_ret m addr value size ms
      = Returned (sleep_ret, [EnterCriticalSection bucket;
                              SleepConditionVariableCS bucket ms;
                              LeaveCriticalSection bucket])).
Proof.
  intros Hsize n bucket. subst n bucket. simpl in Hsize.
  unfold WaitOnAddressFallback.
  destruct Hsize as [<-|[<-|[<-|[<-|[]]]]]; cbn [Z.to_nat Pos.to_nat Pos.iter_op Nat.add];
    rewrite load_as_uint64_eqb by (simpl; tauto);
    (split; intros H; [rewrite bool_decide_eq_false_2 by exact H
                      | rewrite bool_decide_eq_true_2 by exact H]); reflexivity.
Qed.

Lemma WaitOnAddressFallback_witness :
  WaitOnAddressFallback 1 Examples.flag_memory 100 200 4 (-1)
  = Returned (0, [EnterCriticalSection 12; LeaveCriticalSection 12]).
Proof.
  apply (proj1 (WaitOnAddressFallback_sleeps_only_if_equal
                  1 Examples.flag_memory 100 200 4 (-1)
                  (or_intror (or_intror (or_introl eq_refl))))).
  vm_compute. discriminate.
Defined.

End FutexFacts.

(** ** Cancellation *)

Section CancelFacts.

Import Cancel.

(** Clearing bit 0 and nothing else. *)
Lemma land_minus_two_bits w :
  Z.testbit (Z.land w (-2)) 0 = false
  /\ forall i, 0 < i -> Z.testbit (Z.land w (-2)) i = Z.testbit w i.
Proof.
  split.
  - rewrite Z.land_spec. change (Z.testbit (-2) 0) with false.
    apply andb_false_r.
  - intros i Hi. rewrite Z.land_spec.
    replace (Z.testbit (-2) i) with true; [apply andb_true_r|].
    change (-2) with (Z.lnot (2 ^ 0)).
    rewrite Z.lnot_spec, Z.pow2_bits_eqb by lia.
    destruct (Z.eqb_spec 0 i); [lia | reflexivity].
Qed.

(** C2, as the code has it.  [vlc_cancel] stores [true] into the target's
    [killed] flag first and changes nothing else in the record; then, between
    taking and releasing the record's wait-address lock, and only if a wait
    address is registered, it ANDs the watched word with [-2], which clears
    its lowest bit and keeps every other bit, and broadcasts on that address;
    no other word changes. *)
Theorem vlc_cancel_marks_and_wakes
    (IS_INTERRUPTIBLE : bool) (th : vlc_thread) (m : gmap Z Z) :
  let '(th', m', tr) := vlc_cancel IS_INTERRUPTIBLE th m in
  th' = set_killed true th
  /\ killed th' = true
  /\ (wait_addr th = 0 ->
      m' = m
      /\ tr = [StoreKilled; EnterWaitLock; LeaveWaitLock]
              ++ (if IS_INTERRUPTIBLE then [QueueUserAPC (id th)] else []))
  /\ (wait_addr th <> 0 ->
      tr = [StoreKilled; EnterWaitLock;
            FetchAnd (wait_addr th) (-2); AddrBroadcast (wait_addr th);
            LeaveWaitLock]
           ++ (if IS_INTERRUPTIBLE then [QueueUserAPC (id th)] else [])
      /\ (forall a, a <> wait_addr th -> m' !! a = m !! a)
      /\ forall w, m !! wait_addr th = Some w ->
           m' !! wait_addr th = Some (Z.land w (-2))
           /\ Z.testbit (Z.land w (-2)) 0 = false
           /\ forall i, 0 < i ->
                Z.testbit (Z.land w (-2)) i = Z.testbit w i).
Proof.
  unfold vlc_cancel. cbn [wait_addr set_killed id].
  destruct (Z.eqb_spec (wait_addr th) 0) as [Hz|Hnz].
  - repeat split; try reflexivity; intros; congruence.
  - split; [reflexivity|]. split; [reflexivity|].
    split; [intros; congruence|]. intros _.
    split; [reflexivity|]. split.
    + intros a Ha. rewrite lookup_alter_ne; [reflexivity | congruence].
    + intros w Hw. rewrite lookup_alter_eq, Hw.
      split; [reflexivity | apply land_minus_two_bits].
Qed.

Lemma vlc_cancel_marks_and_wakes_witness :
  (vlc_cancel true Examples.waiting_thread {[ 64 := 3 ]}).1.2 !! 64
  = Some (Z.land 3 (-2)).
Proof.
  pose proof (vlc_cancel_marks_and_wakes true Examples.waiting_thread
                {[ 64 := 3 ]}) as H.
  destruct (vlc_cancel true Examples.waiting_thread {[ 64 := 3 ]})
    as [[th' m'] tr].
  destruct H as (_ & _ & _ & H).
  destruct H as (_ & _ & H); [vm_compute; discriminate|].
  apply (H 3). reflexivity.
Defined.

(** C2, as stated, fails: the word 3 has its two low-order bits set, and
    after [vlc_cancel] it is 2, with bit 1 still set. *)
Lemma vlc_cancel_keeps_second_bit :
  (vlc_cancel true Examples.waiting_thread {[ 64 := 3 ]}).1.2 !! 64 = Some 2
  /\ Z.testbit 2 1 = true
  /\ Z.land 2 3 <> 0.
Proof. vm_compute. repeat split; discriminate. Qed.

(** What [vlc_savecancel] returns and leaves, and that restoring undoes
    it. *)
Lemma savecancel_spec (w : world) :
  vlc_restorecancel (vlc_savecancel w).1 (vlc_savecancel w).2 = Returned w
  /\ (vlc_savecancel w).1
     = match self w with
       | Some th => if killable th then 1 else 0
       | None => 0
       end
  /\ self (vlc_savecancel w).2 = set_killable false <$> self w
  /\ memory (vlc_savecancel w).2 = memory w.
Proof.
  destruct w as [[th|] mem]; cbn.
  - split; [|repeat split].
    destruct th as [i [|] kd cl en da wa]; reflexivity.
  - repeat split.
Qed.

(** C9.  [vlc_savecancel] returns the [killable] flag and clears it, and
    [vlc_restorecancel] called next with the returned state passes both its
    assertions and puts the thread back exactly as it was: the flag, the
    rest of the record and the memory are those before the pair. *)
Theorem savecancel_restorecancel_noop (w : world) :
  vlc_restorecancel (vlc_savecancel w).1 (vlc_savecancel w).2 = Returned w
  /\ (vlc_savecancel w).1
     = match self w with
       | Some th => if killable th then 1 else 0
       | None => 0
       end
  /\ self (vlc_savecancel w).2 = set_killable false <$> self w
  /\ memory (vlc_savecancel w).2 = memory w.
Proof.
  destruct w as [[th|] mem]; cbn.
  - split; [|repeat split].
    destruct th as [i [|] kd cl en da wa]; reflexivity.
  - repeat split.
Qed.

(** C10.  On a thread without a record, [vlc_testcancel] returns and
    changes nothing, whatever the handlers and however deep they may nest;
    [vlc_savecancel] returns [false] and changes nothing;
    [vlc_restorecancel], given a state that is [false] or [true], returns
    and changes nothing; and [vlc_control_cancel] returns for every command
    and changes nothing. *)
Theorem cancellation_without_record
    (cleanup_proc : Z -> (world -> outcome world) -> Z -> world -> outcome world)
    (depth : nat) (w : world) :
  vlc_thread_self w = None ->
  vlc_testcancel cleanup_proc depth w = Returned w
  /\ vlc_savecancel w = (0, w)
  /\ (forall state, state = 0 \/ state = 1 ->
        vlc_restorecancel state w = Returned w)
  /\ forall cmd, vlc_control_cancel cmd w = Returned w.
Proof.
  intros Hself. repeat split.
  - destruct depth; cbn; unfold testcancel_body; now rewrite Hself.
  - unfold vlc_savecancel. now rewrite Hself.
  - intros state [-> | ->]; unfold vlc_restorecancel; now rewrite Hself.
  - intros cmd. unfold vlc_control_cancel. now rewrite Hself.
Qed.

Lemma cancellation_without_record_witness :
  vlc_testcancel Examples.reentrant_proc 3 Examples.main_thread_world
  = Returned Examples.main_thread_world
  /\ vlc_savecancel Examples.main_thread_world
     = (0, Examples.main_thread_world)
  /\ (forall state, state = 0 \/ state = 1 ->
        vlc_restorecancel state Examples.main_thread_world
        = Returned Examples.main_thread_world)
  /\ forall cmd, vlc_control_cancel cmd Examples.main_thread_world
                 = Returned Examples.main_thread_world.
Proof.
  apply (cancellation_without_record Examples.reentrant_proc 3
           Examples.main_thread_world).
  reflexivity.
Defined.

(** *** [vlc_testcancel] *)

(** The store [th->killable = true] made after the two guards writes the
    value the flag already has. *)
Lemma testcancel_guard_store w th :
  self w = Some th -> killable th = true ->
  set_self (Some (set_killable true th)) w = w.
Proof.
  destruct w as [s mem], th as [i ka kd cl en da wa]; cbn.
  intros -> ->. reflexivity.
Qed.

(** C3 fails on the code.  On the thread [Examples.killed_thread]
    ([killable] and [killed] both true, one cleanup handler): with a handler
    that only stores to memory, the thread exits with [killable] still true
    in its record, not false; and with a handler that calls
    [vlc_testcancel], the nested call passes the guards again and re-enters
    the cleanup at every depth, so that the call never completes. *)
Theorem vlc_testcancel_reenters_cleanup :
  vlc_testcancel Examples.marking_proc 0 Examples.killed_world
  = Exited {| self := Some (set_data 0 Examples.killed_thread);
              memory := {[ 0 := 1 ]} |}
  /\ killable (set_data 0 Examples.killed_thread) = true
  /\ forall depth,
       vlc_testcancel Examples.reentrant_proc depth Examples.killed_world
       = Pending.
Proof.
  split; [vm_compute; reflexivity|]. split; [reflexivity|].
  induction depth as [|d IH].
  - reflexivity.
  - cbn [vlc_testcancel]. unfold testcancel_body.
    cbn [vlc_thread_self self Examples.killed_world killable killed
         Examples.killed_thread negb cleaners].
    rewrite (testcancel_guard_store Examples.killed_world
               Examples.killed_thread eq_refl eq_refl).
    cbn [run_cleaners proc cleanup_data Examples.reentrant_proc].
    unfold Examples.reentrant_proc at 1.
    rewrite IH. reflexivity.
Qed.

(** *** Static mutexes *)

Section StaticMutex.

Variable cleanup_proc :
  Z -> (world -> outcome world) -> Z -> world -> outcome world.
Variable depth : nat.

Lemma testcancel_masked w :
  masked w -> vlc_testcancel cleanup_proc depth w = Returned w.
Proof.
  unfold masked. intros Hm.
  destruct depth; cbn; unfold testcancel_body, vlc_thread_self;
    destruct (self w) as [th|]; try reflexivity; now rewrite Hm.
Qed.

Lemma deliver_cancel_masked e w : masked w -> masked (deliver_cancel e w).
Proof.
  unfold masked, deliver_cancel.
  destruct (self w) as [th|] eqn:Hs; [|now rewrite Hs].
  destruct (cancel_arrives e); cbn; [tauto | now rewrite Hs].
Qed.

Lemma deliver_cancel_frame e w :
  memory (deliver_cancel e w) = memory w
  /\ set_killed true <$> self (deliver_cancel e w) = set_killed true <$> self w
  /\ forall th, self w = Some th -> killed th = true ->
       self (deliver_cancel e w) = Some th.
Proof.
  unfold deliver_cancel.
  destruct (self w) as [th|] eqn:Hs; [|rewrite Hs; repeat split; discriminate].
  destruct (cancel_arrives e); cbn; rewrite ?Hs.
  - repeat split. intros th' [= <-] Hk.
    destruct th as [i ka kd cl en da wa]; cbn in *. now subst.
  - repeat split. congruence.
Qed.

Lemma cond_wait_masked e w :
  masked w -> vlc_cond_wait cleanup_proc depth e w = Returned (deliver_cancel e w).
Proof.
  intros Hm. unfold vlc_cond_wait.
  rewrite (testcancel_masked w Hm).
  apply testcancel_masked, deliver_cancel_masked, Hm.
Qed.

(** The wait loop of a thread whose cancellation is disabled: it ends with
    the mutex seen free, or is still waiting when the schedule runs out; it
    never exits the thread. *)
Lemma static_wait_loop_masked sched :
  forall mtx w, masked w ->
  match static_wait_loop cleanup_proc depth sched mtx w with
  | Returned (mtx', w') =>
      locked mtx' = false
      /\ contention mtx' = contention mtx
      /\ memory w' = memory w
      /\ masked w'
      /\ set_killed true <$> self w' = set_killed true <$> self w
      /\ forall th, self w = Some th -> killed th = true -> self w' = Some th
  | Pending =>
      locked mtx = true /\ Forall (fun e => still_locked e = true) sched
  | _ => False
  end.
Proof.
  induction sched as [|e sched' IH]; intros mtx w Hm.
  - cbn. destruct (locked mtx) eqn:Hl; [split; [reflexivity | constructor]|].
    repeat split; auto.
  - cbn [static_wait_loop]. destruct (locked mtx) eqn:Hl.
    + rewrite (cond_wait_masked e w Hm).
      specialize (IH (set_locked (still_locked e)
                        (add_contention (-1) (add_contention 1 mtx)))
                     (deliver_cancel e w) (deliver_cancel_masked e w Hm)).
      destruct (deliver_cancel_frame e w) as (Hmem & Hrec & Hkeep).
      destruct (static_wait_loop _ _ _ _ _) as [[mtx' w']| | | |]; try exact IH.
      * destruct IH as (H1 & H2 & H3 & H4 & H5 & H6).
        cbn in H2. repeat split; eauto; try congruence; lia.
      * destruct IH as [Hlk Hall]. cbn in Hlk.
        split; [reflexivity|]. constructor; assumption.
    + repeat split; auto.
Qed.

End StaticMutex.

(** C4, as the code has it.  [vlc_mutex_lock] on a static mutex is not a
    cancellation point: it disables cancellation for the whole acquisition.
    Whatever the handlers, however often the thread sleeps and whenever a
    [vlc_cancel] reaches it, the call never terminates the thread; when it
    returns the mutex is locked, its contention count and the memory are as
    before, and the thread's record is as before (a kill that arrived in the
    meantime apart), so a pending kill is still pending and no cleanup
    handler has run; and it does return once the mutex is seen free. *)
Theorem static_mutex_lock_defers_cancellation
    (cleanup_proc : Z -> (world -> outcome world) -> Z -> world -> outcome world)
    (depth : nat) (sched : list wakeup) (mtx : vlc_mutex_t) (w : world) :
  dynamic mtx = false ->
  (forall x, vlc_mutex_lock cleanup_proc depth sched mtx w <> Exited x)
  /\ (forall mtx' w',
        vlc_mutex_lock cleanup_proc depth sched mtx w = Returned (mtx', w') ->
        locked mtx' = true
        /\ contention mtx' = contention mtx
        /\ memory w' = memory w
        /\ set_killed true <$> self w' = set_killed true <$> self w
        /\ forall th, self w = Some th -> killed th = true -> self w' = Some th)
  /\ (locked mtx = false \/ Exists (fun e => still_locked e = false) sched ->
      exists mtx' w',
        vlc_mutex_lock cleanup_proc depth sched mtx w = Returned (mtx', w')).
Proof.
  intros Hdyn. unfold vlc_mutex_lock. rewrite Hdyn.
  destruct (savecancel_spec w) as (Hpair & Hst & Hself & Hmem).
  destruct (vlc_savecancel w) as [canc w1]. cbn [fst snd] in *.
  assert (Hm1 : masked w1).
  { unfold masked. rewrite Hself. destruct (self w); cbn; auto. }
  pose proof (static_wait_loop_masked cleanup_proc depth sched mtx w1 Hm1) as HL.
  destruct (static_wait_loop _ _ _ _ _) as [[mtx2 w2]| | | |];
    try contradiction.
  - destruct HL as (Hfree & Hcont & Hmem2 & Hm2 & Hrec & Hkeep).
    assert (Hcanc : canc = 0 \/ canc = 1).
    { rewrite Hst. destruct (self w) as [th|]; [destruct (killable th)|]; auto. }
    assert (Hres : exists w3, vlc_restorecancel canc w2 = Returned w3
              /\ memory w3 = memory w
              /\ set_killed true <$> self w3 = set_killed true <$> self w
              /\ forall th, self w = Some th -> killed th = true ->
                   self w3 = Some th).
    { unfold vlc_restorecancel, vlc_thread_self.
      replace (negb ((canc =? 0) || (canc =? 1))) with false
        by (destruct Hcanc as [Hc|Hc]; rewrite Hc; reflexivity).
      unfold masked in Hm2. rewrite Hself in Hrec, Hkeep.
      destruct (self w2) as [th2|] eqn:Hs2.
      - rewrite Hm2. eexists. split; [reflexivity|]. cbn.
        split; [congruence|].
        destruct (self w) as [th|] eqn:Hs; cbn in Hrec; [|discriminate].
        injection Hrec as Hrec.
        assert (Hk : negb (canc =? 0) = killable th)
          by (rewrite Hst; destruct (killable th); reflexivity).
        rewrite Hk. split.
        + f_equal. destruct th, th2; cbn in *. subst. reflexivity.
        + intros th' [= <-] Hkd.
          specialize (Hkeep (set_killable false th) eq_refl Hkd).
          injection Hkeep as ->. destruct th; reflexivity.
      - eexists. split; [reflexivity|].
        split; [congruence|].
        destruct (self w) as [th|] eqn:Hs; cbn in Hrec; [discriminate|].
        rewrite Hs2. split; [reflexivity | discriminate]. }
    destruct Hres as (w3 & -> & Hmem3 & Hrec3 & Hkeep3).
    split; [discriminate|]. split.
    + intros mtx' w' [= <- <-]. cbn. repeat split; auto.
    + intros _. eauto.
  - destruct HL as [Hlk Hall].
    split; [discriminate|]. split; [discriminate|].
    intros [Hfree | Hex]; [congruence|].
    exfalso. apply Exists_exists in Hex as (e & Hin & He).
    rewrite Forall_forall in Hall. specialize (Hall e Hin). congruence.
Qed.

Lemma static_mutex_lock_defers_cancellation_witness :
  exists mtx' w',
    vlc_mutex_lock Examples.marking_proc 1 Examples.released_after_one_wait
      Examples.held_static_mutex Examples.killed_world
    = Returned (mtx', w').
Proof.
  apply (static_mutex_lock_defers_cancellation Examples.marking_proc 1
           Examples.released_after_one_wait Examples.held_static_mutex
           Examples.killed_world eq_refl).
  right. constructor. reflexivity.
Defined.

(** C4, as stated, fails.  The thread [Examples.killed_thread] is
    cancellable and has a kill pending; it locks a static mutex held by
    another thread and sleeps once in the wait loop.  The call returns with
    the mutex acquired: the thread has not exited and its cleanup handler
    has not run (the memory is untouched). *)
Lemma static_mutex_lock_is_no_cancellation_point :
  killable Examples.killed_thread = true
  /\ killed Examples.killed_thread = true
  /\ vlc_mutex_lock Examples.marking_proc 1 Examples.released_after_one_wait
       Examples.held_static_mutex Examples.killed_world
     = Returned ({| dynamic := false; locked := true; contention := 0 |},
                 Examples.killed_world).
Proof. repeat split. Qed.

End CancelFacts.

(** ** Thread-specific variables *)

Section TlsFacts.

Import Tls.

Section TlsAccess.

Variables TlsGetValue_error TlsSetValue_error : Z -> bool -> Z -> Z.

Lemma threadvar_get_spec key s :
  vlc_threadvar_get TlsGetValue_error key s = (default 0 (tls s !! id key), s).
Proof.
  unfold vlc_threadvar_get, TlsGetValue. destruct s as [t e]; cbn.
  destruct (t !! id key); reflexivity.
Qed.

Lemma threadvar_set_null key s v :
  tls s !! id key = Some v ->
  tls (vlc_threadvar_set TlsSetValue_error key 0 s).2 = <[id key := 0]> (tls s).
Proof.
  unfold vlc_threadvar_set, TlsSetValue. intros ->. reflexivity.
Qed.

(** The scan changes nothing, and finds the first dirty slot. *)
Lemma scan_spec w keys :
  scan TlsGetValue_error keys (os w)
  = (match List.find (dirty w) keys with
     | Some key => Some (key, slot_value w (id key))
     | None => None
     end, os w).
Proof.
  induction keys as [|key prev IH]; [reflexivity|].
  cbn [scan List.find]. rewrite threadvar_get_spec.
  unfold dirty at 1, slot_value at 1.
  destruct (negb _ && negb _); [reflexivity | exact IH].
Qed.

End TlsAccess.

(** C8, as the code has it.  [vlc_threadvar_get] leaves the last-error
    status as it found it, whatever the storage access did to it, and
    returns the slot's value; [vlc_threadvar_set] leaves the status as it
    found it whenever it returns 0. *)
Theorem threadvar_access_last_error
    (TlsGetValue_error TlsSetValue_error : Z -> bool -> Z -> Z)
    (key : vlc_threadvar) (s : os_state) :
  (vlc_threadvar_get TlsGetValue_error key s).2 = s
  /\ (vlc_threadvar_get TlsGetValue_error key s).1
     = default 0 (tls s !! id key)
  /\ forall value,
       (vlc_threadvar_set TlsSetValue_error key value s).1 = 0 ->
       last_error (vlc_threadvar_set TlsSetValue_error key value s).2
       = last_error s.
Proof.
  rewrite threadvar_get_spec. split; [reflexivity|]. split; [reflexivity|].
  unfold vlc_threadvar_set, TlsSetValue.
  destruct (tls s !! id key) as [v|]; cbn; [discriminate | reflexivity].
Qed.

Lemma threadvar_access_last_error_witness :
  last_error
    (vlc_threadvar_set (fun _ _ _ => 0) {| id := 5; destroy := 0 |} 42
       {| tls := ∅; last_error := 87 |}).2 = 87.
Proof.
  apply (threadvar_access_last_error (fun _ _ _ => 0) (fun _ _ _ => 0)
           {| id := 5; destroy := 0 |} {| tls := ∅; last_error := 87 |}).
  reflexivity.
Defined.

(** C8, as stated, fails for [vlc_threadvar_set].  The index 5 is allocated,
    the status is 87, and the storage access sets the status to 0:
    [TlsSetValue] succeeds and returns non-zero, [vlc_threadvar_set] turns
    that into [ENOMEM] and does not restore the status, which is 0 after the
    call. *)
Lemma threadvar_set_loses_last_error :
  vlc_threadvar_set (fun _ _ _ => 0) {| id := 5; destroy := 0 |} 42
    {| tls := {[ 5 := 0 ]}; last_error := 87 |}
  = (ENOMEM, {| tls := <[ 5 := 42 ]> {[ 5 := 0 ]}; last_error := 0 |})
  /\ last_error
       (vlc_threadvar_set (fun _ _ _ => 0) {| id := 5; destroy := 0 |} 42
          {| tls := {[ 5 := 0 ]}; last_error := 87 |}).2 <> 87.
Proof. split; [reflexivity | vm_compute; discriminate]. Qed.

(** *** The scan at thread exit *)

Lemma filter_length_le {A} (f g : A -> bool) (l : list A) :
  (forall x, In x l -> g x = true -> f x = true) ->
  (length (List.filter g l) <= length (List.filter f l))%nat.
Proof.
  induction l as [|a l IH]; intros Hfg; [reflexivity|].
  cbn. specialize (IH (fun x Hx => Hfg x (or_intror Hx))).
  destruct (g a) eqn:Hg.
  - rewrite (Hfg a (or_introl eq_refl) Hg). cbn. lia.
  - destruct (f a); cbn; lia.
Qed.

Lemma filter_all {A} (l : list A) : List.filter (fun _ => true) l = l.
Proof. induction l as [|a l IH]; cbn; congruence. Qed.

Lemma filter_length_lt {A} (f g : A -> bool) (l : list A) (x : A) :
  (forall y, In y l -> g y = true -> f y = true) ->
  In x l -> f x = true -> g x = false ->
  (length (List.filter g l) < length (List.filter f l))%nat.
Proof.
  induction l as [|a l IH]; intros Hfg Hin Hf Hg; [destruct Hin|].
  cbn. destruct Hin as [->|Hin].
  - rewrite Hf, Hg. cbn.
    pose proof (filter_length_le f g l (fun y Hy => Hfg y (or_intror Hy))). lia.
  - specialize (IH (fun y Hy => Hfg y (or_intror Hy)) Hin Hf Hg).
    destruct (g a) eqn:Hga.
    + rewrite (Hfg a (or_introl eq_refl) Hga). cbn. lia.
    + destruct (f a); cbn; lia.
Qed.

Section ExitScan.

Variables TlsGetValue_error TlsSetValue_error : Z -> bool -> Z -> Z.
Variable destroy_proc : Z -> Z -> tls_world -> tls_world.

Local Abbreviation cleanup :=
  (vlc_threadvars_cleanup TlsGetValue_error TlsSetValue_error destroy_proc).

(** The world a destructor starts in. *)
Local Abbreviation reset key w :=
  (set_os (vlc_threadvar_set TlsSetValue_error key 0 (os w)).2 w).

(** One pass from [retry:]. *)
Lemma cleanup_round n w :
  cleanup (S n) w
  = match List.find (dirty w) (vlc_threadvar_last w) with
    | None => (true, w, [])
    | Some key =>
        let value := slot_value w (id key) in
        let '(finished, w', calls) :=
          cleanup n (destroy_proc (destroy key) value (reset key w)) in
        (finished, w',
         {| call_key := key; call_value := value; call_world := reset key w |}
         :: calls)
    end.
Proof.
  cbn [vlc_threadvars_cleanup]. rewrite scan_spec.
  destruct (List.find _ _) as [key|].
  - destruct (vlc_threadvar_set _ _ _ _) as [r s2]. reflexivity.
  - destruct w; reflexivity.
Qed.

Lemma dirty_true w key :
  dirty w key = true ->
  slot_value w (id key) <> 0 /\ destroy key <> 0
  /\ tls (os w) !! id key = Some (slot_value w (id key)).
Proof.
  unfold dirty, slot_value. intros H.
  apply andb_true_iff in H as [H1 H2].
  apply negb_true_iff, Z.eqb_neq in H1, H2.
  destruct (tls (os w) !! id key); cbn in *; [auto | congruence].
Qed.

Lemma reset_slot_value w key idx :
  dirty w key = true ->
  slot_value (reset key w) idx
  = if decide (id key = idx) then 0 else slot_value w idx.
Proof.
  intros Hd. apply dirty_true in Hd as (_ & _ & Hv).
  unfold slot_value at 1. cbn [set_os os].
  rewrite (threadvar_set_null _ _ _ _ Hv), lookup_insert.
  case_decide; reflexivity.
Qed.

Lemma reset_keeps_list w key :
  vlc_threadvar_last (reset key w) = vlc_threadvar_last w.
Proof. reflexivity. Qed.

(** Every destructor is invoked with the non-null value its slot held, in a
    world where that slot reads null. *)
Lemma cleanup_calls rounds :
  forall w,
  Forall (fun c =>
            call_value c <> 0 /\ destroy (call_key c) <> 0
            /\ slot_value (call_world c) (id (call_key c)) = 0)
         (cleanup rounds w).2.
Proof.
  induction rounds as [|n IH]; intros w; [constructor|].
  rewrite cleanup_round.
  destruct (List.find _ _) as [key|] eqn:Hfind; [|constructor].
  apply find_some in Hfind as [Hin Hd].
  specialize (IH (destroy_proc (destroy key) (slot_value w (id key))
                    (reset key w))).
  cbn zeta. destruct (cleanup n _) as [[fin w'] calls]. cbn [snd] in *.
  constructor; [|exact IH]. cbn [call_key call_value call_world].
  pose proof (dirty_true _ _ Hd) as (Hv & Hdes & _).
  repeat split; auto.
  rewrite reset_slot_value by exact Hd. now rewrite decide_True.
Qed.

(** The first slot of the list that holds a value and has a destructor. *)
Lemma find_first_dirty w l1 key l2 :
  vlc_threadvar_last w = l1 ++ key :: l2 ->
  Forall (fun k => dirty w k = false) l1 -> dirty w key = true ->
  List.find (dirty w) (vlc_threadvar_last w) = Some key.
Proof.
  intros -> Hl1 Hd. induction l1 as [|k l1 IH]; cbn.
  - now rewrite Hd.
  - apply Forall_cons in Hl1 as [Hk Hl1]. rewrite Hk. exact (IH Hl1).
Qed.

Lemma find_no_dirty w :
  (forall key, key ∈ vlc_threadvar_last w -> dirty w key = false) ->
  List.find (dirty w) (vlc_threadvar_last w) = None.
Proof.
  intros Hall. destruct (List.find _ _) as [key|] eqn:Hfind; [|reflexivity].
  apply find_some in Hfind as [Hin Hd].
  rewrite (Hall key) in Hd by now apply list_elem_of_In. discriminate.
Qed.

(** When the scan ends, no slot of the list is left with a non-null value
    and a destructor. *)
Lemma cleanup_finished rounds :
  forall w, (cleanup rounds w).1.1 = true ->
  forall key, key ∈ vlc_threadvar_last (cleanup rounds w).1.2 ->
    slot_value (cleanup rounds w).1.2 (id key) = 0 \/ destroy key = 0.
Proof.
  induction rounds as [|n IH]; intros w; [discriminate|].
  rewrite cleanup_round.
  destruct (List.find _ _) as [k|] eqn:Hfind.
  - specialize (IH (destroy_proc (destroy k) (slot_value w (id k))
                      (reset k w))).
    cbn zeta. destruct (cleanup n _) as [[fin w'] calls]. exact IH.
  - cbn. intros _ key Hin. apply list_elem_of_In in Hin.
    pose proof (find_none _ _ Hfind key Hin) as Hd.
    unfold dirty in Hd. apply andb_false_iff in Hd as [Hd|Hd];
      apply negb_false_iff, Z.eqb_eq in Hd; auto.
Qed.

Hypothesis Hkeep : destructors_keep_null destroy_proc.

(** A slot that reads null keeps reading null through the rest of the
    scan. *)
Lemma cleanup_null_stays rounds idx :
  forall w, slot_value w idx = 0 ->
  Forall (fun c => slot_value (call_world c) idx = 0) (cleanup rounds w).2
  /\ slot_value (cleanup rounds w).1.2 idx = 0.
Proof.
  induction rounds as [|n IH]; intros w Hnull; [split; [constructor | exact Hnull]|].
  rewrite cleanup_round.
  destruct (List.find _ _) as [key|] eqn:Hfind; [|split; [constructor | exact Hnull]].
  apply find_some in Hfind as [Hin Hd].
  assert (Hr : slot_value (reset key w) idx = 0).
  { rewrite reset_slot_value by exact Hd. case_decide; auto. }
  specialize (IH (destroy_proc (destroy key) (slot_value w (id key))
                    (reset key w))
                 (proj2 (Hkeep _ _ _) idx Hr)).
  cbn zeta. destruct (cleanup n _) as [[fin w'] calls]. cbn [fst snd] in *.
  destruct IH as [IH1 IH2]. split; [constructor; assumption | exact IH2].
Qed.

(** A destructor that runs later reads null from the slot of every
    destructor that ran before it. *)
Lemma cleanup_earlier_slots_null rounds :
  forall w (i j : nat) c1 c2,
  (i < j)%nat ->
  (cleanup rounds w).2 !! i = Some c1 ->
  (cleanup rounds w).2 !! j = Some c2 ->
  slot_value (call_world c2) (id (call_key c1)) = 0.
Proof.
  induction rounds as [|n IH]; intros w i j c1 c2 Hij; [discriminate|].
  rewrite cleanup_round.
  destruct (List.find _ _) as [key|] eqn:Hfind; [|discriminate].
  apply find_some in Hfind as [Hin Hd].
  assert (Hr : slot_value (destroy_proc (destroy key) (slot_value w (id key))
                             (reset key w)) (id key) = 0).
  { apply Hkeep. rewrite reset_slot_value by exact Hd. now rewrite decide_True. }
  pose proof (cleanup_null_stays n (id key) _ Hr) as [Hall _].
  specialize (IH (destroy_proc (destroy key) (slot_value w (id key))
                    (reset key w))).
  cbn zeta. destruct (cleanup n _) as [[fin w'] calls]. cbn [fst snd] in *.
  destruct j as [|j]; [lia|]. destruct i as [|i]; cbn.
  - intros [= <-] Hj. cbn [call_key].
    rewrite Forall_lookup in Hall. exact (Hall j c2 Hj).
  - intros Hi Hj. apply (IH i j c1 c2); [lia | assumption | assumption].
Qed.

(** The scan ends: each pass leaves fewer dirty slots. *)
Lemma cleanup_terminates rounds :
  forall w,
  (length (List.filter (dirty w) (vlc_threadvar_last w)) < rounds)%nat ->
  (cleanup rounds w).1.1 = true.
Proof.
  induction rounds as [|n IH]; intros w Hlen; [lia|].
  rewrite cleanup_round.
  destruct (List.find _ _) as [key|] eqn:Hfind; [|reflexivity].
  apply find_some in Hfind as [Hin Hd].
  set (w3 := destroy_proc (destroy key) (slot_value w (id key)) (reset key w)).
  assert (Hlist : vlc_threadvar_last w3 = vlc_threadvar_last w).
  { unfold w3. now rewrite (proj1 (Hkeep _ _ _)). }
  assert (Hsub : forall k, dirty w3 k = true -> dirty w k = true).
  { intros k Hk. unfold dirty in *.
    apply andb_true_iff in Hk as [Hk1 Hk2]. rewrite Hk2, andb_true_r.
    apply negb_true_iff, Z.eqb_neq in Hk1. apply negb_true_iff, Z.eqb_neq.
    intros Hz. apply Hk1. unfold w3. apply Hkeep.
    rewrite reset_slot_value by (unfold dirty; exact Hd).
    case_decide; auto. }
  assert (Hkey : dirty w3 key = false).
  { unfold dirty. replace (slot_value w3 (id key)) with 0; [reflexivity|].
    symmetry. unfold w3. apply Hkeep.
    rewrite reset_slot_value by exact Hd. now rewrite decide_True. }
  assert (Hlt : (length (List.filter (dirty w3) (vlc_threadvar_last w3))
                 < length (List.filter (dirty w) (vlc_threadvar_last w)))%nat).
  { rewrite Hlist. apply (filter_length_lt _ _ _ key); auto. }
  specialize (IH w3 ltac:(lia)).
  cbn zeta. fold w3. destruct (cleanup n w3) as [[fin w'] calls]. exact IH.
Qed.

End ExitScan.


Lemma free_proc_keeps_null : destructors_keep_null Examples.free_proc.
Proof. intros f v w. split; [reflexivity | intros idx H; exact H]. Qed.



(** The scan of [Examples.exiting_thread]: the destructor of slot 4 runs
    first, then that of slot 3; slot 9 keeps its value. *)
Example exiting_thread_scan :
  let result :=
    vlc_threadvars_cleanup (fun _ _ _ => 0) (fun _ _ _ => 0)
      Examples.free_proc 4 Examples.exiting_thread in
  map (fun c => (id (call_key c), call_value c)) result.2
  = [(4, 400); (3, 300)]
  /\ map (slot_value result.1.2) [3; 4; 9] = [0; 0; 900]
  /\ heap result.1.2 = ∅.
Proof. vm_compute. repeat split. Qed.

End TlsFacts.

(** ** Clock *)

Section ClockFacts.

Import Clock.

Lemma clock_source_eqb_eq a b : clock_source_eqb a b = true <-> a = b.
Proof. destruct a, b; cbn; split; congruence. Qed.

(** A value that fits 64 bits is its own conversion. *)
Lemma to_mtime_id z : - 2 ^ 63 <= z < 2 ^ 63 -> to_mtime z = z.
Proof.
  intros Hz. unfold to_mtime.
  rewrite Z.mod_small by (change (2 ^ 64) with (2 * 2 ^ 63); lia). lia.
Qed.

Lemma to_mtime_small z : 0 <= z < 2 ^ 63 -> to_mtime z = z.
Proof. intros Hz. apply to_mtime_id. lia. Qed.


(** [SelectClockSource] never installs [mdate_default], and returns at once
    when another source is installed. *)
Lemma SelectClockSource_installs p var st st' :
  SelectClockSource p var st = Returned st' ->
  mdate_selected st' <> mdate_default.
Proof.
  unfold SelectClockSource.
  destruct (clock_source_eqb (mdate_selected st) mdate_default) eqn:Hd; cbn.
  - destruct (clock_used_early st); [discriminate|].
    repeat match goal with
           | |- context [if ?b then _ else _] => destruct b
           | |- context [match ?o with Some _ => _ | None => _ end] =>
               destruct o
           end; intros [= <-]; discriminate.
  - intros [= <-] Heq. apply clock_source_eqb_eq in Heq. congruence.
Qed.

Lemma SelectClockSource_selected p var st :
  mdate_selected st <> mdate_default ->
  SelectClockSource p var st = Returned st.
Proof.
  intros Hsel. unfold SelectClockSource.
  destruct (clock_source_eqb (mdate_selected st) mdate_default) eqn:Hd;
    [apply clock_source_eqb_eq in Hd; contradiction | reflexivity].
Qed.

Lemma mdate_keeps_selection p r st t st' :
  mdate p r st = Returned (t, st') -> mdate_selected st' = mdate_selected st.
Proof.
  unfold mdate, with_state, read_interrupt, read_tick, read_multimedia,
    read_perf, read_wall.
  destruct (mdate_selected st) eqn:Hsel;
    repeat match goal with
           | |- context [if ?b then _ else _] => destruct b
           | |- context [match ?o with Some _ => _ | None => _ end] =>
               destruct o
           end; intros [= <- <-]; cbn; congruence.
Qed.

Lemma run_calls_keep_selection p cs :
  forall st st', mdate_selected st <> mdate_default ->
  run_calls p cs st = Returned st' ->
  mdate_selected st' = mdate_selected st.
Proof.
  induction cs as [|c cs IH]; intros st st' Hsel; cbn.
  - now intros [= <-].
  - destruct c as [var|r]; cbn.
    + rewrite SelectClockSource_selected by exact Hsel. now apply IH.
    + destruct (mdate p r st) as [[t st1]| [t st1] | | |] eqn:Hm;
        try discriminate.
      apply mdate_keeps_selection in Hm. intros Hrun.
      rewrite <- Hm. apply IH; [congruence | exact Hrun].
Qed.

(** C6.  Once a call of [SelectClockSource] has returned, the selected
    source is not [mdate_default]; every later call of [SelectClockSource],
    whatever the configured name, returns and leaves the clock's state as it
    is; and after any sequence of later [SelectClockSource] and [mdate] calls
    the selected source is still the same.  While [mdate_default] is still
    selected, a returning [mdate] marks the clock as used early and keeps
    [mdate_default] selected, and from then on [SelectClockSource] fails its
    assertion instead of installing a source. *)
Theorem SelectClockSource_once (p : platform) :
  (forall var st st',
     SelectClockSource p var st = Returned st' ->
     mdate_selected st' <> mdate_default
     /\ (forall var', SelectClockSource p var' st' = Returned st')
     /\ (forall cs st'',
           run_calls p cs st' = Returned st'' ->
           mdate_selected st'' = mdate_selected st'))
  /\ (forall r st t early,
        mdate_selected st = mdate_default ->
        mdate p r st = Returned (t, early) ->
        mdate_selected early = mdate_default
        /\ clock_used_early early = true
        /\ forall var', SelectClockSource p var' early = AssertFailed).
Proof.
  split.
  - intros var st st' Hret.
    pose proof (SelectClockSource_installs _ _ _ _ Hret) as Hsel.
    split; [exact Hsel|]. split.
    + intros var'. now apply SelectClockSource_selected.
    + intros cs st''. now apply run_calls_keep_selection.
  - intros r st t early Hdef Hm.
    pose proof (mdate_keeps_selection _ _ _ _ _ Hm) as Hk.
    assert (Hearly : clock_used_early early = true).
    { revert Hm. unfold mdate. rewrite Hdef.
      destruct (clock_used_early st) eqn:Hu.
      - unfold with_state, read_perf.
        destruct (performance_counter r); intros [= <- <-]; exact Hu.
      - destruct (QueryPerformanceFrequency p); [|discriminate].
        unfold with_state, read_perf.
        destruct (performance_counter r); intros [= <- <-]; reflexivity. }
    split; [congruence|]. split; [exact Hearly|].
    intros var'. unfold SelectClockSource.
    rewrite Hk, Hdef, Hearly. reflexivity.
Qed.

Lemma SelectClockSource_once_witness :
  (forall var',
     SelectClockSource Examples.desktop var'
       {| mdate_selected := mdate_wall; clock_used_early := false;
          clk_perf_freq := 0 |}
     = Returned {| mdate_selected := mdate_wall; clock_used_early := false;
                   clk_perf_freq := 0 |})
  /\ (forall var',
        SelectClockSource Examples.desktop var'
          {| mdate_selected := mdate_default; clock_used_early := true;
             clk_perf_freq := 10000000 |}
        = AssertFailed).
Proof.
  split.
  - apply (proj1 (SelectClockSource_once Examples.desktop) (Some "wall"%string)
             initial_clock). reflexivity.
  - apply (proj2 (SelectClockSource_once Examples.desktop)
             Examples.one_second initial_clock 1000000).
    + reflexivity.
    + reflexivity.
Defined.

End ClockFacts.

(** ** Timers *)

Section TimerFacts.

Import Timer.

Lemma set_handle_same t : set_handle (handle t) t = t.
Proof. destruct t; reflexivity. Qed.

(** Without a native timer facility ([VLC_WINSTORE_APP]) the queue stays
    empty. *)
Lemma winstore_queue_empty st :
  reachable true st -> queue st = ∅.
Proof.
  induction 1 as [|st st' Hr IH Hstep]; [reflexivity|].
  destruct Hstep as [p f d st Hp | now created timer ab v i st t st' ev Ht Hfresh Hs
                    | timer st st' Hd].
  - unfold vlc_timer_create. destruct (p =? 0); exact IH.
  - revert Hs. unfold vlc_timer_schedule, disarm. rewrite Ht.
    destruct (handle t =? INVALID_HANDLE_VALUE), (v =? 0), ab;
      try discriminate; intros [= <- <-]; exact IH.
  - revert Hd. unfold vlc_timer_destroy.
    destruct (timers st !! timer); [|discriminate].
    intros [= <-]. exact IH.
Qed.

(** After the first statement of [vlc_timer_schedule] the record is unarmed
    and no native timer of it is left. *)
Lemma disarm_owned timer t st :
  owned st -> timers st !! timer = Some t ->
  let st1 := (disarm false timer t st).1 in
  owned st1
  /\ timers st1 !! timer = Some (set_handle INVALID_HANDLE_VALUE t)
  /\ (forall a, a <> timer -> timers st1 !! a = timers st !! a)
  /\ (forall h nt, queue st1 !! h = Some nt -> callback_arg nt <> timer)
  /\ queue st1 = (if handle t =? INVALID_HANDLE_VALUE then queue st
                  else delete (handle t) (queue st)).
Proof.
  intros [Hinv Hown] Ht. unfold disarm, owned.
  destruct (Z.eqb_spec (handle t) INVALID_HANDLE_VALUE) as [Heq|Hne];
    cbn [fst timers queue].
  - split; [split; assumption|]. split; [rewrite <- Heq, set_handle_same; exact Ht|].
    split; [reflexivity|]. split; [|reflexivity].
    intros h nt Hq Harg. destruct (Hown h nt Hq) as (t' & Ht' & Hh).
    rewrite Harg, Ht in Ht'. injection Ht' as <-. congruence.
  - split; [|split; [apply lookup_insert_eq|split; [|split; [|reflexivity]]]].
    + split; [rewrite lookup_delete_ne by congruence; exact Hinv|].
      intros h nt Hq. apply lookup_delete_Some in Hq as [Hh Hq].
      destruct (Hown h nt Hq) as (t' & Ht' & Hh').
      destruct (decide (callback_arg nt = timer)) as [Harg|Harg].
      * rewrite Harg, Ht in Ht'. injection Ht' as <-. congruence.
      * exists t'. rewrite lookup_insert_ne by congruence. auto.
    + intros a Ha. apply lookup_insert_ne. congruence.
    + intros h nt Hq Harg. apply lookup_delete_Some in Hq as [Hh Hq].
      destruct (Hown h nt Hq) as (t' & Ht' & Hh').
      rewrite Harg, Ht in Ht'. injection Ht' as <-. congruence.
Qed.

Lemma step_owned st st' : owned st -> step false st st' -> owned st'.
Proof.
  intros Hown Hstep.
  destruct Hstep as [p f d st Hp | now created timer ab v i st t st' ev Ht Hfresh Hs
                    | timer st st' Hd].
  - unfold vlc_timer_create. destruct (p =? 0); [exact Hown|]. cbn.
    destruct Hown as [Hinv Hown]. split; [exact Hinv|].
    intros h nt Hq. cbn in Hq. destruct (Hown h nt Hq) as (t & Ht & Hh).
    exists t. cbn. rewrite lookup_insert_ne by congruence. auto.
  - pose proof (disarm_owned timer t st Hown Ht) as (Hown1 & Ht1 & Hoth & Hgone & _).
    revert Hs Hfresh. unfold vlc_timer_schedule. rewrite Ht.
    destruct (disarm false timer t st) as [st1 ev1]. cbn [fst] in *.
    destruct (v =? 0); [intros [= <- <-] _; exact Hown1|].
    destruct (if ab then _ else _) as [value1 ev2].
    destruct created as [h|]; [|discriminate].
    intros [= <- <-] Hfresh. destruct (Hfresh h eq_refl) as [Hhv Hhq].
    destruct Hown1 as [Hinv1 Hown1]. split; cbn.
    + rewrite lookup_insert_ne by congruence. exact Hinv1.
    + intros h' nt'. rewrite lookup_insert. case_decide as Hh.
      * intros [= <-]. cbn. rewrite lookup_insert_eq. eexists; split; [reflexivity|].
        subst h'. reflexivity.
      * intros Hq. destruct (Hown1 h' nt' Hq) as (t' & Ht' & Hh').
        exists t'. rewrite lookup_insert_ne by (apply not_eq_sym, (Hgone h' nt' Hq)).
        auto.
  - revert Hd. unfold vlc_timer_destroy.
    destruct (timers st !! timer) as [t|] eqn:Ht; [|discriminate].
    intros [= <-]. destruct Hown as [Hinv Hown]. cbn.
    destruct (Z.eqb_spec (handle t) INVALID_HANDLE_VALUE) as [Heq|Hne]; cbn.
    + split; [exact Hinv|]. intros h nt Hq. cbn in Hq |- *.
      destruct (Hown h nt Hq) as (t' & Ht' & Hh').
      destruct (decide (callback_arg nt = timer)) as [Harg|Harg].
      * rewrite Harg, Ht in Ht'. injection Ht' as <-. congruence.
      * exists t'. rewrite lookup_delete_ne by congruence. auto.
    + split; [cbn; rewrite lookup_delete_ne by congruence; exact Hinv|].
      intros h nt Hq. cbn in Hq |- *.
      apply lookup_delete_Some in Hq as [Hh Hq].
      destruct (Hown h nt Hq) as (t' & Ht' & Hh').
      destruct (decide (callback_arg nt = timer)) as [Harg|Harg].
      * rewrite Harg, Ht in Ht'. injection Ht' as <-. congruence.
      * exists t'. rewrite lookup_delete_ne by congruence. auto.
Qed.

Lemma reachable_owned W st : reachable W st -> owned st.
Proof.
  destruct W.
  - intros Hr. apply winstore_queue_empty in Hr.
    split; [rewrite Hr; apply lookup_empty|].
    intros h nt. rewrite Hr, lookup_empty. discriminate.
  - induction 1 as [|st st' Hr IH Hstep].
    + split; [apply lookup_empty|]. intros h nt. cbn. rewrite lookup_empty.
      discriminate.
    + eapply step_owned; eauto.
Qed.

Lemma owned_single st h1 h2 nt1 nt2 :
  owned st ->
  queue st !! h1 = Some nt1 -> queue st !! h2 = Some nt2 ->
  callback_arg nt1 = callback_arg nt2 -> h1 = h2.
Proof.
  intros [_ Hown] H1 H2 Harg.
  destruct (Hown h1 nt1 H1) as (t1 & Ht1 & <-).
  destruct (Hown h2 nt2 H2) as (t2 & Ht2 & <-).
  rewrite Harg, Ht2 in Ht1. now injection Ht1 as <-.
Qed.

(** A call with [value == 0] is the first statement and nothing more. *)
Lemma schedule_zero_disarms W now created timer ab interval st t :
  timers st !! timer = Some t ->
  vlc_timer_schedule W now created timer ab 0 interval st
  = Returned (disarm W timer t st).
Proof.
  intros Ht. unfold vlc_timer_schedule. rewrite Ht.
  destruct (disarm W timer t st) as [st1 ev1]. reflexivity.
Qed.

(** An armed record has its native timer deleted before anything else. *)
Lemma schedule_deletes_first now created timer ab value interval st t st' ev :
  timers st !! timer = Some t -> handle t <> INVALID_HANDLE_VALUE ->
  vlc_timer_schedule false now created timer ab value interval st
  = Returned (st', ev) ->
  (exists ev', ev = DeleteTimerQueueTimer (handle t) :: ev')
  /\ (created <> Some (handle t) \/ value = 0 ->
      queue st' !! handle t = None).
Proof.
  intros Ht Hh. unfold vlc_timer_schedule, disarm. rewrite Ht.
  apply Z.eqb_neq in Hh. rewrite Hh.
  destruct (Z.eqb_spec value 0) as [Hv|Hv].
  - intros [= <- <-]. split; [eauto|]. intros _. cbn.
    apply lookup_delete_eq.
  - destruct (if ab then _ else _) as [value1 ev2].
    destruct created as [h|]; [|discriminate].
    intros [= <- <-]. split; [cbn; eauto|]. cbn.
    intros [Hc|Hz]; [|contradiction].
    rewrite lookup_insert_ne by congruence.
    apply lookup_delete_eq.
Qed.

(** An arming call creates one native timer, for the record it is given. *)
Lemma schedule_creates now h p (ab : bool) value interval st t :
  timers st !! p = Some t -> value <> 0 ->
  let st0 := (disarm false p t st).1 in
  exists due per,
    vlc_timer_schedule false now (Some h) p ab value interval st
    = Returned
        ({| timers := <[p := set_handle h (set_handle INVALID_HANDLE_VALUE t)]>
                        (timers st0);
            queue := <[h := {| callback_arg := p; due_time := due;
                               period := per |}]> (queue st0) |},
         (disarm false p t st).2 ++ (if ab then [ReadMdate] else [])
         ++ [CreateTimerQueueTimer p due per]).
Proof.
  intros Ht Hv st0. subst st0.
  unfold vlc_timer_schedule. rewrite Ht.
  destruct (disarm false p t st) as [st0 ev0]. cbn [fst snd].
  apply Z.eqb_neq in Hv. rewrite Hv.
  destruct ab; eexists _, _; reflexivity.
Qed.

(** The native timer an arming call creates, when the delay and the interval
    can be rounded within [mtime_t]. *)
Lemma schedule_arms now h p (ab : bool) value interval st t :
  timers st !! p = Some t -> value <> 0 ->
  (if ab then - 2 ^ 63 <= value - now < 2 ^ 63 - 999
   else 0 <= value < 2 ^ 63 - 999) ->
  0 <= interval < 2 ^ 63 - 999 ->
  let st0 := (disarm false p t st).1 in
  let nt := {| callback_arg := p;
               due_time :=
                 to_DWORD (((if ab then Z.max 0 (value - now) else value)
                            + 999) / 1000);
               period := to_DWORD ((interval + 999) / 1000) |} in
  vlc_timer_schedule false now (Some h) p ab value interval st
  = Returned
      ({| timers := <[p := set_handle h (set_handle INVALID_HANDLE_VALUE t)]>
                      (timers st0);
          queue := <[h := nt]> (queue st0) |},
       (disarm false p t st).2 ++ (if ab then [ReadMdate] else [])
       ++ [CreateTimerQueueTimer p (due_time nt) (period nt)]).
Proof.
  intros Ht Hv Hval Hint st0 nt. subst st0 nt.
  unfold vlc_timer_schedule. rewrite Ht.
  destruct (disarm false p t st) as [st0 ev0]. cbn [fst snd].
  apply Z.eqb_neq in Hv. rewrite Hv.
  assert (Hd : (if ab
                then (if Clock.to_mtime (value - now) <? 0 then 0
                      else Clock.to_mtime (value - now), [ReadMdate])
                else (value, []))
               = ((if ab then Z.max 0 (value - now) else value), if ab then [ReadMdate] else [])).
  { destruct ab; [|reflexivity]. rewrite to_mtime_id by lia.
    destruct (Z.ltb_spec (value - now) 0); f_equal; lia. }
  rewrite Hd.
  assert (Hdb : 0 <= (if ab then Z.max 0 (value - now) else value) < 2 ^ 63 - 999)
    by (destruct ab; lia).
  rewrite (to_mtime_small ((if ab then Z.max 0 (value - now) else value) + 999)) by lia.
  rewrite (to_mtime_small (interval + 999)) by lia.
  rewrite !Z.quot_div_nonneg by lia. reflexivity.
Qed.

(** Arming a record and, before the native timer fires, arming it again:
    the second call deletes the native timer of the first and leaves one
    native timer for the record, with the second call's schedule. *)
Lemma rearm now1 now2 p t h1 h2 (ab1 ab2 : bool) value1 value2 interval1
    interval2 st :
  owned st -> timers st !! p = Some t ->
  value1 <> 0 -> value2 <> 0 ->
  (if ab2 then - 2 ^ 63 <= value2 - now2 < 2 ^ 63 - 999
   else 0 <= value2 < 2 ^ 63 - 999) ->
  0 <= interval2 < 2 ^ 63 - 999 ->
  h1 <> INVALID_HANDLE_VALUE -> h2 <> INVALID_HANDLE_VALUE ->
  let unarmed := queue (disarm false p t st).1 in
  unarmed !! h1 = None -> unarmed !! h2 = None ->
  let later :=
    {| callback_arg := p;
       due_time :=
         to_DWORD (((if ab2 then Z.max 0 (value2 - now2) else value2)
                    + 999) / 1000);
       period := to_DWORD ((interval2 + 999) / 1000) |} in
  exists st1 ev1 st2 ev2,
    vlc_timer_schedule false now1 (Some h1) p ab1 value1 interval1 st
    = Returned (st1, ev1)
    /\ (exists nt, queue st1 !! h1 = Some nt /\ callback_arg nt = p)
    /\ vlc_timer_schedule false now2 (Some h2) p ab2 value2 interval2 st1
       = Returned (st2, ev2)
    /\ ev2 = DeleteTimerQueueTimer h1
             :: (if ab2 then [ReadMdate] else [])
             ++ [CreateTimerQueueTimer p (due_time later) (period later)]
    /\ queue st2 = <[h2 := later]> unarmed
    /\ (forall h nt, queue st2 !! h = Some nt -> callback_arg nt = p ->
          h = h2 /\ nt = later)
    /\ (handle <$> timers st2 !! p) = Some h2.
Proof.
  intros Hown Ht Hv1 Hv2 Hb2 Hi2 Hh1 Hh2 unarmed Hq1 Hq2 later.
  pose proof (disarm_owned p t st Hown Ht) as (_ & _ & _ & Hgone & _).
  cbn zeta in Hgone. fold unarmed in Hgone.
  destruct (schedule_creates now1 h1 p ab1 value1 interval1 st t Ht Hv1)
    as (due1 & per1 & Hfirst).
  rewrite Hfirst.
  eexists _, _, _, _. split; [reflexivity|].
  split; [cbn [queue]; rewrite lookup_insert_eq; eauto|].
  rewrite (schedule_arms now2 h2 p ab2 value2 interval2 _
             (set_handle h1 (set_handle INVALID_HANDLE_VALUE t)))
    by (assumption || (cbn [timers]; apply lookup_insert_eq)).
  match goal with
  | |- context [disarm false p ?t1 ?st1] =>
      assert (Hdis : disarm false p t1 st1
                     = ({| timers := <[p := set_handle INVALID_HANDLE_VALUE t1]>
                                       (timers st1);
                           queue := delete h1 (queue st1) |},
                        [DeleteTimerQueueTimer h1]))
  end.
  { unfold disarm at 1. cbn [handle set_handle].
    apply Z.eqb_neq in Hh1. now rewrite Hh1. }
  rewrite Hdis. cbn [fst snd timers queue app].
  fold unarmed. rewrite delete_insert_id by exact Hq1.
  split; [reflexivity|]. split; [reflexivity|]. split; [reflexivity|].
  split; [|cbn [timers]; now rewrite lookup_insert_eq].
  intros h nt. cbn [queue]. rewrite lookup_insert. case_decide as Hd.
  - intros [= <-]. split; [congruence | reflexivity].
  - intros Hq Harg. contradiction (Hgone h nt Hq Harg).
Qed.

(** C7.  Whatever the build, a call of [vlc_timer_schedule] with [value ==
    0] is its first statement alone: it deletes the native timer of the
    record, if there is one, marks the record unarmed and creates nothing;
    and in every state the timer interface can reach, two live native timers
    with the same timer record are one and the same.  In a build with the
    native timer queue, a call on an armed record deletes the record's
    native timer before any other call, and that timer is no longer in the
    queue afterwards (unless the system hands the same handle out again for
    the new one); and arming a record, relative or absolute, and then
    arming it again before the native timer fires deletes the native timer
    of the first call and leaves exactly one native timer for the record,
    the one the second call created, whatever the first call asked for, due
    after the second call's delay in milliseconds rounded up (at once for an
    absolute date that has passed) and with the second call's period.  The
    second call's delay and interval are taken such that rounding them stays
    within [mtime_t]. *)
Theorem vlc_timer_schedule_disarms_first (WINSTORE_APP : bool) :
  (forall now created timer ab interval st t,
     timers st !! timer = Some t ->
     vlc_timer_schedule WINSTORE_APP now created timer ab 0 interval st
     = Returned (disarm WINSTORE_APP timer t st))
  /\ (forall st, reachable WINSTORE_APP st ->
      forall h1 h2 nt1 nt2,
        queue st !! h1 = Some nt1 -> queue st !! h2 = Some nt2 ->
        callback_arg nt1 = callback_arg nt2 -> h1 = h2)
  /\ (forall now created timer ab value interval st t st' ev,
        timers st !! timer = Some t -> handle t <> INVALID_HANDLE_VALUE ->
        vlc_timer_schedule false now created timer ab value interval st
        = Returned (st', ev) ->
        (exists ev', ev = DeleteTimerQueueTimer (handle t) :: ev')
        /\ (created <> Some (handle t) \/ value = 0 ->
            queue st' !! handle t = None))
  /\ (forall now1 now2 p t h1 h2 (ab1 ab2 : bool) value1 value2 interval1
             interval2 st,
        reachable false st -> timers st !! p = Some t ->
        value1 <> 0 -> value2 <> 0 ->
        (if ab2 then - 2 ^ 63 <= value2 - now2 < 2 ^ 63 - 999
         else 0 <= value2 < 2 ^ 63 - 999) ->
        0 <= interval2 < 2 ^ 63 - 999 ->
        h1 <> INVALID_HANDLE_VALUE -> h2 <> INVALID_HANDLE_VALUE ->
        let unarmed := queue (disarm false p t st).1 in
        unarmed !! h1 = None -> unarmed !! h2 = None ->
        let later :=
          {| callback_arg := p;
             due_time :=
               to_DWORD (((if ab2 then Z.max 0 (value2 - now2) else value2)
                          + 999) / 1000);
             period := to_DWORD ((interval2 + 999) / 1000) |} in
        exists st1 ev1 st2 ev2,
          vlc_timer_schedule false now1 (Some h1) p ab1 value1 interval1 st
          = Returned (st1, ev1)
          /\ (exists nt, queue st1 !! h1 = Some nt /\ callback_arg nt = p)
          /\ vlc_timer_schedule false now2 (Some h2) p ab2 value2 interval2 st1
             = Returned (st2, ev2)
          /\ ev2 = DeleteTimerQueueTimer h1
                   :: (if ab2 then [ReadMdate] else [])
                   ++ [CreateTimerQueueTimer p (due_time later) (period later)]
          /\ queue st2 = <[h2 := later]> unarmed
          /\ (forall h nt, queue st2 !! h = Some nt -> callback_arg nt = p ->
                h = h2 /\ nt = later)
          /\ (handle <$> timers st2 !! p) = Some h2).
Proof.
  split; [intros; now apply schedule_zero_disarms|].
  split; [intros st Hr h1 h2 nt1 nt2;
          apply owned_single, (reachable_owned _ _ Hr)|].
  split; [intros; eapply schedule_deletes_first; eauto|].
  intros now1 now2 p t h1 h2 ab1 ab2 value1 value2 interval1 interval2 st Hr.
  apply rearm, (reachable_owned _ _ Hr).
Qed.

(** Arming for 50 ms and, before it fires, again for 200 ms. *)
Lemma vlc_timer_schedule_disarms_first_witness :
  let later := {| callback_arg := 1000; due_time := 200; period := 0 |} in
  exists st1 ev1 st2 ev2,
    vlc_timer_schedule false 0 (Some 11) 1000 false 50000 0
      Examples.one_timer
    = Returned (st1, ev1)
    /\ (exists nt, queue st1 !! 11 = Some nt /\ callback_arg nt = 1000)
    /\ vlc_timer_schedule false 0 (Some 12) 1000 false 200000 0 st1
       = Returned (st2, ev2)
    /\ ev2 = [DeleteTimerQueueTimer 11; CreateTimerQueueTimer 1000 200 0]
    /\ queue st2 = <[12 := later]> (queue Examples.one_timer)
    /\ (forall h nt, queue st2 !! h = Some nt -> callback_arg nt = 1000 ->
          h = 12 /\ nt = later)
    /\ (handle <$> timers st2 !! 1000) = Some 12.
Proof.
  apply (proj2 (proj2 (proj2 (vlc_timer_schedule_disarms_first false)))
           0 0 1000 {| handle := INVALID_HANDLE_VALUE; func := 7; data := 8 |}
           11 12 false false 50000 200000 0 0 Examples.one_timer).
  - eapply reachable_step; [apply reachable_initial|].
    apply (step_create false 1000 7 8 initial_timers). reflexivity.
  - reflexivity.
  - discriminate.
  - discriminate.
  - change (2 ^ 63) with 9223372036854775808. lia.
  - change (2 ^ 63) with 9223372036854775808. lia.
  - discriminate.
  - discriminate.
  - reflexivity.
  - reflexivity.
Defined.

End TimerFacts.

(** * Further properties of the code *)

(** ** Address waits: buckets and entry points *)

Section AddrWaitFacts.

Import Futex AddrWait.

(** X1.  The bucket index computed for any address lies within the 32
    entries of [wait_addr_buckets]; it depends only on the 8-byte word the
    address falls in, and repeats every 256 bytes. *)
Theorem wait_addr_get_bucket_bounds (addr : Z) :
  0 <= wait_addr_get_bucket addr < ARRAY_SIZE_wait_addr_buckets
  /\ (forall addr', addr / 8 = addr' / 8 ->
        wait_addr_get_bucket addr' = wait_addr_get_bucket addr)
  /\ wait_addr_get_bucket (addr + 256) = wait_addr_get_bucket addr.
Proof.
  unfold wait_addr_get_bucket, ARRAY_SIZE_wait_addr_buckets.
  rewrite !Z.shiftr_div_pow2 by lia. change (2 ^ 3) with 8.
  split; [apply Z.mod_pos_bound; lia|]. split.
  - intros addr' H. rewrite Z.shiftr_div_pow2 by lia. change (2 ^ 3) with 8.
    now rewrite H.
  - replace (addr + 256) with (addr + 32 * 8) by lia.
    rewrite Z.div_add by lia.
    replace (addr / 8 + 32) with (addr / 8 + 1 * 32) by lia.
    apply Z.mod_add. lia.
Qed.

Lemma store_le_other n : forall m a v b,
  b < a \/ a + Z.of_nat n <= b -> store_le m a n v !! b = m !! b.
Proof.
  induction n as [|k IH]; intros m a v b Hb; [reflexivity|].
  cbn [store_le]. rewrite IH by lia. apply lookup_insert_ne. lia.
Qed.

Lemma load_le_ext n : forall m m' a,
  (forall b, a <= b < a + Z.of_nat n -> m !! b = m' !! b) ->
  load_le m a n = load_le m' a n.
Proof.
  induction n as [|k IH]; intros m m' a H; [reflexivity|].
  cbn [load_le]. unfold byte_at. rewrite (H a) by lia.
  rewrite (IH m m' (a + 1)); [reflexivity|]. intros b Hb. apply H. lia.
Qed.

(** Reading back what was written. *)
Lemma load_store_same n : forall m a v,
  load_le (store_le m a n v) a n = v mod 2 ^ (8 * Z.of_nat n).
Proof.
  induction n as [|k IH]; intros m a v.
  - cbn. now rewrite Z.mod_1_r.
  - cbn [load_le store_le]. rewrite IH.
    unfold byte_at. rewrite store_le_other by lia.
    rewrite lookup_insert_eq.
    change (default 0 (Some (v mod 256))) with (v mod 256).
    rewrite Z.mod_mod by lia.
    replace (8 * Z.of_nat (S k)) with (8 + 8 * Z.of_nat k) by lia.
    rewrite Z.pow_add_r by lia. change (2 ^ 8) with 256.
    rewrite Z.rem_mul_r by lia. reflexivity.
Qed.

(** A write does not change what is read from a disjoint range. *)
Lemma load_store_other n n' m a v b :
  b + Z.of_nat n' <= a \/ a + Z.of_nat n <= b ->
  load_le (store_le m a n v) b n' = load_le m b n'.
Proof.
  intros H. apply load_le_ext. intros c Hc. apply store_le_other. lia.
Qed.

Lemma fallback_on_stack_value sleep_ret m sp addr val ms :
  sp + 4 <= addr \/ addr + 4 <= sp ->
  WaitOnAddressFallback sleep_ret (store_le m sp 4 (val mod 2 ^ 32))
    addr sp 4 ms
  = if bool_decide (load_le m addr 4 = val mod 2 ^ 32)
    then Returned (sleep_ret,
                   [EnterCriticalSection (wait_addr_get_bucket addr);
                    SleepConditionVariableCS (wait_addr_get_bucket addr) ms;
                    LeaveCriticalSection (wait_addr_get_bucket addr)])
    else Returned (0,
                   [EnterCriticalSection (wait_addr_get_bucket addr);
                    LeaveCriticalSection (wait_addr_get_bucket addr)]).
Proof.
  intros Hdisj. unfold WaitOnAddressFallback.
  rewrite load_as_uint64_eqb by (simpl; tauto).
  rewrite load_store_same, load_store_other
    by (change (Z.of_nat 4) with 4; lia).
  change (8 * Z.of_nat 4) with 32. rewrite Z.mod_mod by lia.
  destruct (bool_decide _); reflexivity.
Qed.

(** X2.  With the fallback installed, [vlc_addr_wait (addr, val)] sleeps on
    the bucket of [addr], without timeout, exactly when the four bytes at
    [addr] hold [val]; otherwise it only takes and releases the bucket lock.
    The stack slot of [val] does not overlap the watched word. *)
Theorem vlc_addr_wait_sleeps_iff_equal
    (sleep_ret : Z) (m : gmap Z Z) (sp addr val : Z) :
  sp + 4 <= addr \/ addr + 4 <= sp ->
  vlc_addr_wait sleep_ret m sp addr val
  = Returned
      (if bool_decide (load_le m addr 4 = val mod 2 ^ 32)
       then [EnterCriticalSection (wait_addr_get_bucket addr);
             SleepConditionVariableCS (wait_addr_get_bucket addr) INFINITE;
             LeaveCriticalSection (wait_addr_get_bucket addr)]
       else [EnterCriticalSection (wait_addr_get_bucket addr);
             LeaveCriticalSection (wait_addr_get_bucket addr)]).
Proof.
  intros Hdisj. unfold vlc_addr_wait.
  rewrite fallback_on_stack_value by exact Hdisj.
  destruct (bool_decide _); reflexivity.
Qed.

Lemma vlc_addr_wait_sleeps_iff_equal_witness :
  vlc_addr_wait 1 Examples.flag_memory 5000 100 1
  = Returned [EnterCriticalSection 12;
              SleepConditionVariableCS 12 INFINITE;
              LeaveCriticalSection 12].
Proof.
  rewrite (vlc_addr_wait_sleeps_iff_equal 1 Examples.flag_memory 5000 100 1)
    by (right; lia).
  reflexivity.
Defined.

(** X3.  With the fallback installed and a delay that is not negative and
    to which 999 can be added within [mtime_t], [vlc_addr_timedwait] passes
    a timeout of the delay in milliseconds,
    rounded up and capped at [0x7fffffff], so a sleep that is not capped is
    never shorter than the delay asked for and less than a millisecond
    longer; it sleeps only when the four bytes at [addr] hold [val]; and it
    returns [true] when the delay was capped, otherwise what the sleep
    returned, or [false] if it did not sleep. *)
Theorem vlc_addr_timedwait_timeout
    (sleep_ret : Z) (m : gmap Z Z) (sp addr val delay : Z) :
  sp + 4 <= addr \/ addr + 4 <= sp ->
  0 <= delay < 2 ^ 63 - 999 ->
  let ms := Z.min 2147483647 ((delay + 999) / 1000) in
  let capped := 2147483647 <? (delay + 999) / 1000 in
  vlc_addr_timedwait sleep_ret m sp addr val delay
  = Returned
      (if bool_decide (load_le m addr 4 = val mod 2 ^ 32)
       then (capped || negb (sleep_ret =? 0),
             [EnterCriticalSection (wait_addr_get_bucket addr);
              SleepConditionVariableCS (wait_addr_get_bucket addr) ms;
              LeaveCriticalSection (wait_addr_get_bucket addr)])
       else (capped,
             [EnterCriticalSection (wait_addr_get_bucket addr);
              LeaveCriticalSection (wait_addr_get_bucket addr)]))
  /\ 0 <= ms <= 2147483647
  /\ (capped = false -> 1000 * (ms - 1) < delay <= 1000 * ms).
Proof.
  intros Hdisj Hdelay ms capped. subst ms capped.
  assert (Hq : Z.quot (Clock.to_mtime (delay + 999)) 1000
               = (delay + 999) / 1000)
    by (rewrite to_mtime_small by lia; apply Z.quot_div_nonneg; lia).
  assert (Hnn : 0 <= (delay + 999) / 1000) by (apply Z.div_pos; lia).
  split; [|split].
  - unfold vlc_addr_timedwait. rewrite Hq, Z.gtb_ltb.
    destruct (Z.ltb_spec 2147483647 ((delay + 999) / 1000)) as [Hcap|Hcap].
    + rewrite fallback_on_stack_value by exact Hdisj.
      rewrite Z.min_l by lia.
      destruct (bool_decide _); reflexivity.
    + rewrite fallback_on_stack_value by exact Hdisj.
      rewrite Z.min_r by lia.
      rewrite (Z.mod_small ((delay + 999) / 1000)) by (change (2 ^ 32) with 4294967296; lia).
      destruct (bool_decide _); reflexivity.
  - lia.
  - intros Hcap. apply Z.ltb_ge in Hcap. rewrite Z.min_r by lia.
    pose proof (Z.div_mod (delay + 999) 1000 ltac:(lia)) as Hdm.
    pose proof (Z.mod_pos_bound (delay + 999) 1000 ltac:(lia)) as Hm.
    lia.
Qed.

Lemma vlc_addr_timedwait_timeout_witness :
  vlc_addr_timedwait 0 Examples.flag_memory 5000 100 1 1500
  = Returned (false, [EnterCriticalSection 12;
                      SleepConditionVariableCS 12 2;
                      LeaveCriticalSection 12]).
Proof.
  destruct (vlc_addr_timedwait_timeout 0 Examples.flag_memory 5000 100 1 1500)
    as [H _]; [right; lia | change (2 ^ 63) with 9223372036854775808; lia |].
  rewrite H. reflexivity.
Defined.

End AddrWaitFacts.

(** ** A waiter and a waker on one bucket *)

Section WakeRaceFacts.

Import WakeRace.

Lemma initial_consistent : consistent initial.
Proof.
  unfold consistent, initial; cbn. repeat split; try discriminate; auto.
  - intros [H|[[e H]|H]]; discriminate.
Qed.

#[local] Set Warnings "-clear-no-such-hyp".

Lemma step_consistent s s' : consistent s -> step s s' -> consistent s'.
Proof.
  intros (Hu & Hk & Hw & Hc & Ha) Hstep.
  destruct Hstep; unfold consistent in *; cbn in *;
    try match goal with w : waiter_pc |- _ => destruct w end;
    try match goal with u : bool |- _ => destruct u end;
    cbn in *; naive_solver.
Qed.

Lemma reachable_consistent s : reachable s -> consistent s.
Proof.
  induction 1 as [|s s' _ IH Hstep];
    [apply initial_consistent | eapply step_consistent; eauto].
Qed.

(** X4.  No wake-up is lost.  In every interleaving of a
    [WaitOnAddressFallback] and of a store followed by a
    [WakeByAddressFallback] on the same address, once the waker has
    returned the waiter is not asleep on the condition variable; the waiter
    goes to sleep only if it compared before the store, and while it is
    deciding to sleep the waker has not got past [EnterCriticalSection]. *)
Theorem wake_by_address_not_lost (s : state) :
  reachable s ->
  (waker s = KDone -> waiter s <> WAsleep)
  /\ (waiter s = WCompared true -> waker s = KStart \/ waker s = KStored)
  /\ (lock s = Some Waker -> waiter s <> WLocked /\ waiter s <> WLeaving
                             /\ forall e, waiter s <> WCompared e).
Proof.
  intros Hr. destruct (reachable_consistent s Hr) as (Hu & Hk & Hw & Hc & Ha).
  split; [intros Hd Hs; exact (Ha Hs Hd)|]. split; [exact Hc|].
  intros Hl. assert (Hn : lock s <> Some Waiter) by congruence.
  repeat split; intros; intro Hx; apply Hn, Hw; eauto.
Qed.

Lemma wake_by_address_not_lost_witness :
  reachable {| unchanged := false; lock := None; waiter := WWoken;
               waker := KDone |}
  /\ (WWoken = WCompared true -> KDone = KStart \/ KDone = KStored).
Proof.
  assert (Hr : reachable {| unchanged := false; lock := None;
                            waiter := WWoken; waker := KDone |});
    [|split; [exact Hr|];
      exact (proj1 (proj2 (wake_by_address_not_lost _ Hr)))].
  eapply reachable_step; [|apply (waker_wake_all false None WAsleep)].
  eapply reachable_step; [|apply (waker_leave false (Some Waker) WAsleep)].
  eapply reachable_step; [|apply (waker_enter false WAsleep)].
  eapply reachable_step; [|apply (waker_store true None WAsleep)].
  eapply reachable_step; [|apply (waiter_sleep true (Some Waiter) KStart)].
  eapply reachable_step; [|apply (waiter_load true (Some Waiter) KStart)].
  eapply reachable_step; [|apply (waiter_enter true KStart)].
  apply reachable_initial.
Defined.

End WakeRaceFacts.

(** ** Static mutexes *)

Section MutexFacts.

Import Cancel Mutex.

Lemma set_locked_same mtx : set_locked (locked mtx) mtx = mtx.
Proof. destruct mtx; reflexivity. Qed.

(** X5.  On a static mutex, [vlc_mutex_trylock] takes the mutex and returns
    0 exactly when it is free, and returns [EBUSY] and changes nothing when
    it is held; [vlc_mutex_lock] on a free mutex returns at once with the
    same result, whatever the thread's cancellation state; unlocking after
    either gives back the mutex as it was, with a broadcast exactly when the
    contention count is not zero; and unlocking a mutex that is not locked
    fails the assertion. *)
Theorem static_mutex_trylock_unlock
    (cleanup_proc : Z -> (world -> outcome world) -> Z -> world -> outcome world)
    (depth : nat) (sched : list wakeup) (try_enter : bool)
    (mtx : vlc_mutex_t) (w : world) :
  dynamic mtx = false ->
  (locked mtx = false ->
   vlc_mutex_trylock try_enter mtx = (0, set_locked true mtx)
   /\ vlc_mutex_lock cleanup_proc depth sched mtx w
      = Returned (set_locked true mtx, w)
   /\ vlc_mutex_unlock (set_locked true mtx)
      = Returned (mtx, negb (contention mtx =? 0))
   /\ vlc_mutex_unlock mtx = AssertFailed)
  /\ (locked mtx = true ->
      vlc_mutex_trylock try_enter mtx = (EBUSY, mtx)
      /\ vlc_mutex_unlock mtx
         = Returned (set_locked false mtx, negb (contention mtx =? 0))).
Proof.
  intros Hdyn. split; intros Hl.
  - split; [|split; [|split]].
    + unfold vlc_mutex_trylock. now rewrite Hdyn, Hl.
    + unfold vlc_mutex_lock. rewrite Hdyn.
      destruct (savecancel_spec w) as (Hpair & _).
      destruct (vlc_savecancel w) as [canc w1]. cbn [fst snd] in Hpair.
      destruct sched; cbn [static_wait_loop]; rewrite Hl; cbn iota;
        rewrite Hpair; reflexivity.
    + unfold vlc_mutex_unlock. cbn. rewrite Hdyn. cbn.
      destruct mtx; cbn in *. now subst.
    + unfold vlc_mutex_unlock. now rewrite Hdyn, Hl.
  - split.
    + unfold vlc_mutex_trylock. now rewrite Hdyn, Hl.
    + unfold vlc_mutex_unlock. now rewrite Hdyn, Hl.
Qed.

Lemma static_mutex_trylock_unlock_witness :
  vlc_mutex_trylock false Examples.held_static_mutex
  = (EBUSY, Examples.held_static_mutex)
  /\ vlc_mutex_unlock Examples.held_static_mutex
     = Returned (set_locked false Examples.held_static_mutex,
                 negb (contention Examples.held_static_mutex =? 0)).
Proof.
  apply (static_mutex_trylock_unlock Examples.marking_proc 0 [] false
           Examples.held_static_mutex Examples.main_thread_world eq_refl).
  reflexivity.
Defined.

Lemma after_attempt_exclusive i sleeping hs mtx :
  dynamic mtx = false ->
  (length hs <= 1)%nat ->
  (locked mtx = true <-> hs <> []) ->
  contention mtx = Z.of_nat (length sleeping) ->
  exclusive (after_attempt i sleeping hs (lock_attempt mtx)).
Proof.
  intros Hd Hlen Hlk Hc. unfold after_attempt, lock_attempt, exclusive.
  destruct (locked mtx) eqn:Hl; cbn.
  - rewrite ?Hl. repeat split; auto; try tauto. lia.
  - assert (hs = []) as ->.
    { destruct hs; [reflexivity|]. exfalso.
      assert (false = true) by (apply Hlk; discriminate). discriminate. }
    repeat split; auto; try discriminate.
Qed.

Lemma step_exclusive s s' : exclusive s -> Mutex.step s s' -> exclusive s'.
Proof.
  intros (Hd & Hlen & Hlk & Hc) Hstep.
  destruct Hstep as [i s Hi | i s before after Hs | i s Hi
                    | i s mtx' woken before after Hh Hu].
  - now apply after_attempt_exclusive.
  - apply after_attempt_exclusive; unfold lock_wake; cbn; auto.
    rewrite Hc, Hs, !length_app. cbn. lia.
  - unfold vlc_mutex_trylock. rewrite Hd. cbn.
    destruct (locked (mutex s)) eqn:Hl; cbn; unfold exclusive; cbn.
    + repeat split; auto; rewrite ?Hl; tauto.
    + assert (holders s = []) as ->.
      { destruct (holders s); [reflexivity|]. exfalso.
        assert (false = true) by (apply Hlk; discriminate). discriminate. }
      repeat split; auto; try discriminate.
  - revert Hu. unfold vlc_mutex_unlock. rewrite Hd. cbn.
    destruct (locked (mutex s)) eqn:Hl; [|discriminate].
    intros [= <- <-]. rewrite Hh, length_app in Hlen. cbn in Hlen.
    assert (before = [] /\ after = []) as [-> ->].
    { destruct before, after; cbn in Hlen; try lia. auto. }
    unfold exclusive; cbn. repeat split; auto; try discriminate.
    all: try (intros H; now contradiction H).
Qed.

Lemma reachable_exclusive s : Mutex.reachable s -> exclusive s.
Proof.
  induction 1 as [|s s' _ IH Hstep].
  - unfold exclusive, fresh_static; cbn. repeat split; auto; try discriminate.
    all: try (intros H; now contradiction H).
  - eapply step_exclusive; eauto.
Qed.

(** X6.  Whatever the order in which threads lock, try to lock, sleep, wake
    and unlock one static mutex, at most one thread holds it at any time;
    the mutex reads locked exactly when some thread holds it; its
    contention count is the number of threads asleep in [vlc_mutex_lock];
    and an unlock by the holder passes the assertion and broadcasts exactly
    when some thread is asleep. *)
Theorem static_mutex_exclusion (s : shared) :
  Mutex.reachable s ->
  (length (holders s) <= 1)%nat
  /\ (locked (mutex s) = true <-> holders s <> [])
  /\ contention (mutex s) = Z.of_nat (length (sleepers s))
  /\ (forall i, In i (holders s) ->
        vlc_mutex_unlock (mutex s)
        = Returned (set_locked false (mutex s),
                    negb (Nat.eqb (length (sleepers s)) 0))).
Proof.
  intros Hr. destruct (reachable_exclusive s Hr) as (Hd & Hlen & Hlk & Hc).
  repeat split; auto; try apply Hlk.
  intros i Hi. unfold vlc_mutex_unlock. rewrite Hd. cbn.
  assert (Hl : locked (mutex s) = true).
  { apply Hlk. intros Hnil. rewrite Hnil in Hi. destruct Hi. }
  rewrite Hl, Hc. do 3 f_equal.
  destruct (sleepers s); cbn; [reflexivity|]. apply Z.eqb_neq. lia.
Qed.

Lemma static_mutex_exclusion_witness :
  vlc_mutex_unlock (set_locked true (add_contention 1 (mutex fresh_static)))
  = Returned (add_contention 1 (mutex fresh_static), true).
Proof.
  assert (Hr : Mutex.reachable
                 {| mutex := add_contention 1 (set_locked true (mutex fresh_static));
                    holders := [1%nat]; sleepers := [2%nat] |}).
  { eapply Mutex.reachable_step;
      [eapply Mutex.reachable_step; [apply reachable_fresh|]|].
    - apply (step_lock 1 fresh_static). cbn. apply not_elem_of_nil.
    - apply (step_lock 2). cbn. apply not_elem_of_nil. }
  destruct (static_mutex_exclusion _ Hr) as (_ & _ & _ & H).
  apply (H 1%nat). left. reflexivity.
Defined.

End MutexFacts.

(** ** Cancellation: the remaining paths *)

Section CancelMore.

Import Cancel.

Lemma set_killed_same th : killed th = true -> set_killed true th = th.
Proof. destruct th; cbn; now intros ->. Qed.

(** X7.  A second [vlc_cancel] changes nothing: the record, the memory and
    the calls are those of the first; and on a thread already killed the
    record is left as it is.  The [killed] flag is never cleared. *)
Theorem vlc_cancel_idempotent
    (IS_INTERRUPTIBLE : bool) (th : vlc_thread) (m : gmap Z Z) :
  let first := vlc_cancel IS_INTERRUPTIBLE th m in
  vlc_cancel IS_INTERRUPTIBLE first.1.1 first.1.2 = first
  /\ (killed th = true -> first.1.1 = th).
Proof.
  cbn zeta. unfold vlc_cancel.
  destruct th as [i ka kd cl en da wa]; cbn [wait_addr set_killed id killed].
  destruct (wa =? 0) eqn:Hwa; cbn [fst snd wait_addr set_killed id killed];
    rewrite ?Hwa.
  - split; [reflexivity | now intros ->].
  - split; [|now intros ->].
    f_equal. f_equal. apply map_eq. intros a.
    destruct (decide (wa = a)) as [<-|Hne].
    + rewrite !lookup_alter_eq.
      destruct (m !! wa) as [v|]; cbn; [|reflexivity].
      f_equal. rewrite <- Z.land_assoc. reflexivity.
    + rewrite !lookup_alter_ne by exact Hne. reflexivity.
Qed.

Lemma vlc_cancel_idempotent_witness :
  (vlc_cancel true Examples.killed_thread ∅).1.1 = Examples.killed_thread.
Proof.
  apply (proj2 (vlc_cancel_idempotent true Examples.killed_thread ∅)).
  reflexivity.
Defined.

(** X8.  Brackets nest: an inner [vlc_savecancel] returns [false], the two
    [vlc_restorecancel] calls in reverse order give back the states in
    between and the original state; a [vlc_restorecancel] on a thread whose
    cancellation is enabled, or with a state that is neither [false] nor
    [true], fails an assertion. *)
Theorem savecancel_nests (w : world) :
  let outer := vlc_savecancel w in
  let inner := vlc_savecancel outer.2 in
  inner.1 = 0
  /\ vlc_restorecancel inner.1 inner.2 = Returned outer.2
  /\ vlc_restorecancel outer.1 outer.2 = Returned w
  /\ (forall th state, self w = Some th -> killable th = true ->
        vlc_restorecancel state w = AssertFailed)
  /\ (forall state, state <> 0 -> state <> 1 ->
        vlc_restorecancel state w = AssertFailed).
Proof.
  cbn zeta.
  destruct (savecancel_spec w) as (Hpair & Hst & Hself & Hmem).
  destruct (savecancel_spec (vlc_savecancel w).2) as (Hpair2 & Hst2 & _).
  split.
  { rewrite Hst2, Hself. destruct (self w); reflexivity. }
  split; [exact Hpair2|]. split; [exact Hpair|]. split.
  - intros th state Hs Hk. unfold vlc_restorecancel, vlc_thread_self.
    rewrite Hs, Hk. destruct (negb _); reflexivity.
  - intros state H0 H1. unfold vlc_restorecancel.
    apply Z.eqb_neq in H0, H1. now rewrite H0, H1.
Qed.

Lemma savecancel_nests_witness :
  vlc_restorecancel 2 Examples.main_thread_world = AssertFailed.
Proof.
  apply (savecancel_nests Examples.main_thread_world); discriminate.
Defined.

(** X9.  On a thread with a record, popping after a push gives back the
    record, and the handler pushed is the first of the stack; popping an
    empty stack dereferences a null pointer; clearing the wait address just
    set gives back a record without wait address, and clearing another
    address than the one registered fails the assertion; none of the four
    commands touches the [killable] and [killed] flags or the memory. *)
Theorem vlc_control_cancel_brackets (w : world) (th : vlc_thread) :
  self w = Some th ->
  (forall cleaner,
     exists w1,
       vlc_control_cancel (VLC_CLEANUP_PUSH cleaner) w = Returned w1
       /\ (cleaners <$> self w1) = Some (cleaner :: cleaners th)
       /\ vlc_control_cancel VLC_CLEANUP_POP w1 = Returned w)
  /\ (cleaners th = [] -> vlc_control_cancel VLC_CLEANUP_POP w = Aborted)
  /\ (forall addr,
        exists w1,
          vlc_control_cancel (VLC_CANCEL_ADDR_SET addr) w = Returned w1
          /\ (wait_addr <$> self w1) = Some addr
          /\ (wait_addr th = 0 ->
              vlc_control_cancel (VLC_CANCEL_ADDR_CLEAR addr) w1 = Returned w)
          /\ forall other, other <> addr ->
               vlc_control_cancel (VLC_CANCEL_ADDR_CLEAR other) w1
               = AssertFailed)
  /\ (forall cmd w', vlc_control_cancel cmd w = Returned w' ->
        (killable <$> self w') = Some (killable th)
        /\ (killed <$> self w') = Some (killed th)
        /\ memory w' = memory w).
Proof.
  intros Hs. destruct w as [s mem]. cbn in Hs. subst s.
  split; [|split; [|split]].
  - intros cleaner. eexists. split; [reflexivity|]. split; [reflexivity|].
    destruct th; reflexivity.
  - intros Hnil. unfold vlc_control_cancel; cbn. now rewrite Hnil.
  - intros addr. eexists. split; [reflexivity|]. split; [reflexivity|]. split.
    + intros Hz. unfold vlc_control_cancel; cbn. rewrite Z.eqb_refl.
      destruct th; cbn in *. now subst.
    + intros other Hne. unfold vlc_control_cancel; cbn.
      apply not_eq_sym, Z.eqb_neq in Hne. now rewrite Hne.
  - intros cmd w'. unfold vlc_control_cancel; cbn.
    destruct cmd as [cl| |a|a|x]; cbn.
    + intros [= <-]. repeat split.
    + destruct (cleaners th); [discriminate|]. intros [= <-]. repeat split.
    + intros [= <-]. repeat split.
    + destruct (wait_addr th =? a); [|discriminate]. intros [= <-].
      repeat split.
    + intros [= <-]. repeat split.
Qed.

Lemma vlc_control_cancel_brackets_witness :
  exists w1,
    vlc_control_cancel (VLC_CANCEL_ADDR_SET 64) Examples.killed_world
    = Returned w1
    /\ vlc_control_cancel (VLC_CANCEL_ADDR_CLEAR 65) w1 = AssertFailed.
Proof.
  destruct (vlc_control_cancel_brackets Examples.killed_world
              Examples.killed_thread eq_refl) as (_ & _ & H & _).
  destruct (H 64) as (w1 & Hset & _ & _ & Hclear).
  exists w1. split; [exact Hset | apply Hclear; discriminate].
Defined.

Section Unwinding.

Variable cleanup_proc :
  Z -> (world -> outcome world) -> Z -> world -> outcome world.

Lemma run_cleaners_not_returned nested l :
  forall w,
  (forall w', run_cleaners cleanup_proc nested l w <> Returned w')
  \/ exists w', run_cleaners cleanup_proc nested l w = Returned w'.
Proof.
  intros w. destruct (run_cleaners cleanup_proc nested l w); eauto;
    left; discriminate.
Qed.

(** A thread that is cancellable and killed does not come back from
    [vlc_testcancel]. *)
Lemma testcancel_due depth w th :
  self w = Some th -> killable th = true -> killed th = true ->
  forall w', vlc_testcancel cleanup_proc depth w <> Returned w'.
Proof.
  intros Hs Hka Hkd w'.
  destruct depth; cbn [vlc_testcancel]; unfold testcancel_body, vlc_thread_self;
    rewrite Hs, Hka, Hkd; cbn [negb];
    destruct (run_cleaners _ _ _ _) as [w2| | | |]; try discriminate;
    destruct (self w2) as [th2|]; try discriminate;
    destruct (id th2 =? 0); discriminate.
Qed.

(** Handlers that return and only work on memory. *)
Variable handler : Z -> Z -> gmap Z Z -> gmap Z Z.
Hypothesis Hproc : forall p nested d w,
  cleanup_proc p nested d w
  = Returned {| self := self w; memory := handler p d (memory w) |}.

Lemma run_cleaners_fold nested l :
  forall w,
  run_cleaners cleanup_proc nested l w
  = Returned {| self := self w;
                memory := fold_left
                            (fun m c => handler (proc c) (cleanup_data c) m)
                            l (memory w) |}.
Proof.
  induction l as [|c l IH]; intros w; cbn.
  - destruct w; reflexivity.
  - rewrite Hproc, IH. reflexivity.
Qed.

End Unwinding.

(** X10.  A thread whose cancellation is enabled and that has been killed
    never comes back from [vlc_testcancel], whatever its handlers do.  When
    the handlers return and only work on memory, the call ends the thread
    after running every handler once, from the top of the stack to the
    bottom, with the result slot of the record cleared, and with the record
    of a detached thread released. *)
Theorem vlc_testcancel_unwinds
    (cleanup_proc : Z -> (world -> outcome world) -> Z -> world -> outcome world)
    (depth : nat) (w : world) (th : vlc_thread) :
  self w = Some th -> killable th = true -> killed th = true ->
  (forall w', vlc_testcancel cleanup_proc depth w <> Returned w')
  /\ forall handler,
       (forall p nested d w0,
          cleanup_proc p nested d w0
          = Returned {| self := self w0; memory := handler p d (memory w0) |}) ->
       vlc_testcancel cleanup_proc depth w
       = Exited {| self := if id th =? 0 then None else Some (set_data 0 th);
                   memory := fold_left
                               (fun m c => handler (proc c) (cleanup_data c) m)
                               (cleaners th) (memory w) |}.
Proof.
  intros Hs Hka Hkd. split; [now apply (testcancel_due _ _ _ th)|].
  intros handler Hproc.
  destruct depth; cbn [vlc_testcancel]; unfold testcancel_body, vlc_thread_self;
    rewrite Hs, Hka, Hkd; cbn [negb];
    rewrite (testcancel_guard_store w th Hs Hka);
    rewrite (run_cleaners_fold _ handler Hproc); cbn [self];
    rewrite Hs; cbn;
    destruct (id th =? 0); reflexivity.
Qed.

Lemma vlc_testcancel_unwinds_witness :
  vlc_testcancel Examples.marking_proc 0 Examples.killed_world
  = Exited {| self := Some (set_data 0 Examples.killed_thread);
              memory := <[0 := 1]> ∅ |}.
Proof.
  rewrite (proj2 (vlc_testcancel_unwinds Examples.marking_proc 0
                    Examples.killed_world Examples.killed_thread
                    eq_refl eq_refl eq_refl)
             (fun _ d m => <[d := 1]> m)) by reflexivity.
  reflexivity.
Defined.

End CancelMore.

(** ** Waiting on the operating system *)

Section WaitFacts.

Import Waits.

Variable c : wait_codes.
Hypothesis Hc : sound c.

Lemma poll_quiet again sl :
  forall delay,
  0 <= delay < INFINITE c -> sl <> [] -> Forall (quiet again) sl ->
  delay <= 50 * Z.of_nat (length sl) ->
  exists lens,
    poll c again sl delay = Returned (again, lens)
    /\ fold_right Z.add 0 lens = delay
    /\ Forall (fun l => 0 <= l <= 50) lens.
Proof.
  induction sl as [|s sl IH]; intros delay Hd Hne Hq Hlen; [congruence|].
  apply Forall_cons in Hq as [[Hres Hcan] Hq].
  cbn [poll]. rewrite Hcan, Hres, Z.eqb_refl, andb_true_r.
  replace (delay =? INFINITE c) with false by (symmetry; apply Z.eqb_neq; lia).
  rewrite Z.gtb_ltb.
  destruct (Z.ltb_spec delay 50) as [Hsmall|Hbig].
  - rewrite Z.sub_diag. cbn. exists [delay]. cbn.
    split; [reflexivity|]. split; [lia|]. repeat constructor; lia.
  - destruct (Z.eqb_spec (delay - 50) 0) as [Hz|Hnz]; cbn [negb].
    + exists [50]. cbn. split; [reflexivity|]. split; [lia|].
      repeat constructor; lia.
    + destruct (IH (delay - 50)) as (lens & Hp & Hsum & Hall).
      * lia.
      * intros ->. cbn in Hlen. lia.
      * exact Hq.
      * cbn [length] in Hlen. lia.
      * rewrite Hp. exists (50 :: lens). cbn.
        split; [reflexivity|]. split; [lia|]. constructor; [lia | exact Hall].
Qed.

Lemma poll_cancelled again pre :
  forall delay s rest,
  again <> WAIT_IO_COMPLETION c ->
  0 <= delay <= INFINITE c ->
  delay = INFINITE c \/ 50 * Z.of_nat (length pre) < delay ->
  Forall (quiet again) pre -> cancelled s = true ->
  exists lens,
    poll c again (pre ++ s :: rest) delay
    = Returned (WAIT_IO_COMPLETION c, lens)
    /\ length lens = S (length pre)
    /\ Forall (fun l => 0 <= l <= 50) lens.
Proof.
  destruct Hc as (_ & _ & _ & _ & Hinf).
  induction pre as [|p pre IH]; intros delay s rest Hag Hd Hlong Hq Hs.
  - cbn [app poll]. rewrite Hs.
    replace (WAIT_IO_COMPLETION c =? again) with false
      by (symmetry; apply Z.eqb_neq; congruence).
    rewrite andb_false_r. eexists. split; [reflexivity|].
    split; [reflexivity|]. repeat constructor;
      rewrite Z.gtb_ltb; destruct (Z.ltb_spec delay 50); lia.
  - apply Forall_cons in Hq as [[Hres Hcan] Hq].
    cbn [app poll]. rewrite Hcan, Hres, Z.eqb_refl, andb_true_r.
    cbn [length] in Hlong.
    assert (Hbig : 50 < delay) by lia.
    rewrite Z.gtb_ltb. replace (delay <? 50) with false
      by (symmetry; apply Z.ltb_ge; lia).
    assert (Hnz : negb ((if delay =? INFINITE c then delay else delay - 50)
                        =? 0) = true).
    { destruct (Z.eqb_spec delay (INFINITE c)); apply negb_true_iff, Z.eqb_neq; lia. }
    rewrite Hnz.
    destruct (IH (if delay =? INFINITE c then delay else delay - 50) s rest)
      as (lens & Hp & Hlen & Hall); auto.
    + destruct (Z.eqb_spec delay (INFINITE c)); lia.
    + destruct (Z.eqb_spec delay (INFINITE c)); [left; congruence | right; lia].
    + rewrite Hp. exists (50 :: lens). cbn. split; [reflexivity|].
      split; [lia|]. constructor; [lia | exact Hall].
Qed.

(** What [vlc_WaitForMultipleObjects] lets through. *)
Lemma wait_result_filtered IS count sl delay r lens :
  vlc_WaitForMultipleObjects c IS count sl delay = Returned (r, lens) ->
  r <> WAIT_FAILED c
  /\ ~ (WAIT_ABANDONED_0 c <= r <= WAIT_ABANDONED_0 c + count - 1)
  /\ (count = 0 -> r <> 0).
Proof.
  destruct Hc as (Hab & Hio & Hto & Hf & Hinf).
  unfold vlc_WaitForMultipleObjects.
  set (waited := if count =? 0 then _ else _).
  assert (Hz : count = 0 -> forall r' l', waited = Returned (r', l') -> r' <> 0).
  { intros -> r' l'. subst waited. cbn.
    destruct (if IS then _ else _) as [[r0 l0]| | | |]; try discriminate.
    intros [= <- <-]. destruct (Z.eqb_spec r0 0); lia. }
  destruct waited as [[r0 l0]| | | |]; try discriminate.
  destruct (Z.ltb_spec r0 (WAIT_ABANDONED_0 c));
    destruct (Z.ltb_spec (WAIT_ABANDONED_0 c + count - 1) r0); cbn;
    try discriminate;
    destruct (Z.eqb_spec r0 (WAIT_FAILED c)); try discriminate;
    intros [= <- <-]; (split; [assumption|]; split; [lia|]);
    intros Hcount; eapply Hz; eauto.
Qed.

End WaitFacts.

(** X11.  [vlc_WaitForMultipleObjects] never returns [WAIT_FAILED] nor the
    code of an abandoned object, and with no handle it never returns 0;
    [vlc_Sleep] never returns [WAIT_TIMEOUT]. *)
Theorem wait_results_filtered (c : Waits.wait_codes) (IS : bool)
    (count : Z) (sl : list Waits.slice) (delay r : Z) (lens : list Z) :
  Waits.sound c ->
  (Waits.vlc_WaitForMultipleObjects c IS count sl delay = Returned (r, lens) ->
   r <> Waits.WAIT_FAILED c
   /\ ~ (Waits.WAIT_ABANDONED_0 c <= r <= Waits.WAIT_ABANDONED_0 c + count - 1)
   /\ (count = 0 -> r <> 0))
  /\ (Waits.vlc_Sleep c IS sl delay = Returned (r, lens) ->
      r <> Waits.WAIT_TIMEOUT c /\ r <> Waits.WAIT_FAILED c).
Proof.
  intros Hc. split; [now apply wait_result_filtered|].
  unfold Waits.vlc_Sleep.
  destruct (Waits.vlc_WaitForMultipleObjects c IS 0 sl delay)
    as [[r0 l0]| | | |] eqn:Hw; try discriminate.
  destruct (wait_result_filtered c Hc _ _ _ _ _ _ Hw) as (Hf & _ & _).
  destruct Hc as (Hab & Hio & Hto & Hfl & Hinf).
  destruct (Z.eqb_spec r0 (Waits.WAIT_TIMEOUT c)); cbn;
    intros [= <- <-]; split; auto; lia.
Qed.

Lemma win32_sound : Waits.sound Waits.win32.
Proof. unfold Waits.sound; cbn; lia. Qed.

Lemma wait_results_filtered_witness :
  192 <> Waits.WAIT_TIMEOUT Waits.win32 /\ 192 <> Waits.WAIT_FAILED Waits.win32.
Proof.
  apply (wait_results_filtered Waits.win32 true 0
           [ {| Waits.os_result := 192; Waits.cancelled := false |} ]
           1000 192 [1000] win32_sound).
  reflexivity.
Defined.

(** X12.  In the build that polls, a sleep of a finite [delay] during which
    nothing happens is made of slices of at most 50 ms that add up to
    [delay] exactly, and [vlc_Sleep] returns 0. *)
Theorem vlc_Sleep_polls_whole_delay (c : Waits.wait_codes)
    (sl : list Waits.slice) (delay : Z) :
  Waits.sound c ->
  0 <= delay < Waits.INFINITE c -> sl <> [] ->
  Forall (Waits.quiet 0) sl ->
  delay <= 50 * Z.of_nat (length sl) ->
  exists lens,
    Waits.vlc_Sleep c false sl delay = Returned (0, lens)
    /\ fold_right Z.add 0 lens = delay
    /\ Forall (fun l => 0 <= l <= 50) lens.
Proof.
  intros Hc Hd Hne Hq Hlen.
  destruct (poll_quiet c 0 sl delay Hd Hne Hq Hlen) as (lens & Hp & Hsum & Hall).
  exists lens. split; [|split; assumption].
  destruct Hc as (Hab & Hio & Hto & Hfl & Hinf).
  unfold Waits.vlc_Sleep, Waits.vlc_WaitForMultipleObjects. cbn.
  rewrite Hp. cbn.
  replace (Waits.WAIT_TIMEOUT c <? Waits.WAIT_ABANDONED_0 c) with false
    by (symmetry; apply Z.ltb_ge; lia).
  replace (Waits.WAIT_ABANDONED_0 c + 0 - 1 <? Waits.WAIT_TIMEOUT c) with true
    by (symmetry; apply Z.ltb_lt; lia).
  cbn. replace (Waits.WAIT_TIMEOUT c =? Waits.WAIT_FAILED c) with false
    by (symmetry; apply Z.eqb_neq; lia).
  now rewrite Z.eqb_refl.
Qed.

Lemma vlc_Sleep_polls_whole_delay_witness :
  exists lens,
    Waits.vlc_Sleep Waits.win32 false
      (repeat {| Waits.os_result := 0; Waits.cancelled := false |} 3) 120
    = Returned (0, lens)
    /\ fold_right Z.add 0 lens = 120
    /\ Forall (fun l => 0 <= l <= 50) lens.
Proof.
  apply (vlc_Sleep_polls_whole_delay Waits.win32
           (repeat {| Waits.os_result := 0; Waits.cancelled := false |} 3) 120
           win32_sound).
  - cbn. lia.
  - discriminate.
  - repeat constructor.
  - cbn. lia.
Defined.

(** X13.  In the build that polls, a thread that finds itself cancelled
    after a slice leaves the wait at once with [WAIT_IO_COMPLETION], in
    [vlc_Sleep] and in [vlc_WaitForSingleObject] alike, even when the
    timeout is infinite: it has waited one slice of at most 50 ms per
    undisturbed slice before, and one more. *)
Theorem polled_wait_notices_cancellation (c : Waits.wait_codes)
    (pre rest : list Waits.slice) (s : Waits.slice) (delay : Z) :
  Waits.sound c ->
  0 <= delay <= Waits.INFINITE c ->
  delay = Waits.INFINITE c \/ 50 * Z.of_nat (length pre) < delay ->
  Waits.cancelled s = true ->
  (Forall (Waits.quiet 0) pre ->
   exists lens,
     Waits.vlc_Sleep c false (pre ++ s :: rest) delay
     = Returned (Waits.WAIT_IO_COMPLETION c, lens)
     /\ length lens = S (length pre)
     /\ Forall (fun l => 0 <= l <= 50) lens)
  /\ (Forall (Waits.quiet (Waits.WAIT_TIMEOUT c)) pre ->
      exists lens,
        Waits.vlc_WaitForSingleObject c false (pre ++ s :: rest) delay
        = Returned (Waits.WAIT_IO_COMPLETION c, lens)
        /\ length lens = S (length pre)
        /\ Forall (fun l => 0 <= l <= 50) lens).
Proof.
  intros Hc Hd Hlong Hs.
  pose proof Hc as (Hab & Hio & Hto & Hfl & Hinf).
  assert (Hpass : forall count, count = 0 \/ count = 1 ->
            negb ((Waits.WAIT_IO_COMPLETION c <? Waits.WAIT_ABANDONED_0 c)
                  || (Waits.WAIT_ABANDONED_0 c + count - 1
                      <? Waits.WAIT_IO_COMPLETION c)) = false).
  { intros count Hcount.
    replace (Waits.WAIT_ABANDONED_0 c + count - 1 <? Waits.WAIT_IO_COMPLETION c)
      with true by (symmetry; apply Z.ltb_lt; lia).
    now rewrite orb_true_r. }
  assert (Hnf : (Waits.WAIT_IO_COMPLETION c =? Waits.WAIT_FAILED c) = false)
    by (apply Z.eqb_neq; lia).
  assert (Hn0 : (Waits.WAIT_IO_COMPLETION c =? 0) = false)
    by (apply Z.eqb_neq; lia).
  assert (Hnt : (Waits.WAIT_IO_COMPLETION c =? Waits.WAIT_TIMEOUT c) = false)
    by (apply Z.eqb_neq; lia).
  split; intros Hq.
  - destruct (poll_cancelled c Hc 0 pre delay s rest) as (lens & Hp & Hl & Ha);
      auto; [lia|].
    exists lens. split; [|split; assumption].
    unfold Waits.vlc_Sleep, Waits.vlc_WaitForMultipleObjects. cbn.
    rewrite Hp. cbn. rewrite Hn0, (Hpass 0) by auto. cbn.
    now rewrite Hnf, Hnt.
  - destruct (poll_cancelled c Hc (Waits.WAIT_TIMEOUT c) pre delay s rest)
      as (lens & Hp & Hl & Ha); auto; [lia|].
    exists lens. split; [|split; assumption].
    unfold Waits.vlc_WaitForSingleObject, Waits.vlc_WaitForMultipleObjects. cbn.
    rewrite Hp. cbn. rewrite (Hpass 1) by auto. cbn.
    now rewrite Hnf.
Qed.

Lemma polled_wait_notices_cancellation_witness :
  exists lens,
    Waits.vlc_Sleep Waits.win32 false
      ([ {| Waits.os_result := 0; Waits.cancelled := false |} ]
       ++ {| Waits.os_result := 0; Waits.cancelled := true |} :: [])
      (Waits.INFINITE Waits.win32)
    = Returned (Waits.WAIT_IO_COMPLETION Waits.win32, lens)
    /\ length lens = 2%nat
    /\ Forall (fun l => 0 <= l <= 50) lens.
Proof.
  apply (polled_wait_notices_cancellation Waits.win32
           [ {| Waits.os_result := 0; Waits.cancelled := false |} ] []
           {| Waits.os_result := 0; Waits.cancelled := true |}
           (Waits.INFINITE Waits.win32) win32_sound).
  - cbn. lia.
  - left. reflexivity.
  - reflexivity.
  - repeat constructor.
Defined.

(** ** Semaphore wait, thread start and join *)

Section LifecycleFacts.

Import Cancel Lifecycle.

Variable cleanup_proc :
  Z -> (world -> outcome world) -> Z -> world -> outcome world.
Variable WAIT_IO_COMPLETION : Z.

Lemma testcancel_not_killed depth w th :
  self w = Some th -> killed th = false ->
  vlc_testcancel cleanup_proc depth w = Returned w.
Proof.
  intros Hs Hk.
  destruct depth; cbn; unfold testcancel_body, vlc_thread_self;
    rewrite Hs, Hk; destruct (killable th); reflexivity.
Qed.

Lemma cancellable_wait_due depth tries w th :
  self w = Some th -> killable th = true -> killed th = true ->
  (forall x, cancellable_wait cleanup_proc WAIT_IO_COMPLETION depth tries w
             <> Returned x)
  /\ forall w' n, cancellable_wait cleanup_proc WAIT_IO_COMPLETION depth tries w
                  = Exited (w', n) -> n = O.
Proof.
  intros Hs Hka Hkd.
  pose proof (testcancel_due cleanup_proc depth w th Hs Hka Hkd) as Hdue.
  destruct tries as [|t rest]; cbn; [split; discriminate|].
  destruct (vlc_testcancel cleanup_proc depth w) as [w1|w1| | |];
    [now contradiction (Hdue w1) | | | |]; split; try discriminate.
  now intros w' n [= _ <-].
Qed.

Lemma receive_cancel_masked t w : masked w -> masked (receive_cancel t w).
Proof.
  unfold masked, receive_cancel.
  destruct (self w) as [th|] eqn:Hs; [|now rewrite Hs].
  destruct (cancel_during t); cbn; [tauto | now rewrite Hs].
Qed.

Lemma receive_cancel_memory t w : memory (receive_cancel t w) = memory w.
Proof.
  unfold receive_cancel. destruct (self w); [|reflexivity].
  destruct (cancel_during t); reflexivity.
Qed.

Lemma cancellable_wait_masked depth pre :
  forall w t rest,
  masked w ->
  Forall (fun a => wait_code a = WAIT_IO_COMPLETION) pre ->
  wait_code t <> WAIT_IO_COMPLETION ->
  exists w',
    cancellable_wait cleanup_proc WAIT_IO_COMPLETION depth (pre ++ t :: rest) w
    = Returned (w', S (length pre))
    /\ masked w' /\ memory w' = memory w.
Proof.
  induction pre as [|p pre IH]; intros w t rest Hm Hpre Ht.
  - cbn. rewrite (testcancel_masked cleanup_proc depth w Hm).
    apply Z.eqb_neq in Ht. rewrite Ht.
    eexists. split; [reflexivity|].
    split; [now apply receive_cancel_masked | apply receive_cancel_memory].
  - apply Forall_cons in Hpre as [Hp Hpre].
    cbn. rewrite (testcancel_masked cleanup_proc depth w Hm).
    rewrite Hp, Z.eqb_refl.
    destruct (IH (receive_cancel p w) t rest
                (receive_cancel_masked p w Hm) Hpre Ht) as (w' & Hw & Hm' & Hmem).
    rewrite Hw. exists w'. split; [reflexivity|]. split; [exact Hm'|].
    now rewrite Hmem, receive_cancel_memory.
Qed.

End LifecycleFacts.

(** X14.  [vlc_sem_wait] is a cancellation point.  A cancellable thread
    that is already killed never returns from it and ends before waiting at
    all; a cancellable thread that a [vlc_cancel] reaches during a wait
    which then returns [WAIT_IO_COMPLETION] never returns from it either.
    A thread whose cancellation is disabled, or without a record, repeats
    the wait while it returns [WAIT_IO_COMPLETION] and returns after the
    first wait that does not, with its cancellation still disabled and its
    memory untouched. *)
Theorem vlc_sem_wait_cancellation_point
    (cleanup_proc : Z -> (Cancel.world -> outcome Cancel.world) -> Z
                    -> Cancel.world -> outcome Cancel.world)
    (WAIT_IO_COMPLETION : Z) (depth : nat) (w : Cancel.world) :
  (forall th tries,
     Cancel.self w = Some th -> Cancel.killable th = true ->
     Cancel.killed th = true ->
     (forall x, Lifecycle.vlc_sem_wait cleanup_proc WAIT_IO_COMPLETION depth
                  tries w <> Returned x)
     /\ forall w' n,
          Lifecycle.vlc_sem_wait cleanup_proc WAIT_IO_COMPLETION depth tries w
          = Exited (w', n) -> n = O)
  /\ (forall th t rest,
        Cancel.self w = Some th -> Cancel.killable th = true ->
        Lifecycle.cancel_during t = true ->
        Lifecycle.wait_code t = WAIT_IO_COMPLETION ->
        forall x, Lifecycle.vlc_sem_wait cleanup_proc WAIT_IO_COMPLETION depth
                    (t :: rest) w <> Returned x)
  /\ (forall pre t rest,
        Cancel.masked w ->
        Forall (fun a => Lifecycle.wait_code a = WAIT_IO_COMPLETION) pre ->
        Lifecycle.wait_code t <> WAIT_IO_COMPLETION ->
        exists w',
          Lifecycle.vlc_sem_wait cleanup_proc WAIT_IO_COMPLETION depth
            (pre ++ t :: rest) w
          = Returned (w', S (length pre))
          /\ Cancel.masked w' /\ Cancel.memory w' = Cancel.memory w).
Proof.
  split; [|split].
  - intros th tries Hs Hka Hkd. unfold Lifecycle.vlc_sem_wait.
    now apply (cancellable_wait_due _ _ _ _ _ th).
  - intros th t rest Hs Hka Hc Hio x. unfold Lifecycle.vlc_sem_wait.
    destruct (Cancel.killed th) eqn:Hkd.
    + now apply (cancellable_wait_due _ _ _ _ _ th).
    + cbn. rewrite (testcancel_not_killed cleanup_proc depth w th Hs Hkd).
      rewrite Hio, Z.eqb_refl.
      assert (Hs2 : Cancel.self (Lifecycle.receive_cancel t w)
                    = Some (Cancel.set_killed true th)).
      { unfold Lifecycle.receive_cancel. now rewrite Hs, Hc. }
      destruct (cancellable_wait_due cleanup_proc WAIT_IO_COMPLETION depth rest
                  _ _ Hs2 Hka eq_refl) as [Hnr _].
      destruct (Lifecycle.cancellable_wait _ _ _ _ _) as [[w3 n]|[w3 n]| | |];
        try discriminate.
      exfalso. exact (Hnr (w3, n) eq_refl).
  - intros pre t rest Hm Hpre Ht. unfold Lifecycle.vlc_sem_wait.
    now apply cancellable_wait_masked.
Qed.

Lemma vlc_sem_wait_cancellation_point_witness :
  exists w',
    Lifecycle.vlc_sem_wait Examples.marking_proc 192 0
      ([ {| Lifecycle.wait_code := 192; Lifecycle.cancel_during := false |} ]
       ++ {| Lifecycle.wait_code := 0; Lifecycle.cancel_during := false |}
          :: [])
      Examples.main_thread_world
    = Returned (w', 2%nat)
    /\ Cancel.masked w'
    /\ Cancel.memory w' = Cancel.memory Examples.main_thread_world.
Proof.
  apply (proj2 (proj2 (vlc_sem_wait_cancellation_point Examples.marking_proc
                         192 0 Examples.main_thread_world))).
  - exact I.
  - repeat constructor.
  - discriminate.
Defined.

(** X15.  The life of a thread.  [vlc_clone_attr] reports [ENOMEM] when the
    record cannot be allocated and the system's error when the thread
    cannot be started, leaving no record.  Otherwise the thread starts on a
    record that is not killed, not cancellable, without handlers and
    without wait address, and whose handle field is not written yet; on
    return the field is null exactly when the thread is detached.  The
    thread reads the field when it ends, as it was at the start or as it is
    on return, and releases the record exactly when it reads null: after
    the store that is the detached thread and no other, before the store it
    depends on what the allocated block held and not on whether the thread
    is detached.  If the record is left, an entry function that reaches a
    cancellation point and returns [r] leaves [r] in it, which is what
    [vlc_join] then returns to a joiner that is not cancelled; if a
    [vlc_cancel] reached the record first, the thread ends at the
    cancellation point and [vlc_join] returns null. *)
Theorem thread_result_reaches_join
    (cleanup_proc : Z -> (Cancel.world -> outcome Cancel.world) -> Z
                    -> Cancel.world -> outcome Cancel.world)
    (WAIT_IO_COMPLETION : Z) (depth : nat)
    (uninit h errno entry data priority r : Z)
    (detached IS_INTERRUPTIBLE : bool)
    (w joiner : Cancel.world) (t : Lifecycle.attempt) :
  Lifecycle.vlc_clone_attr false uninit h errno detached entry data priority
  = (Lifecycle.ENOMEM, None, [])
  /\ Lifecycle.vlc_clone_attr true uninit 0 errno detached entry data priority
     = (errno, None, [])
  /\ (h <> 0 ->
      Cancel.masked joiner ->
      Lifecycle.wait_code t <> WAIT_IO_COMPLETION ->
      exists c ev,
        Lifecycle.vlc_clone_attr true uninit h errno detached entry data
          priority
        = (0, Some c, ev)
        /\ Lifecycle.at_start c
           = {| Cancel.id := uninit; Cancel.killable := false;
                Cancel.killed := false; Cancel.cleaners := [];
                Cancel.entry := entry; Cancel.data := data;
                Cancel.wait_addr := 0 |}
        /\ Lifecycle.at_return c
           = Lifecycle.set_id (if detached then 0 else h)
               (Lifecycle.at_start c)
        /\ (Cancel.id (Lifecycle.at_return c) = 0 <-> detached = true)
        /\ forall seen,
             seen = Lifecycle.at_start c \/ seen = Lifecycle.at_return c ->
             (let left :=
                if Cancel.id seen =? 0 then None
                else Some (Cancel.set_data r (Cancel.set_killable true seen)) in
              Lifecycle.vlc_entry
                (Lifecycle.cancellation_point_then cleanup_proc depth r) seen w
              = Returned (left, Cancel.set_self None w)
              /\ forall th', left = Some th' ->
                   exists joiner',
                     Lifecycle.vlc_join cleanup_proc WAIT_IO_COMPLETION depth
                       [t] th' joiner
                     = Returned (r, joiner'))
             /\ (let killed_th := (Cancel.vlc_cancel IS_INTERRUPTIBLE seen
                                     (Cancel.memory w)).1.1 in
                 let left :=
                   if Cancel.id seen =? 0 then None
                   else Some (Cancel.set_data 0
                                (Cancel.set_killable true killed_th)) in
                 Lifecycle.vlc_entry
                   (Lifecycle.cancellation_point_then cleanup_proc depth r)
                   killed_th w
                 = Exited (left, {| Cancel.self := left;
                                    Cancel.memory := Cancel.memory w |})
                 /\ forall th', left = Some th' ->
                      exists joiner',
                        Lifecycle.vlc_join cleanup_proc WAIT_IO_COMPLETION
                          depth [t] th' joiner
                        = Returned (0, joiner'))).
Proof.
  split; [reflexivity|]. split; [reflexivity|].
  intros Hh Hm Ht.
  assert (Hjoin : forall th', exists joiner',
            Lifecycle.vlc_join cleanup_proc WAIT_IO_COMPLETION depth [t]
              th' joiner
            = Returned (Cancel.data th', joiner')).
  { intros th'. unfold Lifecycle.vlc_join.
    destruct (cancellable_wait_masked cleanup_proc WAIT_IO_COMPLETION depth
                [] joiner t [] Hm (List.Forall_nil _) Ht) as (j' & Hj & _).
    cbn [app] in Hj. rewrite Hj. eauto. }
  apply Z.eqb_neq in Hh.
  unfold Lifecycle.vlc_clone_attr. cbn [negb]. rewrite Hh.
  eexists _, _. split; [reflexivity|].
  cbn [Lifecycle.at_start Lifecycle.at_return].
  split; [reflexivity|]. split; [reflexivity|].
  split.
  { cbn. destruct detached; split; auto; try discriminate.
    intros Hz. apply Z.eqb_neq in Hh. contradiction. }
  intros seen Hseen.
  assert (Hfresh : Cancel.killed seen = false /\ Cancel.cleaners seen = []
                   /\ Cancel.wait_addr seen = 0)
    by (destruct Hseen as [-> | ->]; repeat split; reflexivity).
  destruct Hfresh as (Hkd & Hcl & Hwa).
  split.
  - split.
    + unfold Lifecycle.vlc_entry, Lifecycle.cancellation_point_then.
      erewrite testcancel_not_killed; [|reflexivity|exact Hkd].
      reflexivity.
    + intros th' Hl. destruct (Hjoin th') as (j' & Hj).
      exists j'. rewrite Hj. destruct (Cancel.id seen =? 0); [discriminate|].
      now injection Hl as <-.
  - split.
    + unfold Lifecycle.vlc_entry, Lifecycle.cancellation_point_then,
        Cancel.vlc_cancel.
      destruct seen as [i ka kd cl en da wa]. cbn in Hkd, Hcl, Hwa. subst.
      cbn [fst snd Cancel.wait_addr Cancel.set_killed Z.eqb].
      destruct depth; cbn; destruct (i =? 0); reflexivity.
    + intros th' Hl. destruct (Hjoin th') as (j' & Hj).
      exists j'. rewrite Hj. destruct (Cancel.id seen =? 0); [discriminate|].
      now injection Hl as <-.
Qed.

(** A joinable thread started with handle 7 on a block whose handle field
    held 5. *)
Lemma thread_result_reaches_join_witness :
  exists c ev,
    Lifecycle.vlc_clone_attr true 5 7 0 false 1 2 0 = (0, Some c, ev)
    /\ Cancel.id (Lifecycle.at_start c) = 5
    /\ Cancel.id (Lifecycle.at_return c) = 7.
Proof.
  destruct (thread_result_reaches_join Examples.marking_proc 192 0
              5 7 0 1 2 0 33 false true Examples.main_thread_world
              Examples.main_thread_world
              {| Lifecycle.wait_code := 0; Lifecycle.cancel_during := false |})
    as (_ & _ & H).
  destruct H as (c & ev & Hc & Hs & Hr & _).
  - discriminate.
  - exact I.
  - discriminate.
  - exists c, ev. split; [exact Hc|]. rewrite Hr, Hs. split; reflexivity.
Defined.

(** ** Clock: conversions, waiting for a date, the list of sources *)

Section ClockMoreFacts.

Import Clock ClockMore.

Lemma split_division counter freq k :
  0 <= counter -> 0 < freq -> 0 <= k ->
  Z.quot counter freq * k + Z.quot (Z.rem counter freq * k) freq
  = counter * k / freq
  /\ 0 <= Z.rem counter freq * k <= freq * k.
Proof.
  intros Hc Hf Hk.
  rewrite Z.rem_mod_nonneg, Z.quot_div_nonneg by lia.
  pose proof (Z.mod_pos_bound counter freq Hf) as Hm.
  rewrite Z.quot_div_nonneg by nia.
  split; [|nia].
  rewrite (Z.div_mod counter freq) at 3 by lia.
  replace ((freq * (counter / freq) + counter mod freq) * k)
    with (counter / freq * k * freq + counter mod freq * k) by ring.
  rewrite Z.div_add_l by lia. reflexivity.
Qed.

(** The split conversion, every intermediate result in 64 bits: exact when a
    [k]-fold of the frequency and the converted counter fit. *)
Lemma perf_conversion counter freq k :
  0 <= counter -> 0 < freq -> 0 <= k ->
  freq * k < 2 ^ 63 -> counter * k / freq < 2 ^ 63 ->
  to_mtime (to_mtime (Z.quot counter freq * k)
            + Z.quot (to_mtime (Z.rem counter freq * k)) freq)
  = counter * k / freq.
Proof.
  intros Hc Hf Hk Hfk Hfit.
  destruct (split_division counter freq k Hc Hf Hk) as [Hs Hb].
  assert (Hq : 0 <= Z.quot counter freq) by (apply Z.quot_pos; lia).
  assert (Hr : 0 <= Z.quot (Z.rem counter freq * k) freq)
    by (apply Z.quot_pos; lia).
  rewrite (to_mtime_small (Z.quot counter freq * k)) by nia.
  rewrite (to_mtime_small (Z.rem counter freq * k)) by lia.
  rewrite Hs. apply to_mtime_small. split; [|exact Hfit].
  apply Z.div_pos; nia.
Qed.

(** X16.  With the performance counter as source and a frequency of which
    a million-fold fits [mtime_t], [mdate] returns the counter converted to
    microseconds, rounded down, as long as that fits [mtime_t]: splitting
    the division loses nothing, the product made of the remainder stays
    below a million times the frequency and so within 64 bits, the globals
    are left alone, and a later reading of the counter never gives an
    earlier date. *)
Theorem mdate_perf_exact (p : platform) (r r' : readings) (st : clock_state)
    (counter counter' : Z) :
  mdate_selected st = mdate_perf -> 0 < clk_perf_freq st ->
  clk_perf_freq st * 1000000 < 2 ^ 63 ->
  performance_counter r = Some counter ->
  performance_counter r' = Some counter' ->
  0 <= counter <= counter' ->
  counter' * 1000000 / clk_perf_freq st < 2 ^ 63 ->
  mdate p r st = Returned (counter * 1000000 / clk_perf_freq st, st)
  /\ mdate p r' st = Returned (counter' * 1000000 / clk_perf_freq st, st)
  /\ counter * 1000000 / clk_perf_freq st
     <= counter' * 1000000 / clk_perf_freq st
  /\ 0 <= Z.rem counter (clk_perf_freq st) * 1000000 < 2 ^ 63.
Proof.
  intros Hsel Hf Hfk Hr Hr' Hc Hfit.
  assert (Hmono : counter * 1000000 / clk_perf_freq st
                  <= counter' * 1000000 / clk_perf_freq st)
    by (apply Z.div_le_mono; lia).
  assert (Hnn : 0 <= counter * 1000000 / clk_perf_freq st)
    by (apply Z.div_pos; lia).
  destruct (split_division counter (clk_perf_freq st) 1000000) as [_ Hb];
    try lia.
  assert (Hfit0 : counter * 1000000 / clk_perf_freq st < 2 ^ 63) by lia.
  unfold mdate, read_perf, with_state. rewrite Hsel, Hr, Hr'.
  rewrite !perf_conversion by lia. repeat split; auto; lia.
Qed.

Lemma mdate_perf_exact_witness :
  mdate Examples.desktop Examples.one_second
    {| mdate_selected := mdate_perf; clock_used_early := false;
       clk_perf_freq := 10000000 |}
  = Returned (10000000 * 1000000 / 10000000,
              {| mdate_selected := mdate_perf; clock_used_early := false;
                 clk_perf_freq := 10000000 |}).
Proof.
  apply (mdate_perf_exact Examples.desktop Examples.one_second
           Examples.one_second
           {| mdate_selected := mdate_perf; clock_used_early := false;
              clk_perf_freq := 10000000 |} 10000000 10000000);
    try reflexivity; cbn; lia.
Defined.

Lemma sleep_for_bounds deadline now :
  now < deadline ->
  1 <= sleep_for deadline now <= 2147483647
  /\ (sleep_for deadline now < 2147483647 ->
      1000 * (sleep_for deadline now - 1) < deadline - now
      <= 1000 * sleep_for deadline now).
Proof.
  intros Hlt. unfold sleep_for.
  pose proof (Z.div_mod (deadline - now + 999) 1000 ltac:(lia)) as Hdm.
  pose proof (Z.mod_pos_bound (deadline - now + 999) 1000 ltac:(lia)) as Hm.
  lia.
Qed.

Section Waiting.

Variable cleanup_proc :
  Z -> (Cancel.world -> outcome Cancel.world) -> Z -> Cancel.world
  -> outcome Cancel.world.

Lemma testcancel_undisturbed depth w :
  undisturbed w -> Cancel.vlc_testcancel cleanup_proc depth w = Returned w.
Proof.
  intros [Hm | (th & Hs & Hk)];
    [now apply testcancel_masked | now apply (testcancel_not_killed _ _ _ th)].
Qed.

Lemma mwait_loop_undisturbed depth deadline w pre :
  forall now later,
  undisturbed w ->
  Forall (fun t => 0 < deadline - t < 2 ^ 63 - 999) pre ->
  - 2 ^ 63 <= deadline - now <= 0 ->
  mwait_loop cleanup_proc depth (pre ++ now :: later) deadline w
  = Returned (w, map (sleep_for deadline) pre).
Proof.
  induction pre as [|t pre IH]; intros now later Hu Hpre Hnow.
  - cbn [app mwait_loop map]. rewrite to_mtime_id by lia.
    replace (deadline - now >? 0) with false; [reflexivity|].
    symmetry. rewrite Z.gtb_ltb. apply Z.ltb_ge. lia.
  - apply Forall_cons in Hpre as [Ht Hpre].
    cbn [app mwait_loop map]. rewrite (to_mtime_small (deadline - t)) by lia.
    rewrite (to_mtime_small (deadline - t + 999)) by lia.
    replace (deadline - t >? 0) with true
      by (symmetry; rewrite Z.gtb_ltb; apply Z.ltb_lt; lia).
    rewrite (testcancel_undisturbed depth w Hu), (IH now later Hu Hpre Hnow).
    do 3 f_equal. unfold sleep_for.
    rewrite Z.quot_div_nonneg by lia. rewrite Z.gtb_ltb.
    destruct (Z.ltb_spec 2147483647 ((deadline - t + 999) / 1000)); lia.
Qed.

End Waiting.

(** X17.  As long as the time that remains can be computed within
    [mtime_t] (the difference between the deadline and each reading of the
    clock fits, and 999 can be added to it), [mwait] on a thread that is
    not being cancelled reads the clock until it has reached the deadline
    and then returns, the thread unchanged; before each reading that is
    short of the deadline it sleeps the remaining time in milliseconds,
    rounded up and capped at [0x7fffffff], so never less than a millisecond
    and, unless capped, never less than what remains; it does not sleep at
    all when the deadline has passed.  A cancellable thread that is already
    killed never returns from [mwait] and does not sleep. *)
Theorem mwait_sleeps_until_deadline
    (cleanup_proc : Z -> (Cancel.world -> outcome Cancel.world) -> Z
                    -> Cancel.world -> outcome Cancel.world)
    (depth : nat) (deadline : Z) (w : Cancel.world)
    (pre later : list Z) (now : Z) :
  Forall (fun t => 0 < deadline - t < 2 ^ 63 - 999) pre ->
  - 2 ^ 63 <= deadline - now <= 0 ->
  (undisturbed w ->
   mwait cleanup_proc depth (pre ++ now :: later) deadline w
   = Returned (w, map (sleep_for deadline) pre)
   /\ Forall (fun t =>
                1 <= sleep_for deadline t <= 2147483647
                /\ (sleep_for deadline t < 2147483647 ->
                    1000 * (sleep_for deadline t - 1) < deadline - t
                    <= 1000 * sleep_for deadline t)) pre)
  /\ (forall th, Cancel.self w = Some th -> Cancel.killable th = true ->
        Cancel.killed th = true ->
        (forall x, mwait cleanup_proc depth (pre ++ now :: later) deadline w
                   <> Returned x)
        /\ forall w' sleeps,
             mwait cleanup_proc depth (pre ++ now :: later) deadline w
             = Exited (w', sleeps) -> sleeps = []).
Proof.
  intros Hpre Hnow. split.
  - intros Hu. split.
    + unfold mwait. rewrite (testcancel_undisturbed _ depth w Hu).
      now apply mwait_loop_undisturbed.
    + eapply Forall_impl; [exact Hpre|]. intros t Ht.
      cbn beta in Ht. apply sleep_for_bounds. lia.
  - intros th Hs Hka Hkd.
    pose proof (testcancel_due cleanup_proc depth w th Hs Hka Hkd) as Hdue.
    unfold mwait.
    destruct (Cancel.vlc_testcancel cleanup_proc depth w) as [w1|w1| | |];
      [now contradiction (Hdue w1) | | | |]; split; try discriminate.
    now intros w' sleeps [= _ <-].
Qed.

Lemma mwait_sleeps_until_deadline_witness :
  mwait Examples.marking_proc 0 ([0; 1500] ++ 2500 :: []) 2500
    Examples.main_thread_world
  = Returned (Examples.main_thread_world, map (sleep_for 2500) [0; 1500]).
Proof.
  apply (mwait_sleeps_until_deadline Examples.marking_proc 0 2500
           Examples.main_thread_world [0; 1500] [] 2500).
  - change (2 ^ 63) with 9223372036854775808. repeat constructor; lia.
  - change (2 ^ 63) with 9223372036854775808. lia.
  - left. exact I.
Defined.

(** X18.  [EnumClockSource] never lists more entries than its arrays hold,
    always starts with the automatic choice and ends with the performance
    counter and the system time; every value it lists except the empty one
    is a name [SelectClockSource] accepts on a system that has every
    facility, and installs a source for; and a name outside the five it
    knows makes [SelectClockSource] abort. *)
Theorem EnumClockSource_fits_and_is_accepted
    (winnt_lt_0601 winnt_lt_0600 : bool) (version : Z) (p : platform) :
  has_QueryUnbiasedInterruptTime p = true ->
  has_GetTickCount64 p = true ->
  timeGetDevCaps_ok p = true ->
  QueryPerformanceFrequency p <> None ->
  let listed :=
    EnumClockSource winnt_lt_0601 winnt_lt_0600 (VLC_WINSTORE_APP p) version in
  (3 <= length listed <= EnumClockSource_max)%nat
  /\ (exists middle,
        map fst listed
        = EmptyString :: middle ++ ["perf"%string; "wall"%string])
  /\ (forall value name, In (value, name) listed -> value <> EmptyString ->
        exists st, SelectClockSource p (Some value) initial_clock = Returned st
                   /\ mdate_selected st <> mdate_default)
  /\ (forall value,
        ~ In value ["interrupt"; "tick"; "multimedia"; "perf"; "wall"]%string ->
        SelectClockSource p (Some value) initial_clock = Aborted).
Proof.
  intros Hi Ht Hm Hq listed. subst listed.
  destruct (QueryPerformanceFrequency p) as [freq|] eqn:Hfreq; [|congruence].
  unfold EnumClockSource, EnumClockSource_max.
  split; [|split; [|split]].
  - destruct (negb winnt_lt_0601 || _), (negb winnt_lt_0600 || _),
      (negb (VLC_WINSTORE_APP p)); cbn; lia.
  - destruct (negb winnt_lt_0601 || _), (negb winnt_lt_0600 || _),
      (negb (VLC_WINSTORE_APP p)); cbn;
      solve [ eexists [_; _; _]; reflexivity | eexists [_; _]; reflexivity
            | eexists [_]; reflexivity | exists []; reflexivity ].
  - intros value name Hin Hne.
    assert (Hcases : value = "interrupt"%string \/ value = "tick"%string
                     \/ (value = "multimedia"%string
                         /\ VLC_WINSTORE_APP p = false)
                     \/ value = "perf"%string \/ value = "wall"%string).
    { destruct (negb winnt_lt_0601 || _), (negb winnt_lt_0600 || _),
        (VLC_WINSTORE_APP p); cbn in Hin;
        repeat match goal with
               | H : _ \/ _ |- _ => destruct H
               | H : (_, _) = (_, _) |- _ => injection H as <- <-
               | H : False |- _ => destruct H
               end; try congruence; tauto. }
    unfold SelectClockSource, initial_clock. cbn [mdate_selected
      clock_source_eqb negb clock_used_early].
    destruct Hcases as [-> | [-> | [[-> Hw] | [-> | ->]]]]; cbn;
      rewrite ?Hi, ?Ht, ?Hm, ?Hw, ?Hfreq; cbn; rewrite ?Hm;
      try (destruct (VLC_WINSTORE_APP p); cbn; rewrite ?Hfreq);
      eexists; (split; [reflexivity | discriminate]).
  - intros value Hnot. unfold SelectClockSource, initial_clock.
    cbn [mdate_selected clock_source_eqb negb clock_used_early].
    cbn in Hnot.
    repeat match goal with
           | |- context [String.eqb value ?s] =>
               destruct (String.eqb_spec value s);
                 [exfalso; subst; apply Hnot; tauto|]
           end.
    now rewrite andb_false_r.
Qed.

Lemma EnumClockSource_fits_and_is_accepted_witness :
  (3 <= length (EnumClockSource true true false 263) <= EnumClockSource_max)%nat.
Proof.
  apply (EnumClockSource_fits_and_is_accepted true true 263 Examples.desktop);
    try reflexivity. discriminate.
Defined.

End ClockMoreFacts.

(** ** Timers: the whole life of a timer, and the due time *)

Section TimerMoreFacts.

Import Timer.

(** X19.  [vlc_timer_create] fails with [ENOMEM] and changes nothing when
    the allocation fails; otherwise it returns 0 and the new record is
    unarmed.  Destroying the timer, whether it was never armed, armed, or
    disarmed again, gives back the state before its creation: the record is
    gone and no native timer of it is left in the queue. *)
Theorem timer_create_arm_destroy
    (st : timer_state) (p func data h now value interval : Z) (ab : bool) :
  p <> 0 -> timers st !! p = None ->
  h <> INVALID_HANDLE_VALUE -> queue st !! h = None ->
  let st1 := (vlc_timer_create p func data st).2 in
  vlc_timer_create 0 func data st = (ENOMEM, st)
  /\ (vlc_timer_create p func data st).1 = 0
  /\ timers st1 !! p
     = Some {| handle := INVALID_HANDLE_VALUE; func := func; data := data |}
  /\ vlc_timer_destroy false p st1 = Returned st
  /\ forall st2 ev,
       vlc_timer_schedule false now (Some h) p ab value interval st1
       = Returned (st2, ev) ->
       vlc_timer_destroy false p st2 = Returned st
       /\ forall st3 ev',
            vlc_timer_schedule false now None p ab 0 interval st2
            = Returned (st3, ev') ->
            vlc_timer_destroy false p st3 = Returned st.
Proof.
  intros Hp Hfresh Hh Hq st1. subst st1.
  apply Z.eqb_neq in Hp, Hh.
  assert (Hback : forall t, delete p (<[p := t]> (timers st)) = timers st)
    by (intros t; now apply delete_insert_id).
  unfold vlc_timer_create. rewrite Hp. cbn [fst snd].
  split; [reflexivity|]. split; [reflexivity|].
  split; [apply lookup_insert_eq|]. split.
  - unfold vlc_timer_destroy. cbn [timers queue].
    rewrite lookup_insert_eq. cbn. rewrite Hback. destruct st; reflexivity.
  - intros st2 ev. unfold vlc_timer_schedule, disarm. cbn [timers queue].
    rewrite lookup_insert_eq. cbn [handle]. rewrite Z.eqb_refl.
    destruct (value =? 0).
    + intros [= <- <-]. split.
      * unfold vlc_timer_destroy. cbn [timers queue].
        rewrite lookup_insert_eq. cbn. rewrite Hback. destruct st; reflexivity.
      * intros st3 ev'. cbn [timers queue]. rewrite lookup_insert_eq.
        cbn. intros [= <- <-].
        unfold vlc_timer_destroy. cbn [timers queue].
        rewrite lookup_insert_eq. cbn. rewrite Hback. destruct st; reflexivity.
    + destruct (if ab then _ else _) as [value1 ev2].
      intros [= <- <-]. split.
      * unfold vlc_timer_destroy. cbn [timers queue].
        rewrite lookup_insert_eq. cbn [handle set_handle negb andb].
        rewrite Hh. cbn [negb]. rewrite insert_insert_eq, Hback.
        rewrite delete_insert_id by exact Hq. destruct st; reflexivity.
      * intros st3 ev'. cbn [timers queue]. rewrite lookup_insert_eq.
        cbn [handle set_handle]. rewrite Hh. cbn [Z.eqb fst snd].
        intros [= <- <-].
        unfold vlc_timer_destroy. cbn [timers queue].
        rewrite lookup_insert_eq. cbn [handle set_handle negb andb].
        rewrite Z.eqb_refl. cbn [negb].
        rewrite !insert_insert_eq, Hback.
        rewrite delete_insert_id by exact Hq. destruct st; reflexivity.
Qed.

Lemma timer_create_arm_destroy_witness :
  vlc_timer_destroy false 1000
    (vlc_timer_create 1000 7 8 initial_timers).2
  = Returned initial_timers.
Proof.
  apply (timer_create_arm_destroy initial_timers 1000 7 8 11 0 50000 0 false);
    [discriminate | reflexivity | discriminate | reflexivity].
Defined.

(** X20.  For a delay and an interval whose milliseconds fit a [DWORD],
    and an absolute date whose distance from the clock's reading fits
    [mtime_t], the native timer [vlc_timer_schedule] creates is due after
    the requested delay in milliseconds, rounded up, so never before the
    delay has passed and less than a millisecond after; an absolute date
    that is not in the future gives a timer due at once; an interval of 0
    gives a one-shot timer and a longer one a period of at least a
    millisecond. *)
Theorem timer_due_time
    (st : timer_state) (p h now value interval : Z) (t : vlc_timer)
    (ab : bool) :
  timers st !! p = Some t ->
  value <> 0 ->
  0 <= interval -> interval + 999 < 2 ^ 32 * 1000 ->
  (if ab then value - now else value) + 999 < 2 ^ 32 * 1000 ->
  (if ab then - 2 ^ 63 <= value - now else 0 < value) ->
  let delay := if ab then Z.max 0 (value - now) else value in
  exists st' ev,
    vlc_timer_schedule false now (Some h) p ab value interval st
    = Returned (st', ev)
    /\ queue st' !! h
       = Some {| callback_arg := p;
                 due_time := (delay + 999) / 1000;
                 period := (interval + 999) / 1000 |}
    /\ (handle <$> timers st' !! p) = Some h
    /\ 1000 * ((delay + 999) / 1000 - 1) < delay <= 1000 * ((delay + 999) / 1000)
    /\ (interval = 0 <-> (interval + 999) / 1000 = 0).
Proof.
  intros Ht Hv Hi Hib Hvb Hrel delay.
  assert (Hd : 0 <= delay) by (subst delay; destruct ab; lia).
  assert (Hdb : delay + 999 < 2 ^ 32 * 1000)
    by (subst delay; destruct ab; change (2 ^ 32) with 4294967296 in *; lia).
  assert (Hdelay : (if ab then (if Clock.to_mtime (value - now) <? 0 then 0
                                else Clock.to_mtime (value - now))
                    else value) = delay).
  { subst delay. destruct ab; [|reflexivity].
    rewrite to_mtime_id
      by (change (2 ^ 32) with 4294967296 in *;
          change (2 ^ 63) with 9223372036854775808 in *; lia).
    destruct (Z.ltb_spec (value - now) 0); lia. }
  pose proof (Z.div_mod (delay + 999) 1000 ltac:(lia)) as Hdm.
  pose proof (Z.mod_pos_bound (delay + 999) 1000 ltac:(lia)) as Hm.
  pose proof (Z.div_mod (interval + 999) 1000 ltac:(lia)) as Hdm'.
  pose proof (Z.mod_pos_bound (interval + 999) 1000 ltac:(lia)) as Hm'.
  change (2 ^ 32) with 4294967296 in *.
  unfold vlc_timer_schedule. rewrite Ht.
  destruct (disarm false p t st) as [st1 ev1] eqn:Hdis.
  apply Z.eqb_neq in Hv. rewrite Hv.
  assert (Hval : (if ab
                  then (if Clock.to_mtime (value - now) <? 0 then 0
                        else Clock.to_mtime (value - now), [ReadMdate])
                  else (value, []))
                 = (delay, if ab then [ReadMdate] else [])).
  { rewrite <- Hdelay. destruct ab; reflexivity. }
  rewrite Hval.
  rewrite (to_mtime_small (delay + 999)), (to_mtime_small (interval + 999))
    by (change (2 ^ 63) with 9223372036854775808; lia).
  eexists _, _. split; [reflexivity|]. cbn [queue timers].
  rewrite !lookup_insert_eq. cbn.
  unfold to_DWORD. rewrite !Z.quot_div_nonneg by lia.
  change (2 ^ 32) with 4294967296.
  rewrite !Z.mod_small by lia.
  split; [reflexivity|]. split; [reflexivity|]. split; [lia|]. lia.
Qed.

Lemma timer_due_time_witness :
  exists st' ev,
    vlc_timer_schedule false 5000 (Some 11) 1000 true 3000 0 Examples.one_timer
    = Returned (st', ev)
    /\ queue st' !! 11
       = Some {| callback_arg := 1000;
                 due_time := (Z.max 0 (3000 - 5000) + 999) / 1000;
                 period := (0 + 999) / 1000 |}
    /\ (handle <$> timers st' !! 1000) = Some 11
    /\ 1000 * ((Z.max 0 (3000 - 5000) + 999) / 1000 - 1)
       < Z.max 0 (3000 - 5000)
       <= 1000 * ((Z.max 0 (3000 - 5000) + 999) / 1000)
    /\ (0 = 0 <-> (0 + 999) / 1000 = 0).
Proof.
  apply (timer_due_time Examples.one_timer 1000 11 5000 3000 0
           {| handle := INVALID_HANDLE_VALUE; func := 7; data := 8 |} true);
    try reflexivity; try discriminate; cbn; lia.
Defined.

End TimerMoreFacts.

(** ** Thread-specific variables: storing and reading back *)

Section TlsAccessFacts.

Import Tls.

(** X21.  When the index of a slot is allocated, [vlc_threadvar_set] stores
    the value, so that [vlc_threadvar_get] returns it afterwards and the
    other slots read as before, and it returns [ENOMEM]: the non-zero
    result of a successful [TlsSetValue] is what the code turns into the
    error code.  When the index is not allocated it returns 0 and leaves
    the whole state, the last-error status included, as it was. *)
Theorem threadvar_set_then_get
    (TlsGetValue_error TlsSetValue_error : Z -> bool -> Z -> Z)
    (key : vlc_threadvar) (value : Z) (s : os_state) :
  let after := vlc_threadvar_set TlsSetValue_error key value s in
  (is_Some (tls s !! id key) ->
   after.1 = ENOMEM
   /\ (vlc_threadvar_get TlsGetValue_error key after.2).1 = value
   /\ forall other, id other <> id key ->
        (vlc_threadvar_get TlsGetValue_error other after.2).1
        = (vlc_threadvar_get TlsGetValue_error other s).1)
  /\ (tls s !! id key = None ->
      after = (0, s)
      /\ (vlc_threadvar_get TlsGetValue_error key s).1 = 0).
Proof.
  cbn zeta. split.
  - intros [old Hold]. unfold vlc_threadvar_set, TlsSetValue. rewrite Hold.
    cbn. split; [reflexivity|]. rewrite !threadvar_get_spec. cbn.
    split; [now rewrite lookup_insert_eq|].
    intros other Hne. rewrite !threadvar_get_spec. cbn.
    rewrite lookup_insert_ne by congruence. reflexivity.
  - intros Hnone. unfold vlc_threadvar_set, TlsSetValue. rewrite Hnone. cbn.
    rewrite threadvar_get_spec, Hnone. split; [|reflexivity].
    destruct s; reflexivity.
Qed.

Lemma threadvar_set_then_get_witness :
  (vlc_threadvar_get (fun _ _ _ => 0) {| id := 5; destroy := 0 |}
     (vlc_threadvar_set (fun _ _ _ => 0) {| id := 5; destroy := 0 |} 42
        {| tls := {[ 5 := 0 ]}; last_error := 87 |}).2).1 = 42.
Proof.
  apply (proj1 (threadvar_set_then_get (fun _ _ _ => 0) (fun _ _ _ => 0)
                  {| id := 5; destroy := 0 |} 42
                  {| tls := {[ 5 := 0 ]}; last_error := 87 |})).
  exists 0. reflexivity.
Defined.

End TlsAccessFacts.

(** ** The list of thread-specific variables *)

Section TlsListFacts.

Import TlsList.

#[local] Set Warnings "-clear-no-such-hyp".

Lemma lookup_link k f (m : gmap Z node) b :
  link k f m !! b
  = if decide (k <> 0 /\ k = b) then f <$> m !! b else m !! b.
Proof.
  unfold link. destruct (Z.eqb_spec k 0) as [->|Hk].
  - rewrite decide_False by tauto. reflexivity.
  - destruct (decide (k = b)) as [->|Hne].
    + rewrite decide_True by tauto. apply lookup_alter_eq.
    + rewrite decide_False by tauto. now apply lookup_alter_ne.
Qed.

Lemma chain_frame m m' l : forall p nxt,
  (forall a, a ∈ l -> m' !! a = m !! a) ->
  chain m p nxt l -> chain m' p nxt l.
Proof.
  induction l as [|a l IH]; intros p nxt Hsame; cbn; [auto|].
  intros (-> & Ha & v & Hv & Hn & Hc).
  split; [reflexivity|]. split; [exact Ha|].
  exists v. rewrite Hsame by (left). split; [exact Hv|]. split; [exact Hn|].
  apply IH; [|exact Hc]. intros b Hb. apply Hsame. now right.
Qed.

Lemma chain_elem m l : forall p nxt a,
  chain m p nxt l -> a ∈ l -> a <> 0 /\ is_Some (m !! a).
Proof.
  induction l as [|b l IH]; intros p nxt a; cbn.
  - intros _ Hin. now apply elem_of_nil in Hin.
  - intros (-> & Hb & v & Hv & Hn & Hc) Hin.
    apply elem_of_cons in Hin as [->|Hin]; [eauto|].
    eapply IH; eauto.
Qed.

Lemma last_cons_default {A} (l : list A) : forall x d d',
  List.last (x :: l) d = List.last (x :: l) d'.
Proof.
  induction l as [|y l IH]; intros x d d'; [reflexivity|].
  change (List.last (y :: l) d = List.last (y :: l) d'). apply IH.
Qed.

Lemma last_cons_elem (l : list Z) : forall x d, List.last (x :: l) d ∈ x :: l.
Proof.
  induction l as [|y l IH]; intros x d; [set_solver|].
  change (List.last (y :: l) d ∈ x :: y :: l).
  specialize (IH y d). set_solver.
Qed.

(** The links of a member of the list. *)
Lemma chain_links m l1 : forall p nxt a l2 v,
  chain m p nxt (l1 ++ a :: l2) -> m !! a = Some v ->
  next v = List.last l1 nxt /\ prev v = hd 0 l2 /\ chain m (prev v) a l2.
Proof.
  induction l1 as [|b l1 IH]; intros p nxt a l2 v; cbn [app chain].
  - intros (-> & Ha & v' & Hv' & Hn & Hc) Hv.
    rewrite Hv in Hv'. injection Hv' as <-.
    split; [exact Hn|]. split; [|exact Hc].
    destruct l2 as [|c l2]; cbn in *; [exact Hc | tauto].
  - intros (-> & Hb & vb & Hvb & Hn & Hc) Hv.
    destruct (IH _ _ _ _ _ Hc Hv) as (Hnext & Hprev & Htail).
    split; [|split; assumption].
    rewrite Hnext. destruct l1 as [|z l1]; [reflexivity|].
    change (List.last (b :: z :: l1) nxt) with (List.last (z :: l1) nxt).
    apply last_cons_default.
Qed.

Section Unlink.

Variables (m : gmap Z node) (a : Z) (v : node).
Hypothesis Hv : m !! a = Some v.

Local Abbreviation unlinked := (TlsList.unlinked m a v).

Lemma unlinked_other b :
  b <> a -> b <> prev v -> b <> next v -> unlinked !! b = m !! b.
Proof.
  intros Ha Hp Hn. unfold TlsList.unlinked.
  rewrite lookup_delete_ne by congruence.
  rewrite !lookup_link, !decide_False by (intros [_ ?]; congruence).
  reflexivity.
Qed.

Lemma unlinked_tail l2 :
  chain m (prev v) a l2 -> NoDup (a :: l2) -> next v ∉ l2 ->
  chain unlinked (prev v) (next v) l2.
Proof.
  destruct l2 as [|c l2]; cbn [chain]; [auto|].
  intros (Hp & Hc & vc & Hvc & Hn & Hrest) Hnd Hnext.
  apply NoDup_cons in Hnd as [Ha Hnd]. apply NoDup_cons in Hnd as [Hcl Hnd].
  apply not_elem_of_cons in Ha as [Hac Hal].
  apply not_elem_of_cons in Hnext as [Hnc Hnl].
  split; [exact Hp|]. split; [exact Hc|].
  exists (set_next (next v) vc). split; [|split; [reflexivity|]].
  - unfold TlsList.unlinked. rewrite lookup_delete_ne by congruence.
    rewrite lookup_link, decide_False by (intros [_ ?]; congruence).
    rewrite lookup_link, decide_True by (split; congruence).
    now rewrite Hvc.
  - cbn [prev set_next]. apply (chain_frame m); [|exact Hrest].
    intros b Hb. apply unlinked_other; congruence.
Qed.

Lemma unlinked_front l1 : forall p nxt l2,
  l1 <> [] -> NoDup (l1 ++ a :: l2) -> nxt ∉ l1 ++ a :: l2 ->
  chain m p nxt (l1 ++ a :: l2) ->
  chain unlinked p nxt (l1 ++ l2).
Proof.
  induction l1 as [|b l1 IH]; intros p nxt l2 Hne Hnd Hnxt Hc; [congruence|].
  destruct (chain_links m (b :: l1) p nxt a l2 v Hc Hv) as (Hnext & Hprev & Htail).
  cbn [app chain] in Hc. destruct Hc as (-> & Hb & vb & Hvb & Hn & Hc).
  cbn [app] in Hnd. apply NoDup_cons in Hnd as [Hbl Hnd].
  pose proof Hnd as Hnd'. apply NoDup_app in Hnd' as (_ & Hsep & Hnd2).
  assert (Hba : b <> a) by (intros ->; apply Hbl; set_solver).
  assert (Hbp : b <> prev v).
  { rewrite Hprev. destruct l2 as [|c l2]; cbn; [exact Hb|].
    intros ->. apply Hbl. set_solver. }
  cbn [app chain]. split; [reflexivity|]. split; [exact Hb|].
  destruct l1 as [|c l1].
  - cbn in Hnext. exists (set_prev (prev v) vb).
    split; [|split; [exact Hn|]].
    + unfold TlsList.unlinked. rewrite lookup_delete_ne by congruence.
      rewrite lookup_link, decide_True by (split; congruence).
      rewrite lookup_link, decide_False by (intros [_ ?]; congruence).
      now rewrite Hvb.
    + cbn [app prev set_prev]. rewrite <- Hnext.
      apply unlinked_tail; [exact Htail | exact Hnd2|].
      rewrite Hnext. intros Hin. apply Hbl. set_solver.
  - assert (Hbn : b <> next v).
    { rewrite Hnext. intros Heq. apply Hbl.
      assert (List.last (b :: c :: l1) nxt ∈ c :: l1) as Hin
        by apply (last_cons_elem l1 c nxt).
      rewrite <- Heq in Hin. set_solver. }
    exists vb. split; [|split; [exact Hn|]].
    + rewrite unlinked_other by congruence. exact Hvb.
    + apply IH; [discriminate | exact Hnd | exact Hbl | exact Hc].
Qed.

Lemma unlinked_slot b : b <> a -> slot_of unlinked b = slot_of m b.
Proof.
  intros Hb. unfold slot_of, TlsList.unlinked.
  rewrite lookup_delete_ne by congruence. rewrite !lookup_link.
  repeat case_decide; destruct (m !! b) as [[]|]; reflexivity.
Qed.

End Unlink.

(** X22.  [vlc_threadvar_create] reports the allocator's error or [EAGAIN]
    and leaves the list alone when the memory or the storage index cannot
    be had; otherwise it returns 0 and the new variable is the first one met
    from [vlc_threadvar_last], before the others in their order, with the
    links of both directions right; and deleting it again gives back the
    registry exactly as it was. *)
Theorem vlc_threadvar_create_links
    (r : registry) (l : list Z) (p errno i destr : Z) :
  well_formed r l -> p <> 0 -> nodes r !! p = None ->
  vlc_threadvar_create 0 errno (Some i) destr r = (errno, r)
  /\ vlc_threadvar_create p errno None destr r = (EAGAIN, r)
  /\ let created := vlc_threadvar_create p errno (Some i) destr r in
     created.1 = 0
     /\ well_formed created.2 (p :: l)
     /\ slots created.2 (p :: l)
        = Some {| Tls.id := i; Tls.destroy := destr |} :: slots r l
     /\ vlc_threadvar_delete p created.2 = Returned r.
Proof.
  intros [Hc Hnd] Hp Hfresh.
  assert (Hpl : p ∉ l).
  { intros Hin. destruct (chain_elem _ _ _ _ _ Hc Hin) as [_ [v Hv]]. congruence. }
  unfold vlc_threadvar_create. apply Z.eqb_neq in Hp as Hpb.
  split; [reflexivity|]. rewrite Hpb. split; [reflexivity|].
  cbn [fst snd prev]. split; [reflexivity|].
  set (var := {| id := i; destroy := destr;
                 prev := vlc_threadvar_last r; next := 0 |}).
  set (m' := link (vlc_threadvar_last r) (set_next p) (<[p := var]> (nodes r))).
  assert (Hmp : m' !! p = Some var).
  { unfold m'. rewrite lookup_link, decide_False.
    - apply lookup_insert_eq.
    - intros [Hz Heq]. destruct l as [|a l']; cbn in Hc; [congruence|].
      destruct Hc as (Hla & _ & v & Hv & _). congruence. }
  split; [|split].
  - split; [|apply NoDup_cons; split; assumption].
    cbn [chain nodes vlc_threadvar_last]. split; [reflexivity|].
    split; [exact Hp|]. exists var. split; [exact Hmp|]. split; [reflexivity|].
    cbn [prev var]. destruct l as [|a l']; cbn [chain] in *; [exact Hc|].
    destruct Hc as (Hla & Ha & v & Hv & Hn & Hrest).
    apply not_elem_of_cons in Hpl as [Hpa Hpl'].
    apply NoDup_cons in Hnd as [Hal Hnd'].
    split; [exact Hla|]. split; [exact Ha|].
    exists (set_next p v). split; [|split; [reflexivity|]].
    + unfold m'. rewrite lookup_link, decide_True by (split; congruence).
      rewrite lookup_insert_ne by congruence. now rewrite Hv.
    + cbn [prev set_next]. apply (chain_frame (nodes r)); [|exact Hrest].
      intros b Hb. unfold m'. rewrite lookup_link, decide_False.
      * apply lookup_insert_ne. intros ->. contradiction.
      * intros [_ Heq]. subst b. rewrite Hla in Hb. contradiction.
  - unfold slots. cbn [map nodes]. fold m'. f_equal.
    + unfold slot_of. now rewrite Hmp.
    + apply map_ext_in. intros b Hb. apply list_elem_of_In in Hb.
      unfold slot_of, m'. rewrite lookup_link.
      rewrite lookup_insert_ne by (intros ->; contradiction).
      case_decide; destruct (nodes r !! b) as [[]|]; reflexivity.
  - unfold vlc_threadvar_delete. cbn [nodes vlc_threadvar_last]. fold m'.
    rewrite Hmp. cbn [prev next var].
    assert (Hm1 : link (vlc_threadvar_last r) (set_next 0) m' !! p = Some var).
    { rewrite lookup_link, decide_False; [exact Hmp|].
      intros [Hz Heq]. destruct l as [|a l']; cbn in Hc; [congruence|].
      destruct Hc as (Hla & _ & v & Hv & _). congruence. }
    rewrite Hm1. cbn [prev next var Z.eqb]. unfold link at 1. cbn [Z.eqb].
    destruct r as [m last]. cbn [nodes vlc_threadvar_last] in *.
    f_equal. f_equal. apply map_eq. intros b.
    destruct (decide (b = p)) as [->|Hbp];
      [now rewrite lookup_delete_eq|].
    rewrite lookup_delete_ne by congruence. unfold m'.
    rewrite !lookup_link, lookup_insert_ne by congruence.
    case_decide as Hd; [|reflexivity]. destruct Hd as [Hz <-].
    destruct l as [|a l']; cbn in Hc; [congruence|].
    destruct Hc as (Hla & _ & v & Hv & Hn & _). subst a.
    rewrite Hv. cbn. f_equal. destruct v; cbn in *. now subst.
Qed.

Lemma vlc_threadvar_create_links_witness :
  vlc_threadvar_delete 800
    (vlc_threadvar_create 800 12 (Some 3) 1 empty_registry).2
  = Returned empty_registry.
Proof.
  apply (vlc_threadvar_create_links empty_registry [] 800 12 3 1).
  - split; [reflexivity | constructor].
  - discriminate.
  - reflexivity.
Defined.

(** X23.  [vlc_threadvar_delete] of a variable of the list, wherever it
    stands, takes exactly that variable out: the others are met from
    [vlc_threadvar_last] in the same order as before, with the links of
    both directions right, they keep their index and destructor, and the
    memory of the deleted variable is released. *)
Theorem vlc_threadvar_delete_unlinks
    (r : registry) (l1 l2 : list Z) (a : Z) :
  well_formed r (l1 ++ a :: l2) ->
  exists r',
    vlc_threadvar_delete a r = Returned r'
    /\ well_formed r' (l1 ++ l2)
    /\ nodes r' !! a = None
    /\ slots r' (l1 ++ l2) = slots r l1 ++ slots r l2.
Proof.
  intros [Hc Hnd].
  assert (Hin : a ∈ l1 ++ a :: l2) by set_solver.
  destruct (chain_elem _ _ _ _ _ Hc Hin) as [Ha [v Hv]].
  destruct (chain_links _ _ _ _ _ _ _ Hc Hv) as (Hnext & Hprev & Htail).
  pose proof Hnd as Hnd'. apply NoDup_app in Hnd' as (Hnd1 & Hsep & Hnd2).
  assert (Hpa : prev v <> a).
  { rewrite Hprev. destruct l2 as [|c l2]; cbn; [congruence|].
    apply NoDup_cons in Hnd2 as [Hn _]. set_solver. }
  assert (Hzero : (0 : Z) ∉ l1 ++ a :: l2).
  { intros H0. now destruct (chain_elem _ _ _ _ _ Hc H0). }
  unfold vlc_threadvar_delete. rewrite Hv.
  rewrite lookup_link, decide_False by (intros [_ ?]; congruence).
  rewrite Hv. fold (unlinked (nodes r) a v).
  eexists. split; [reflexivity|]. cbn [nodes vlc_threadvar_last].
  assert (Hnd12 : NoDup (l1 ++ l2)).
  { apply NoDup_app. apply NoDup_cons in Hnd2 as [_ Hnd2].
    split; [exact Hnd1|]. split; [|exact Hnd2].
    intros x Hx Hx2. apply (Hsep x Hx). set_solver. }
  split; [split; [|exact Hnd12]|split].
  - destruct l1 as [|b l1].
    + cbn [app List.last] in *.
      assert (Hnl : next v ∉ l2) by (rewrite Hnext; set_solver).
      pose proof (unlinked_tail (nodes r) a v l2 Htail Hnd Hnl) as Hu.
      rewrite Hnext in Hu |- *. exact Hu.
    + assert (Hnz : next v <> 0).
      { rewrite Hnext. intros Hz. apply Hzero.
        assert (List.last (b :: l1) 0 ∈ b :: l1) as Hl
          by apply last_cons_elem.
        rewrite Hz in Hl. set_solver. }
      apply Z.eqb_neq in Hnz. rewrite Hnz.
      apply unlinked_front; [exact Hv | discriminate | exact Hnd | exact Hzero
                            | exact Hc].
  - apply lookup_delete_eq.
  - unfold slots. rewrite <- map_app. apply map_ext_in. intros b Hb.
    apply unlinked_slot. intros ->. apply list_elem_of_In in Hb.
    apply elem_of_app in Hb as [Hb|Hb].
    + apply (Hsep a Hb). set_solver.
    + apply NoDup_cons in Hnd2 as [Hn _]. contradiction.
Qed.

Lemma vlc_threadvar_delete_unlinks_witness :
  exists r',
    vlc_threadvar_delete 800
      (vlc_threadvar_create 800 12 (Some 3) 1 empty_registry).2
    = Returned r'
    /\ well_formed r' ([] ++ [])
    /\ nodes r' !! 800 = None
    /\ slots r' ([] ++ [])
       = slots (vlc_threadvar_create 800 12 (Some 3) 1 empty_registry).2 []
         ++ slots (vlc_threadvar_create 800 12 (Some 3) 1 empty_registry).2 [].
Proof.
  apply (vlc_threadvar_delete_unlinks
           (vlc_threadvar_create 800 12 (Some 3) 1 empty_registry).2 [] [] 800).
  split; [|repeat constructor; set_solver].
  cbn. split; [reflexivity|]. split; [discriminate|].
  eexists. split; [reflexivity|]. split; reflexivity.
Defined.

End TlsListFacts.

(** ** The exit scan, with destructors that leave the slots alone *)

Section ExitScanOnce.

Import Tls.

Variables TlsGetValue_error TlsSetValue_error : Z -> bool -> Z -> Z.
Variable destroy_proc : Z -> Z -> tls_world -> tls_world.

Hypothesis Hframe : forall f v w,
  vlc_threadvar_last (destroy_proc f v w) = vlc_threadvar_last w
  /\ tls (os (destroy_proc f v w)) = tls (os w).

Lemma find_split {A} (f : A -> bool) (l : list A) (x : A) :
  List.find f l = Some x ->
  exists l1 l2, l = l1 ++ x :: l2 /\ List.filter f l1 = [] /\ f x = true.
Proof.
  induction l as [|a l IH]; [discriminate|]. cbn.
  destruct (f a) eqn:Hfa.
  - intros [= <-]. exists [], l. auto.
  - intros Hfind. destruct (IH Hfind) as (l1 & l2 & -> & Hl1 & Hx).
    exists (a :: l1), l2. cbn. rewrite Hfa. auto.
Qed.

Lemma filter_dirty_after w key l :
  dirty w key = true ->
  Forall (fun k => id k <> id key) l ->
  let w3 := destroy_proc (destroy key) (slot_value w (id key))
              (set_os (vlc_threadvar_set TlsSetValue_error key 0 (os w)).2 w) in
  List.filter (dirty w3) l = List.filter (dirty w) l.
Proof.
  intros Hd Hl w3. induction l as [|k l IH]; [reflexivity|].
  apply Forall_cons in Hl as [Hk Hl]. cbn.
  assert (Hsame : dirty w3 k = dirty w k).
  { unfold dirty, slot_value, w3. rewrite (proj2 (Hframe _ _ _)). cbn [set_os os].
    destruct (dirty_true _ _ Hd) as (_ & _ & Hv).
    rewrite (threadvar_set_null _ _ _ _ Hv).
    now rewrite lookup_insert_ne by congruence. }
  rewrite Hsame, (IH Hl). reflexivity.
Qed.

Lemma cleanup_once rounds :
  forall w,
  NoDup (map id (vlc_threadvar_last w)) ->
  (length (List.filter (dirty w) (vlc_threadvar_last w)) < rounds)%nat ->
  let result := vlc_threadvars_cleanup TlsGetValue_error TlsSetValue_error
                  destroy_proc rounds w in
  result.1.1 = true
  /\ map (fun c => (call_key c, call_value c)) result.2
     = map (fun k => (k, slot_value w (id k)))
           (List.filter (dirty w) (vlc_threadvar_last w)).
Proof.
  induction rounds as [|n IH]; intros w Hnd Hlen; [lia|].
  cbn zeta. rewrite cleanup_round.
  destruct (List.find _ _) as [key|] eqn:Hfind.
  - destruct (find_split _ _ _ Hfind) as (l1 & l2 & Hl & Hl1 & Hd).
    set (w3 := destroy_proc (destroy key) (slot_value w (id key))
                 (set_os (vlc_threadvar_set TlsSetValue_error key 0 (os w)).2 w)).
    assert (Hlist : vlc_threadvar_last w3 = vlc_threadvar_last w)
      by (unfold w3; now rewrite (proj1 (Hframe _ _ _))).
    rewrite Hl, map_app in Hnd. cbn [map] in Hnd.
    apply NoDup_app in Hnd as (Hnd1 & Hsep & Hnd2).
    apply NoDup_cons in Hnd2 as [Hk2 Hnd2].
    assert (Hne1 : Forall (fun k => id k <> id key) l1).
    { apply Forall_forall. intros k Hk Heq. apply (Hsep (id k)).
      - apply list_elem_of_fmap. eauto.
      - rewrite Heq. left. }
    assert (Hne2 : Forall (fun k => id k <> id key) l2).
    { apply Forall_forall. intros k Hk Heq. apply Hk2.
      rewrite <- Heq. apply list_elem_of_fmap. eauto. }
    assert (Hkey : dirty w3 key = false).
    { unfold dirty, slot_value, w3. rewrite (proj2 (Hframe _ _ _)).
      cbn [set_os os]. destruct (dirty_true _ _ Hd) as (_ & _ & Hv).
      rewrite (threadvar_set_null _ _ _ _ Hv), lookup_insert_eq. reflexivity. }
    assert (Hf3 : List.filter (dirty w3) (vlc_threadvar_last w3)
                  = List.filter (dirty w) l2).
    { rewrite Hlist, Hl, List.filter_app. cbn [List.filter]. rewrite Hkey.
      pose proof (filter_dirty_after w key l1 Hd Hne1) as E1.
      pose proof (filter_dirty_after w key l2 Hd Hne2) as E2.
      cbn zeta in E1, E2. fold w3 in E1, E2.
      now rewrite E1, Hl1, E2. }
    assert (Hfw : List.filter (dirty w) (vlc_threadvar_last w)
                  = key :: List.filter (dirty w) l2).
    { rewrite Hl, List.filter_app. cbn [List.filter]. now rewrite Hl1, Hd. }
    specialize (IH w3).
    rewrite Hf3 in IH. rewrite Hfw in Hlen |- *. cbn [length] in Hlen.
    destruct IH as [IHfin IHcalls].
    + rewrite Hlist, Hl, map_app. cbn [map].
      apply NoDup_app. split; [exact Hnd1|]. split; [exact Hsep|].
      apply NoDup_cons. split; assumption.
    + lia.
    + unfold w3 in *. clear w3.
      destruct (vlc_threadvars_cleanup _ _ _ n _) as [[fin w'] calls].
      cbn [fst snd] in *. split; [exact IHfin|].
      cbn [map call_key call_value]. f_equal. rewrite IHcalls.
      apply map_ext_in. intros k Hk. f_equal.
      apply List.filter_In in Hk as [Hk _].
      rewrite Forall_forall in Hne2.
      specialize (Hne2 k ltac:(now apply list_elem_of_In)).
      unfold slot_value. rewrite (proj2 (Hframe _ _ _)). cbn [set_os os].
      destruct (dirty_true _ _ Hd) as (_ & _ & Hv).
      rewrite (threadvar_set_null _ _ _ _ Hv).
      now rewrite lookup_insert_ne by congruence.
  - cbn [fst snd map]. split; [reflexivity|].
    assert (Hnone : List.filter (dirty w) (vlc_threadvar_last w) = []).
    { clear -Hfind. induction (vlc_threadvar_last w) as [|a l IHl];
        [reflexivity|]. cbn in *. destruct (dirty w a); [discriminate|auto]. }
    now rewrite Hnone.
Qed.

End ExitScanOnce.

(** X24.  When no two slots of the list share a storage index and the
    destructors change neither the list nor any slot's value, the exit scan
    ends within one pass per slot plus one and has then called the
    destructor of each slot that held a non-null value and has a
    destructor exactly once, with that value, in the order of the list from
    [vlc_threadvar_last]; no other destructor is called. *)
Theorem threadvars_cleanup_once
    (TlsGetValue_error TlsSetValue_error : Z -> bool -> Z -> Z)
    (destroy_proc : Z -> Z -> Tls.tls_world -> Tls.tls_world)
    (rounds : nat) (w : Tls.tls_world) :
  (forall f v w0,
     Tls.vlc_threadvar_last (destroy_proc f v w0) = Tls.vlc_threadvar_last w0
     /\ Tls.tls (Tls.os (destroy_proc f v w0)) = Tls.tls (Tls.os w0)) ->
  NoDup (map Tls.id (Tls.vlc_threadvar_last w)) ->
  (length (Tls.vlc_threadvar_last w) < rounds)%nat ->
  let result := Tls.vlc_threadvars_cleanup TlsGetValue_error TlsSetValue_error
                  destroy_proc rounds w in
  result.1.1 = true
  /\ map (fun c => (Tls.call_key c, Tls.call_value c)) result.2
     = map (fun k => (k, Tls.slot_value w (Tls.id k)))
           (List.filter (Tls.dirty w) (Tls.vlc_threadvar_last w)).
Proof.
  intros Hframe Hnd Hlen. apply cleanup_once; [exact Hframe | exact Hnd|].
  pose proof (filter_length_le (fun _ => true) (Tls.dirty w)
                (Tls.vlc_threadvar_last w) (fun _ _ _ => eq_refl)) as Hle.
  rewrite filter_all in Hle. lia.
Qed.

Lemma threadvars_cleanup_once_witness :
  (Tls.vlc_threadvars_cleanup (fun _ _ _ => 0) (fun _ _ _ => 0)
     Examples.free_proc 4 Examples.exiting_thread).1.1 = true.
Proof.
  apply (threadvars_cleanup_once (fun _ _ _ => 0) (fun _ _ _ => 0)
           Examples.free_proc 4 Examples.exiting_thread).
  - intros f v w0. split; reflexivity.
  - cbn.
    repeat (apply NoDup_cons_2; [rewrite ?elem_of_cons, elem_of_nil; lia|]).
    apply NoDup_nil_2.
  - cbn. lia.
Defined.

(** ** The renderer's clock *)

(** X25.  [GetQPC] aborts when the counter cannot be read; otherwise, for
    a frequency of which ten million times fits 64 bits, it returns the
    counter converted to units of 100 ns, rounded down, as long as that
    fits 64 bits, a later reading never giving an earlier time; and
    that time divided by the ten units of a microsecond is the date [mdate]
    returns for the same counter when the performance counter is its
    source. *)
Theorem GetQPC_exact (p : Clock.platform) (r : Clock.readings)
    (st : Clock.clock_state) (counter counter' : Z) :
  Clock.mdate_selected st = Clock.mdate_perf ->
  0 < Clock.clk_perf_freq st ->
  Clock.clk_perf_freq st * 10000000 < 2 ^ 63 ->
  Clock.performance_counter r = Some counter ->
  0 <= counter <= counter' ->
  counter' * 10000000 / Clock.clk_perf_freq st < 2 ^ 63 ->
  Wasapi.GetQPC (Clock.clk_perf_freq st) None = Aborted
  /\ Wasapi.GetQPC (Clock.clk_perf_freq st) (Some counter)
     = Returned (counter * 10000000 / Clock.clk_perf_freq st)
  /\ Wasapi.GetQPC (Clock.clk_perf_freq st) (Some counter')
     = Returned (counter' * 10000000 / Clock.clk_perf_freq st)
  /\ counter * 10000000 / Clock.clk_perf_freq st
     <= counter' * 10000000 / Clock.clk_perf_freq st
  /\ Clock.mdate p r st
     = Returned (counter * 10000000 / Clock.clk_perf_freq st
                 / (10000000 / Clock.CLOCK_FREQ), st).
Proof.
  intros Hsel Hf Hfk Hr Hc Hfit.
  set (f := Clock.clk_perf_freq st) in *.
  assert (Hmono : counter * 10000000 / f <= counter' * 10000000 / f)
    by (apply Z.div_le_mono; lia).
  assert (Hnn : 0 <= counter * 10000000 / f) by (apply Z.div_pos; lia).
  assert (Hten : counter * 10000000 / f / 10 = counter * 1000000 / f).
  { rewrite Z.div_div by lia. rewrite (Z.mul_comm f 10).
    rewrite <- Z.div_div by lia.
    replace (counter * 10000000) with (counter * 1000000 * 10) by ring.
    now rewrite Z.div_mul by lia. }
  assert (Hsmall : counter * 1000000 / f < 2 ^ 63).
  { rewrite <- Hten.
    assert (counter * 10000000 / f / 10 <= counter * 10000000 / f)
      by (apply Z.div_le_upper_bound; lia). lia. }
  split; [reflexivity|]. unfold Wasapi.GetQPC.
  rewrite !perf_conversion by lia.
  split; [reflexivity|]. split; [reflexivity|]. split; [exact Hmono|].
  unfold Clock.mdate, Clock.read_perf, Clock.with_state. fold f.
  rewrite Hsel, Hr. change (10000000 / Clock.CLOCK_FREQ) with 10.
  rewrite perf_conversion by lia. now rewrite Hten.
Qed.

Lemma GetQPC_exact_witness :
  Wasapi.GetQPC 10000000 (Some 10000000)
  = Returned (10000000 * 10000000 / 10000000).
Proof.
  apply (GetQPC_exact Examples.desktop Examples.one_second
           {| Clock.mdate_selected := Clock.mdate_perf;
              Clock.clock_used_early := false;
              Clock.clk_perf_freq := 10000000 |} 10000000 10000000);
    try reflexivity; cbn; lia.
Defined.
